(** * Caristix HL7 trigger-event scraper: a shallow embedding

    Source: [scripts/scrape/scrapers/hl7_event_scraper.py], class
    [CaristixScraper].  The definitions come first and follow the file:

    - [PyStr]: the Python [str] methods the scraper calls;
    - the row parsers [_extract_segment_from_row], [_parse_row_text],
      [_detect_hierarchy_level] and the second pass of [expand_groups],
      over a store of Python list objects, so that the aliasing of
      [group_stack] and of the [group_path] of a record is visible;
    - the Selenium driver as an interface ([Driver]), a small monad that
      threads the state of the browser and records the commands sent to
      it, and on top of it [collect_event_urls], the first pass of
      [expand_groups], [parse_event_page] and [run].

    The properties follow, each with the rows or the site it is tried
    on.

    Texts are ASCII strings, one [ascii] per character; on such texts
    [len], [strip], [split], [isupper], [upper] and the regular
    expression of [_detect_hierarchy_level] below agree with Python's.
    [int] refuses a number of more than 4300 digits, as CPython does
    by default. *)

From Stdlib Require Import ZArith Ascii String List Bool Lia.
From stdpp Require Import base list gmap strings sorting.

Local Open Scope Z_scope.
Local Open Scope nat_scope.

(* ===================================================================== *)
(** ** Python string methods *)
(* ===================================================================== *)

Module PyStr.

(** [str.isspace] on one ASCII character: TAB, LF, VT, FF, CR,
    the separators 0x1c-0x1f and the space. *)
Definition is_space (c : ascii) : bool :=
  let n := nat_of_ascii c in
  ((9 <=? n) && (n <=? 13)) || ((28 <=? n) && (n <=? 32)).

Definition is_digit (c : ascii) : bool :=
  let n := nat_of_ascii c in (48 <=? n) && (n <=? 57).

Definition is_upper_char (c : ascii) : bool :=
  let n := nat_of_ascii c in (65 <=? n) && (n <=? 90).

Definition is_lower_char (c : ascii) : bool :=
  let n := nat_of_ascii c in (97 <=? n) && (n <=? 122).

Definition upper_char (c : ascii) : ascii :=
  if is_lower_char c then ascii_of_nat (nat_of_ascii c - 32) else c.

(** [bool(s)]: a string is truthy when it is not empty. *)
Definition truthy (s : string) : bool :=
  match s with EmptyString => false | String _ _ => true end.

Fixpoint lstrip_by (p : ascii -> bool) (s : string) : string :=
  match s with
  | EmptyString => EmptyString
  | String c s' => if p c then lstrip_by p s' else s
  end.

(** Strips from the right: the result of the tail is kept unless it is
    empty and the head is to be stripped too. *)
Fixpoint rstrip_by (p : ascii -> bool) (s : string) : string :=
  match s with
  | EmptyString => EmptyString
  | String c s' =>
      match rstrip_by p s' with
      | EmptyString => if p c then EmptyString else String c EmptyString
      | r => String c r
      end
  end.

(** [s.strip()] *)
Definition strip (s : string) : string :=
  rstrip_by is_space (lstrip_by is_space s).

(** [s.rstrip('/')] *)
Definition rstrip_slash (s : string) : string :=
  rstrip_by (fun c => Ascii.eqb c "/"%char) s.

(** [s.startswith(p)] *)
Definition startswith (p s : string) : bool := String.prefix p s.

(** [s.startswith((p1, p2, ...))] *)
Definition startswith_any (ps : list string) (s : string) : bool :=
  existsb (fun p => startswith p s) ps.

(** [sub in s] *)
Fixpoint contains (sub s : string) : bool :=
  startswith sub s ||
  match s with
  | EmptyString => false
  | String _ s' => contains sub s'
  end.

(** [s in [x1, x2, ...]] *)
Definition mem (s : string) (l : list string) : bool :=
  existsb (String.eqb s) l.

Fixpoint drop (n : nat) (s : string) : string :=
  match n, s with
  | O, _ => s
  | S _, EmptyString => EmptyString
  | S n', String _ s' => drop n' s'
  end.

(** [s.split(sep, 1)] for a non-empty [sep]: [None] when [sep] does not
    occur (Python returns the one-element list [[s]]), the text before
    and after the first occurrence otherwise. *)
Fixpoint split_once (sep s : string) : option (string * string) :=
  if startswith sep s then Some (EmptyString, drop (String.length sep) s)
  else
    match s with
    | EmptyString => None
    | String c s' =>
        match split_once sep s' with
        | Some (a, b) => Some (String c a, b)
        | None => None
        end
    end.

(** [s.split(c)] for a one-character separator: never the empty list. *)
Fixpoint split_char (sep : ascii) (s : string) : list string :=
  match s with
  | EmptyString => [EmptyString]
  | String c s' =>
      if Ascii.eqb c sep then EmptyString :: split_char sep s'
      else
        match split_char sep s' with
        | [] => [String c EmptyString]
        | w :: ws => String c w :: ws
        end
  end.

Definition newline : ascii := ascii_of_nat 10.

(** [s.split('\n')] *)
Definition split_lines (s : string) : list string := split_char newline s.

(** [s.split()[0]] when [s] is stripped and not empty: the text up to
    the first whitespace. *)
Fixpoint first_word (s : string) : string :=
  match s with
  | EmptyString => EmptyString
  | String c s' => if is_space c then EmptyString else String c (first_word s')
  end.

(** [s.upper()] *)
Fixpoint upper (s : string) : string :=
  match s with
  | EmptyString => EmptyString
  | String c s' => String (upper_char c) (upper s')
  end.

Fixpoint forallb_str (p : ascii -> bool) (s : string) : bool :=
  match s with
  | EmptyString => true
  | String c s' => p c && forallb_str p s'
  end.

Fixpoint existsb_str (p : ascii -> bool) (s : string) : bool :=
  match s with
  | EmptyString => false
  | String c s' => p c || existsb_str p s'
  end.

(** [s.isupper()]: no lowercase letter and at least one uppercase one. *)
Definition isupper (s : string) : bool :=
  forallb_str (fun c => negb (is_lower_char c)) s && existsb_str is_upper_char s.

(** Longest prefix of characters satisfying [p], and the rest. *)
Fixpoint span (p : ascii -> bool) (s : string) : string * string :=
  match s with
  | EmptyString => (EmptyString, EmptyString)
  | String c s' =>
      if p c then let '(a, b) := span p s' in (String c a, b)
      else (EmptyString, s)
  end.

(** [int(s)] for a string of decimal digits. *)
Fixpoint int_digits_from (acc : nat) (s : string) : nat :=
  match s with
  | EmptyString => acc
  | String c s' => int_digits_from (10 * acc + (nat_of_ascii c - 48)) s'
  end.

Definition int_digits (s : string) : nat := int_digits_from 0 s.

(** The largest number of digits [int] converts (the default of
    [sys.get_int_max_str_digits()]); leading zeros count. *)
Definition int_max_str_digits : nat := 4300.

(** [int(s)] for a string of decimal digits: [None] when [int] raises
    ValueError because [s] has more than 4300 digits. *)
Definition int_of_digits (s : string) : option nat :=
  if int_max_str_digits <? String.length s then None else Some (int_digits s).

(** The last element of [s.split('/')], that is [s.split('/')[-1]]. *)
Definition last_component (s : string) : string :=
  List.last (split_char "/"%char s) EmptyString.

End PyStr.

(* ===================================================================== *)
(** ** Exceptions *)
(* ===================================================================== *)

(** The exception classes the scraper tells apart.  [TimeoutException] is
    the only one the retry policy and [except TimeoutException] look for;
    [NoSuchElementException] is the one [WebDriverWait] ignores while it
    polls; [RetryError] is what the retry policy raises when it gives up;
    the other two stand for every other Selenium or I/O failure. *)
Inductive exn : Type :=
| TimeoutException
| NoSuchElementException
| WebDriverException
| RetryError
| OSError.

(** What a call into the browser gives back: a value or an exception. *)
Inductive result (A : Type) : Type :=
| Ok (a : A)
| Raise (e : exn).
Arguments Ok {A} a.
Arguments Raise {A} e.

Definition is_timeout (e : exn) : bool :=
  match e with TimeoutException => true | _ => false end.

(** A cascade of selectors: the loops at lines 243-249, 398-404 and
    457-461 query one selector after the other and stop at the first
    one that finds something.  A query that raises ends the cascade. *)
Fixpoint first_nonempty {X : Type} (query : string -> result (list X))
    (selectors : list string) : result (list X) :=
  match selectors with
  | [] => Ok []
  | sel :: rest =>
      match query sel with
      | Raise e => Raise e
      | Ok [] => first_nonempty query rest
      | Ok elements => Ok elements
      end
  end.

(* ===================================================================== *)
(** ** Rows, records and the store of list objects *)
(* ===================================================================== *)

(** A row element, given by what each read the parsers perform on it
    returns.  Every read happens at most once per row, so the answers
    describe the row completely. *)
Record Row : Type := {
  (** [row_element.find_elements(By.CSS_SELECTOR, sel)], each cell by
      the outcome of its [.text] *)
  row_cells : string -> result (list (result string));
  (** [row_element.text] *)
  row_text : result string;
  (** [row_element.get_attribute("style")] *)
  row_style : result (option string)
}.

(** Python lists are objects: [group_stack.append] changes the list in
    place and every name bound to it sees the change.  The store maps a
    reference to the current content of the list it denotes. *)
Definition loc : Type := nat.
Abbreviation Heap := (list (list string)).

(** The dictionary built at lines 506-515, 540-549 and 605-614;
    [group_path] holds a reference, as the Python value does. *)
Record Segment : Type := {
  segment_code : string;
  segment_desc : string;
  optionality : string;
  repeatability : string;
  is_group : bool;
  group_path : loc;
  level : nat;
  order_index : nat
}.

Module Store.

(** A new list object. *)
Definition alloc (v : list string) (h : Heap) : loc * Heap :=
  (length h, h ++ [v]).

(** The content of a list object. *)
Definition get (h : Heap) (l : loc) : list string := h !!! l.

(** [xs.append(x)], in place. *)
Definition append (l : loc) (x : string) (h : Heap) : Heap :=
  <[l := get h l ++ [x]]> h.

(** [xs[:n]], a new list. *)
Definition slice (l : loc) (n : nat) (h : Heap) : loc * Heap :=
  alloc (take n (get h l)) h.

(** [xs.copy()], a new list. *)
Definition copy (l : loc) (h : Heap) : loc * Heap :=
  alloc (get h l) h.

End Store.

(* ===================================================================== *)
(** ** The row parsers *)
(* ===================================================================== *)

Definition ui_tokens : list string := ["chevron_right"; "expand_more"; "expand_less"].

(** The three bytes of the UTF-8 encoding of the infinity sign. *)
Definition infinity_sign : string :=
  String (ascii_of_nat 226) (String (ascii_of_nat 136) (String (ascii_of_nat 158) EmptyString)).

(** The text after [padding-left:] matches [\s*(\d+)px]: the digits. *)
Definition match_padding_value (s : string) : option string :=
  let '(digits, rest) := PyStr.span PyStr.is_digit (PyStr.lstrip_by PyStr.is_space s) in
  if PyStr.truthy digits && PyStr.startswith "px" rest then Some digits else None.

(** [re.search(r'padding-left:\s*(\d+)px', style)]: the first group of
    the leftmost match. *)
Fixpoint search_padding (style : string) : option string :=
  let here :=
    if PyStr.startswith "padding-left:" style
    then match_padding_value (PyStr.drop 13 style) else None in
  match here with
  | Some digits => Some digits
  | None =>
      match style with
      | EmptyString => None
      | String _ rest => search_padding rest
      end
  end.

(** Lines 626-639: the nesting level read from the inline style;
    [None] when [int] raises ValueError. *)
Definition padding_level (style : option string) : option nat :=
  let padding_left :=
    match style with
    | Some s =>
        if PyStr.truthy s && PyStr.contains "padding-left:" s
        then match search_padding s with Some digits => digits | None => "0" end
        else "0"
    | None => "0"
    end in
  match PyStr.int_of_digits padding_left with
  | Some padding_pixels => Some (padding_pixels / 16)
  | None => None
  end.

(** [_detect_hierarchy_level]: the level and the stack to use for this
    row.  The stack returned is the caller's own list when nothing has
    to be cut, a new shorter list otherwise.  The handler at lines
    652-655 answers with the caller's stack and its length when the
    style cannot be read or [int] refuses the number. *)
Definition _detect_hierarchy_level (row : Row) (current_group_stack : loc) (h : Heap)
    : nat * loc * Heap :=
  match row_style row with
  | Raise _ => (length (Store.get h current_group_stack), current_group_stack, h)
  | Ok style =>
      match padding_level style with
      | None => (length (Store.get h current_group_stack), current_group_stack, h)
      | Some hierarchy_level =>
          if hierarchy_level <? length (Store.get h current_group_stack)
          then let '(l, h') := Store.slice current_group_stack hierarchy_level h in
               (hierarchy_level, l, h')
          else (hierarchy_level, current_group_stack, h)
      end
  end.

(** The first stripped line that is neither empty nor a UI token
    (the loop at lines 536-549). *)
Fixpoint first_group_line (lines : list string) : option string :=
  match lines with
  | [] => None
  | line :: rest =>
      let line := PyStr.strip line in
      if PyStr.truthy line && negb (PyStr.mem line ui_tokens) then Some line
      else first_group_line rest
  end.

(** The loop at lines 593-598 over [lines[1:]]. *)
Fixpoint scan_flags (lines : list string) (optionality repeatability : string)
    : string * string :=
  match lines with
  | [] => (optionality, repeatability)
  | line :: rest =>
      let line := PyStr.strip line in
      if PyStr.mem line ["R"; "O"; "C"] then scan_flags rest line repeatability
      else if PyStr.mem line ["-"; infinity_sign; "*"] then scan_flags rest optionality line
      else scan_flags rest optionality repeatability
  end.

Definition text_leaf_prefixes : list string :=
  ["MSH"; "EVN"; "PID"; "PV1"; "NK1"; "OBX"; "ORC"; "OBR"; "RXE"; "RXR"; "RXA"; "RXC"].

(** [_parse_row_text] *)
Definition _parse_row_text (row : Row) (order_index : nat) (group_stack : loc) (h : Heap)
    : Heap * option Segment :=
  match row_text row with
  | Raise _ => (h, None)
  | Ok text =>
      let full_text := PyStr.strip text in
      if negb (PyStr.truthy full_text) then (h, None) else
      let '(hierarchy_level, current_group_stack, h) :=
        _detect_hierarchy_level row group_stack h in
      if PyStr.contains "chevron_right" full_text || PyStr.contains "expand_more" full_text then
        match first_group_line (PyStr.split_lines full_text) with
        | Some seg_code =>
            let '(path, h) := Store.copy current_group_stack h in
            (h, Some {| segment_code := seg_code;
                        segment_desc := seg_code +:+ " group";
                        optionality := "R";
                        repeatability := "inf";
                        is_group := true;
                        group_path := path;
                        level := hierarchy_level;
                        order_index := order_index |})
        | None => (h, None)
        end
      else if PyStr.mem (PyStr.upper full_text) ["SEGMENT"; "OPTIONALITY"; "REPEATABILITY"]
      then (h, None) else
      match PyStr.split_lines full_text with
      | [] => (h, None)
      | line0 :: more =>
          let first_line := PyStr.strip line0 in
          if negb (PyStr.truthy first_line) then (h, None) else
          let seg_desc :=
            match more with
            | [] => EmptyString
            | line1 :: _ =>
                let second_line := PyStr.strip line1 in
                if PyStr.startswith "- " second_line then PyStr.strip (PyStr.drop 2 second_line)
                else if PyStr.startswith " - " second_line then PyStr.strip (PyStr.drop 3 second_line)
                else EmptyString
            end in
          let '(seg_code, seg_desc) :=
            if negb (PyStr.truthy seg_desc) && PyStr.contains " - " first_line then
              match PyStr.split_once " - " first_line with
              | Some (a, b) => (PyStr.strip a, PyStr.strip b)
              | None => (first_line, seg_desc)
              end
            else (first_line, seg_desc) in
          if negb (PyStr.truthy seg_code) || (String.length seg_code <? 2)
             || PyStr.mem seg_code ui_tokens
          then (h, None) else
          let '(optionality, repeatability) := scan_flags more "R" "-" in
          let is_group :=
            PyStr.isupper seg_code && (3 <? String.length seg_code)
            && negb (PyStr.startswith_any text_leaf_prefixes seg_code) in
          let '(path, h) := Store.copy current_group_stack h in
          (h, Some {| segment_code := seg_code;
                      segment_desc := seg_desc;
                      optionality := optionality;
                      repeatability := repeatability;
                      is_group := is_group;
                      group_path := path;
                      level := hierarchy_level;
                      order_index := order_index |})
      end
  end.

(** The local variables the cell loop of [_extract_segment_from_row]
    assigns (lines 468-472). *)
Record CellVars : Type := {
  cv_code : string;
  cv_desc : string;
  cv_optionality : string;
  cv_repeatability : string;
  cv_is_group : bool
}.

Definition cell_leaf_prefixes : list string := ["MSH"; "PID"; "EVN"].

(** The loop at lines 475-500 from cell number [i] on; [None] when the
    function returns [None] from inside the loop, by the filter at line
    488 or because a cell's text could not be read (handler at 517). *)
Fixpoint cells_loop (i : nat) (cells : list (result string)) (v : CellVars)
    : option CellVars :=
  match cells with
  | [] => Some v
  | Raise _ :: _ => None
  | Ok text :: rest =>
      let cell_text := PyStr.strip text in
      match i with
      | 0 =>
          let '(seg_code, seg_desc) :=
            if PyStr.contains " - " cell_text then
              match PyStr.split_once " - " cell_text with
              | Some (a, b) => (PyStr.strip a, PyStr.strip b)
              | None => (cell_text, EmptyString)
              end
            else (cell_text, EmptyString) in
          if PyStr.mem seg_code (ui_tokens ++ [EmptyString]) then None else
          cells_loop 1 rest
            {| cv_code := seg_code;
               cv_desc := seg_desc;
               cv_optionality := cv_optionality v;
               cv_repeatability := cv_repeatability v;
               cv_is_group :=
                 PyStr.isupper seg_code && (3 <? String.length seg_code)
                 && negb (PyStr.startswith_any cell_leaf_prefixes seg_code) |}
      | 1 =>
          cells_loop 2 rest
            (if PyStr.mem cell_text ["R"; "O"; "C"]
             then {| cv_code := cv_code v; cv_desc := cv_desc v;
                     cv_optionality := cell_text;
                     cv_repeatability := cv_repeatability v;
                     cv_is_group := cv_is_group v |}
             else v)
      | 2 =>
          cells_loop 3 rest
            (if PyStr.mem cell_text ["-"; infinity_sign; "*"]
             then {| cv_code := cv_code v; cv_desc := cv_desc v;
                     cv_optionality := cv_optionality v;
                     cv_repeatability := cell_text;
                     cv_is_group := cv_is_group v |}
             else v)
      | S i' => cells_loop (S (S i')) rest v
      end
  end.

Definition cell_selectors : list string :=
  [".tree-table-cell"; ".cell"; ".column"; "td"; "[class*='cell']"].

(** [_extract_segment_from_row] *)
Definition _extract_segment_from_row (row : Row) (order_index : nat) (group_stack : loc)
    (h : Heap) : Heap * option Segment :=
  match first_nonempty (row_cells row) cell_selectors with
  | Raise _ => (h, None)
  | Ok [] => _parse_row_text row order_index group_stack h
  | Ok cells =>
      let level := length (Store.get h group_stack) in
      match cells_loop 0 cells
              {| cv_code := EmptyString; cv_desc := EmptyString;
                 cv_optionality := "-"; cv_repeatability := "-";
                 cv_is_group := false |} with
      | None => (h, None)
      | Some v =>
          if negb (PyStr.truthy (cv_code v)) || (String.length (cv_code v) <? 2)
          then (h, None) else
          let '(path, h) := Store.copy group_stack h in
          (h, Some {| segment_code := cv_code v;
                      segment_desc := cv_desc v;
                      optionality := cv_optionality v;
                      repeatability := cv_repeatability v;
                      is_group := cv_is_group v;
                      group_path := path;
                      level := level;
                      order_index := order_index |})
      end
  end.

(* ===================================================================== *)
(** ** The second pass of [expand_groups] *)
(* ===================================================================== *)

(** The variables of the loop at lines 415-441 and the store. *)
Record FlattenState : Type := {
  fs_heap : Heap;
  fs_segments : list Segment;
  fs_order_index : nat;
  fs_group_stack : loc
}.

(** Lines 225 and 415-416: [segments = []], [order_index = 0] and
    [group_stack = []], a new list object. *)
Definition flatten_init : FlattenState :=
  let '(gs, h) := Store.alloc [] [] in
  {| fs_heap := h; fs_segments := []; fs_order_index := 0; fs_group_stack := gs |}.

(** One turn of the loop at lines 418-441. *)
Definition flatten_row (st : FlattenState) (row : Row) : FlattenState :=
  let '(h, segment_data) :=
    _extract_segment_from_row row (fs_order_index st) (fs_group_stack st) (fs_heap st) in
  match segment_data with
  | None =>
      {| fs_heap := h; fs_segments := fs_segments st;
         fs_order_index := fs_order_index st; fs_group_stack := fs_group_stack st |}
  | Some seg =>
      let segments := fs_segments st ++ [seg] in
      let order_index := fs_order_index st + 1 in
      if is_group seg then
        let current_level := level seg in
        let '(group_stack, h) :=
          if current_level <? length (Store.get h (fs_group_stack st))
          then Store.slice (fs_group_stack st) current_level h
          else (fs_group_stack st, h) in
        let h := Store.append group_stack (segment_code seg) h in
        {| fs_heap := h; fs_segments := segments;
           fs_order_index := order_index; fs_group_stack := group_stack |}
      else
        {| fs_heap := h; fs_segments := segments;
           fs_order_index := order_index; fs_group_stack := fs_group_stack st |}
  end.

(** The loop itself, from any state it can be in. *)
Definition flatten_from (st : FlattenState) (rows : list Row) : FlattenState :=
  fold_left flatten_row rows st.

Definition flatten (rows : list Row) : FlattenState := flatten_from flatten_init rows.

(** A record as the JSON output shows it: [group_path] by content. *)
Record SegmentData : Type := {
  sd_code : string;
  sd_desc : string;
  sd_optionality : string;
  sd_repeatability : string;
  sd_is_group : bool;
  sd_group_path : list string;
  sd_level : nat;
  sd_order_index : nat
}.

Definition segment_data (h : Heap) (s : Segment) : SegmentData :=
  {| sd_code := segment_code s;
     sd_desc := segment_desc s;
     sd_optionality := optionality s;
     sd_repeatability := repeatability s;
     sd_is_group := is_group s;
     sd_group_path := Store.get h (group_path s);
     sd_level := level s;
     sd_order_index := order_index s |}.

(** The records of a state, read in its store. *)
Definition emitted (st : FlattenState) : list SegmentData :=
  map (segment_data (fs_heap st)) (fs_segments st).

(** The loop at lines 666-693 of [_parse_table_text_fallback], over the
    stripped non-empty lines of the table text. *)
Fixpoint fallback_lines (lines : list string) (order_index : nat) : list SegmentData :=
  match lines with
  | [] => []
  | line :: rest =>
      if negb (PyStr.truthy line) || PyStr.contains "SEGMENT" (PyStr.upper line)
         || PyStr.contains "OPTIONALITY" (PyStr.upper line)
      then fallback_lines rest order_index else
      let seg_code := PyStr.first_word line in
      if PyStr.mem seg_code (ui_tokens ++ [EmptyString]) then fallback_lines rest order_index else
      {| sd_code := seg_code; sd_desc := EmptyString;
         sd_optionality := "-"; sd_repeatability := "-";
         sd_is_group := false; sd_group_path := [];
         sd_level := 0; sd_order_index := order_index |}
      :: fallback_lines rest (order_index + 1)
  end.

(** [_parse_table_text_fallback], from the outcome of [table_element.text]. *)
Definition _parse_table_text_fallback (table_text : result string) : list SegmentData :=
  match table_text with
  | Raise _ => []
  | Ok text =>
      let lines :=
        map PyStr.strip
          (List.filter (fun line => PyStr.truthy (PyStr.strip line))
             (PyStr.split_lines (PyStr.strip text))) in
      fallback_lines lines 0
  end.

Definition row_selectors : list string :=
  [".flex-segment"; ".tree-table-row"; "[class*='row']"; "tr"; ".segment-row"].

(** Lines 386-443: the second pass, from the rows each selector finds
    and the table text. *)
Definition extract_segments (table_rows : string -> result (list Row))
    (table_text : result string) : list SegmentData :=
  match first_nonempty table_rows row_selectors with
  | Raise _ => []
  | Ok [] => _parse_table_text_fallback table_text
  | Ok segment_elements => emitted (flatten segment_elements)
  end.

(* ===================================================================== *)
(** ** The browser *)
(* ===================================================================== *)

Inductive By : Type := ByCss | ByXpath.

(** The scripts the scraper passes to [execute_script]. *)
Inductive Script (Elem : Type) : Type :=
| SetScrollTop (e : Elem) (position : Z)   (* arguments[0].scrollTop = {position} *)
| ScrollToEnd (e : Elem)                   (* arguments[0].scrollTop = arguments[0].scrollHeight *)
| WindowScrollToEnd                        (* window.scrollTo(0, document.body.scrollHeight) *)
| ScrollIntoView (e : Elem)                (* arguments[0].scrollIntoView(true); *)
| JsClick (e : Elem).                      (* arguments[0].click(); *)
Arguments SetScrollTop {Elem} e position.
Arguments ScrollToEnd {Elem} e.
Arguments WindowScrollToEnd {Elem}.
Arguments ScrollIntoView {Elem} e.
Arguments JsClick {Elem} e.

(** The numbers the scraper reads with [execute_script("return ...")]. *)
Inductive Measure (Elem : Type) : Type :=
| ScrollHeightOf (e : Elem)
| ClientHeightOf (e : Elem)
| BodyScrollHeight.
Arguments ScrollHeightOf {Elem} e.
Arguments ClientHeightOf {Elem} e.
Arguments BodyScrollHeight {Elem}.

(** The metadata of an event page (lines 719-789). *)
Record PageMeta : Type := {
  pm_name : string;
  pm_version : string;
  pm_chapter : string;
  pm_description : string
}.

(** The dictionary [parse_event_page] returns. *)
Record EventData : Type := {
  ed_code : string;
  ed_meta : PageMeta;
  ed_segments : list SegmentData
}.

(** Every command sent to the browser or to the file system, in the
    order of the calls; sleeps are in milliseconds. *)
Inductive Event (Elem : Type) : Type :=
| EvGet (url : string)
| EvScript (s : Script Elem)
| EvClick (e : Elem)
| EvActionClick (e : Elem)
| EvSleep (ms : Z)
| EvSave (code : string)
| EvSaveMaster
| EvQuit.
Arguments EvGet {Elem} url.
Arguments EvScript {Elem} s.
Arguments EvClick {Elem} e.
Arguments EvActionClick {Elem} e.
Arguments EvSleep {Elem} ms.
Arguments EvSave {Elem} code.
Arguments EvSaveMaster {Elem}.
Arguments EvQuit {Elem}.

(** The Selenium driver, the clock, the random source and the output
    directory, as the scraper uses them.  [World] is the state of all of
    that; reads depend on it, commands change it, and time passing
    ([sleep]) changes it too, since the page renders on its own.  An
    exception raised by a command may still have changed the world. *)
Class Driver (World Elem : Type) : Type := {
  (** [scope.find_elements(by, selector)]; the scope [None] is the
      driver itself *)
  find_elements : option Elem -> By -> string -> World -> result (list Elem);
  (** [e.get_attribute(name)] *)
  get_attribute : Elem -> string -> World -> result (option string);
  (** [e.text] *)
  elem_text : Elem -> World -> result string;
  (** [execute_script("return ...")] *)
  measure : Measure Elem -> World -> result Z;
  (** title, version, name, chapter and description of the page shown:
      the reads of lines 719-789, whose only way to fail is
      [driver.title] at line 781 *)
  page_metadata : World -> result PageMeta;
  (** [random.uniform(-0.1, 0.1)], in milliseconds *)
  jitter : World -> Z;
  (** [driver.get(url)] *)
  get : string -> World -> result unit * World;
  (** [execute_script(...)] for its effect *)
  execute_script : Script Elem -> World -> result unit * World;
  (** [e.click()] *)
  click : Elem -> World -> result unit * World;
  (** [ActionChains(driver).move_to_element(e).click().perform()] *)
  action_click : Elem -> World -> result unit * World;
  (** [time.sleep] *)
  sleep : Z -> World -> World;
  (** [save_event_data] and the master file: writes under [dest] *)
  write_event : EventData -> World -> result unit * World;
  write_master : list EventData -> World -> result unit * World;
  (** [driver.quit()] *)
  quit : World -> result unit * World
}.

(** How a computation ends: with a value, with an exception, or not at
    all within the fuel given to its [while] loops. *)
Inductive outcome (A : Type) : Type :=
| Return (a : A)
| Throw (e : exn)
| Diverge.
Arguments Return {A} a.
Arguments Throw {A} e.
Arguments Diverge {A}.

Definition of_result {A : Type} (r : result A) : outcome A :=
  match r with Ok a => Return a | Raise e => Throw e end.

Section browser.
Context {World Elem : Type} {D : Driver World Elem}.

(** A computation: from the world to an outcome, the world after it
    and the commands it issued. *)
Definition M (A : Type) : Type := World -> outcome A * World * list (Event Elem).

Definition ret {A : Type} (a : A) : M A := fun w => (Return a, w, []).

Definition bind {A B : Type} (m : M A) (k : A -> M B) : M B :=
  fun w =>
    match m w with
    | (Return a, w1, t1) => let '(o, w2, t2) := k a w1 in (o, w2, t1 ++ t2)
    | (Throw e, w1, t1) => (Throw e, w1, t1)
    | (Diverge, w1, t1) => (Diverge, w1, t1)
    end.

Definition throw {A : Type} (e : exn) : M A := fun w => (Throw e, w, []).

Definition diverge {A : Type} : M A := fun w => (Diverge, w, []).

(** [try: m except Exception as e: handler(e)], also the bare [except:] *)
Definition try_except {A : Type} (m : M A) (handler : exn -> M A) : M A :=
  fun w =>
    match m w with
    | (Throw e, w1, t1) => let '(o, w2, t2) := handler e w1 in (o, w2, t1 ++ t2)
    | r => r
    end.

(** [try: m finally: cleanup] *)
Definition try_finally {A : Type} (m : M A) (cleanup : M unit) : M A :=
  fun w =>
    match m w with
    | (Diverge, w1, t1) => (Diverge, w1, t1)
    | (o, w1, t1) =>
        match cleanup w1 with
        | (Return _, w2, t2) => (o, w2, t1 ++ t2)
        | (Throw e, w2, t2) => (Throw e, w2, t1 ++ t2)
        | (Diverge, w2, t2) => (Diverge, w2, t1 ++ t2)
        end
    end.

(** A read of the current world. *)
Definition read {A : Type} (f : World -> result A) : M A :=
  fun w => (of_result (f w), w, []).

(** A command, recorded as [ev]. *)
Definition command (ev : Event Elem) (f : World -> result unit * World) : M unit :=
  fun w => let '(r, w') := f w in (of_result r, w', [ev]).

End browser.

Declare Scope browser_scope.
Delimit Scope browser_scope with browser.
Notation "x <- m ;; k" := (bind m (fun x => k))
  (at level 100, m at next level, right associativity, only parsing) : browser_scope.
Notation "m ;;; k" := (bind m (fun _ => k))
  (at level 100, right associativity, only parsing) : browser_scope.
Local Open Scope browser_scope.

Section scraper.
Context {World Elem : Type} {D : Driver World Elem}.

Abbreviation M := (@M World Elem).

Definition do_get (url : string) : M unit := command (EvGet url) (get url).
Definition do_script (s : Script Elem) : M unit := command (EvScript s) (execute_script s).
Definition do_click (e : Elem) : M unit := command (EvClick e) (click e).
Definition do_action_click (e : Elem) : M unit := command (EvActionClick e) (action_click e).
Definition do_sleep (ms : Z) : M unit := command (EvSleep ms) (fun w => (Ok tt, sleep ms w)).

(** [for x in xs: acc = body(acc, x)] *)
Fixpoint for_each {X S : Type} (xs : list X) (body : S -> X -> M S) (acc : S) : M S :=
  match xs with
  | [] => ret acc
  | x :: rest => acc' <- body acc x ;; for_each rest body acc'
  end.

(** ** Constants (lines 29-41) *)

Definition BASE_URL : string := "https://hl7-definition.caristix.com/v2/HL7v2.3/TriggerEvents".
Definition SEL_EVENT_LINKS : string := "a[href*='/v2/HL7v2.3/TriggerEvents/']".
Definition SEL_TABLE : string := ".tree-table.table-with-margins".
Definition SEL_COOKIE_BANNER : string := "[class*='cookie'], [id*='cookie'], .consent-banner".
Definition SEL_CLOSE_BUTTON : string :=
  "button[aria-label*='lose'], button[title*='lose'], .close, button:has(svg)".

(** ** [WebDriverWait(driver, timeout).until(condition)]

    The wait evaluates the condition, returns its value when there is
    one, ignores [NoSuchElementException], sleeps half a second and
    starts again; when the time is over it raises [TimeoutException].
    [polls] is the number of evaluations that fit in the timeout. *)
Fixpoint wait_until {A : Type} (polls : nat) (condition : World -> result (option A)) : M A :=
  match polls with
  | O => throw TimeoutException
  | S polls' =>
      fun w =>
        match condition w with
        | Ok (Some value) => (Return value, w, [])
        | Raise e =>
            match e with
            | NoSuchElementException => (do_sleep 500 ;;; wait_until polls' condition) w
            | _ => (Throw e, w, [])
            end
        | Ok None => (do_sleep 500 ;;; wait_until polls' condition) w
        end
  end.

(** Evaluations at 0, 0.5, ..., [timeout] seconds. *)
Definition polls_within (timeout_s : nat) : nat := 2 * timeout_s + 1.

(** [EC.presence_of_all_elements_located]: the elements found, which
    count as a value only when there is at least one. *)
Definition presence_of_all_elements_located (by_ : By) (selector : string)
    (w : World) : result (option (list Elem)) :=
  match find_elements None by_ selector w with
  | Raise e => Raise e
  | Ok [] => Ok None
  | Ok elements => Ok (Some elements)
  end.

(** [scope.find_element]: the first element found, or
    [NoSuchElementException]. *)
Definition find_element (scope : option Elem) (by_ : By) (selector : string)
    (w : World) : result Elem :=
  match find_elements scope by_ selector w with
  | Raise e => Raise e
  | Ok [] => Raise NoSuchElementException
  | Ok (e :: _) => Ok e
  end.

(** [EC.presence_of_element_located] *)
Definition presence_of_element_located (by_ : By) (selector : string)
    (w : World) : result (option Elem) :=
  match find_element None by_ selector w with
  | Raise e => Raise e
  | Ok e => Ok (Some e)
  end.

(** ** The retry policy (lines 115-119 and 701-705)

    [wait_exponential(multiplier=1, min=2, max=10)] after the failed
    attempt number [attempt_number], in milliseconds: the library
    waits [multiplier * 2 ** (attempt_number - 1)] seconds, kept between
    [min] and [max]. *)
Definition wait_exponential (attempt_number : nat) : Z :=
  let exp := (2 ^ (Z.of_nat attempt_number - 1))%Z in
  (1000 * Z.max (Z.max 0 2) (Z.min (1 * exp) 10))%Z.

(** [@retry(stop=stop_after_attempt(stop), wait=wait_exponential(...),
    retry=retry_if_exception_type(TimeoutException))]: [remaining]
    attempts are left and [attempt_number] is the number of the next
    one.  An exception other than [TimeoutException] leaves at once. *)
Fixpoint retry_from {A : Type} (remaining attempt_number : nat) (f : M A) : M A :=
  match remaining with
  | O => throw RetryError
  | S remaining' =>
      try_except f
        (fun e =>
           if is_timeout e then
             match remaining' with
             | O => throw RetryError
             | S _ =>
                 do_sleep (wait_exponential attempt_number) ;;;
                 retry_from remaining' (S attempt_number) f
             end
           else throw e)
  end.

Definition retry {A : Type} (f : M A) : M A := retry_from 3 1 f.

(** ** [close_cookie_banner] (lines 94-108) *)

Definition lower_char (c : ascii) : ascii :=
  if PyStr.is_upper_char c then ascii_of_nat (nat_of_ascii c + 32) else c.

Fixpoint lower (s : string) : string :=
  match s with
  | EmptyString => EmptyString
  | String c s' => String (lower_char c) (lower s')
  end.

(** The inner loop: [true] when a banner was clicked and the function
    returned.  A missing [class] attribute raises at [.lower()]. *)
Fixpoint banner_loop (elements : list Elem) : M bool :=
  match elements with
  | [] => ret false
  | el :: rest =>
      cls <- read (get_attribute el "class") ;;
      match cls with
      | None => throw OSError
      | Some cls =>
          hit <-
            (if PyStr.contains "cookie" (lower cls) || PyStr.contains "consent" (lower cls)
             then ret true
             else text <- read (elem_text el) ;; ret (PyStr.contains "close" (lower text))) ;;
          if hit : bool then
            do_script (JsClick el) ;;; do_sleep 500 ;;; ret true
          else banner_loop rest
      end
  end.

Definition close_cookie_banner : M unit :=
  done_ <- for_each [SEL_COOKIE_BANNER; SEL_CLOSE_BUTTON]
    (fun (done_ : bool) selector =>
       if done_ then ret true
       else try_except
              (elements <- read (find_elements None ByCss selector) ;; banner_loop elements)
              (fun _ => ret false))
    false ;;
  ret tt.

(** ** [collect_event_urls] (lines 120-195) *)

(** [url and url.rstrip('/') != BASE_URL and '/TriggerEvents/' in url] *)
Definition valid_url (url : option string) : bool :=
  match url with
  | None => false
  | Some url =>
      PyStr.truthy url
      && negb (String.eqb (PyStr.rstrip_slash url) BASE_URL)
      && PyStr.contains "/TriggerEvents/" url
  end.

(** [{link.get_attribute("href") for link in links}] *)
Definition hrefs (links : list Elem) : M (list (option string)) :=
  for_each links
    (fun acc link => href <- read (get_attribute link "href") ;; ret (acc ++ [href]))
    [].

(** The set of the valid URLs among [urls]. *)
Definition valid_urls (urls : list (option string)) : gset string :=
  list_to_set (omap (fun u => if valid_url u then u else None) urls).

(** The links mounted now, as a set of valid URLs (lines 164-169,
    187-190 and 217-219). *)
Definition visible_urls : M (gset string) :=
  links <- read (find_elements None ByCss SEL_EVENT_LINKS) ;;
  urls <- hrefs links ;;
  ret (valid_urls urls).

Definition string_le (a b : string) : Prop := String.leb a b = true.

Global Instance string_le_dec a b : Decision (string_le a b).
Proof. unfold string_le. apply _. Defined.

(** [sorted(list(s))] *)
Definition sorted (s : gset string) : list string :=
  merge_sort string_le (elements s).

(** The variables of the loop at lines 158-181. *)
Record ScrollState : Type := {
  all_urls : gset string;
  scroll_position : Z;
  no_new_urls_count : nat
}.

(** One turn of the loop at lines 158-181. *)
Definition scroll_iteration (virtual_scroll : Elem) (scroll_step : Z) (st : ScrollState)
    : M ScrollState :=
  do_script (SetScrollTop virtual_scroll (scroll_position st)) ;;;
  do_sleep 500 ;;;
  valid <- visible_urls ;;
  let previous_count := size (all_urls st) in
  let all := all_urls st ∪ valid in
  ret {| all_urls := all;
         scroll_position := (scroll_position st + scroll_step)%Z;
         no_new_urls_count :=
           if size all =? previous_count then no_new_urls_count st + 1 else 0 |}.

(** [while scroll_position <= max_position and no_new_urls_count < 5] *)
Definition scroll_continues (max_position : Z) (st : ScrollState) : bool :=
  (scroll_position st <=? max_position)%Z && (no_new_urls_count st <? 5).

Fixpoint scroll_loop (fuel : nat) (virtual_scroll : Elem) (scroll_step max_position : Z)
    (st : ScrollState) : M ScrollState :=
  if scroll_continues max_position st then
    match fuel with
    | O => diverge
    | S fuel' =>
        st' <- scroll_iteration virtual_scroll scroll_step st ;;
        scroll_loop fuel' virtual_scroll scroll_step max_position st'
    end
  else ret st.

(** The loop of [_fallback_collect_urls] (lines 202-214). *)
Fixpoint fallback_scroll (fuel : nat) (last_height : Z) (scroll_attempts : nat) : M unit :=
  if scroll_attempts <? 20 then
    match fuel with
    | O => diverge
    | S fuel' =>
        do_script WindowScrollToEnd ;;;
        do_sleep 1000 ;;;
        new_height <- read (measure BodyScrollHeight) ;;
        if (new_height =? last_height)%Z then ret tt
        else fallback_scroll fuel' new_height (scroll_attempts + 1)
    end
  else ret tt.

Definition _fallback_collect_urls (fuel : nat) : M (list string) :=
  fallback_scroll fuel 0 0 ;;;
  urls <- visible_urls ;;
  ret (sorted urls).

(** The body of [collect_event_urls], one attempt. *)
Definition collect_event_urls_attempt (fuel : nat) : M (list string) :=
  do_get BASE_URL ;;;
  wait_until (polls_within 15) (presence_of_all_elements_located ByCss SEL_EVENT_LINKS) ;;;
  close_cookie_banner ;;;
  found <- try_except
    (v <- wait_until (polls_within 10)
            (presence_of_element_located ByCss ".cdk-virtual-scroll-viewport") ;;
     ret (Some v))
    (fun e => if is_timeout e then ret None else throw e) ;;
  match found with
  | None => _fallback_collect_urls fuel
  | Some virtual_scroll =>
      scroll_height <- read (measure (ScrollHeightOf virtual_scroll)) ;;
      client_height <- read (measure (ClientHeightOf virtual_scroll)) ;;
      let scroll_step := (client_height / 2)%Z in
      let max_position := (scroll_height - client_height)%Z in
      st <- scroll_loop fuel virtual_scroll scroll_step max_position
              {| all_urls := ∅; scroll_position := 0; no_new_urls_count := 0 |} ;;
      do_script (ScrollToEnd virtual_scroll) ;;;
      do_sleep 1000 ;;;
      final_valid <- visible_urls ;;
      ret (sorted (all_urls st ∪ final_valid))
  end.

(** [collect_event_urls], with its retry policy. *)
Definition collect_event_urls (fuel : nat) : M (list string) :=
  retry (collect_event_urls_attempt fuel).

(** ** [expand_groups], first pass (lines 227-384) *)

Definition expandable_selectors : list string :=
  ["button[aria-expanded='false']";
   ".tree-table-cell-content-with-button button";
   "[class*='chevron']";
   "[class*='expand']";
   "button"].

Definition chevron_xpath : string := ".//*[contains(text(), 'chevron_right')]".

Definition clickable_xpath : string :=
  ".//button | .//*[@role='button'] | .//*[contains(@class, 'clickable')] | .//*[contains(@class, 'expand')]".

(** The body of the loop at lines 253-269 for one chevron row: what it
    adds to [expandables].  Each step that raises ends the [try]
    block, and what was added before stays. *)
Definition chevron_row_controls (w : World) (expandables : list Elem) (row : Elem)
    : list Elem :=
  match find_elements (Some row) ByCss
          "button, [role='button'], [class*='expand'], [class*='chevron']" w with
  | Raise _ => expandables
  | Ok buttons =>
      let expandables := expandables ++ buttons in
      match get_attribute row "class" w with
      | Raise _ | Ok None => expandables
      | Ok (Some cls) =>
          let expandables :=
            if PyStr.contains "tree-table-cell-content-with-button" cls
            then expandables ++ [row] else expandables in
          match find_elements (Some row) ByCss "[class*='mat-icon-button']" w with
          | Raise _ => expandables
          | Ok mat_buttons => expandables ++ mat_buttons
          end
      end
  end.

(** Lines 243-269: the controls to try in this round. *)
Definition find_expandables (table_element : Elem) : M (list Elem) :=
  expandables <- read (fun w =>
    first_nonempty (fun sel => find_elements (Some table_element) ByCss sel w)
                   expandable_selectors) ;;
  chevron_rows <- read (find_elements (Some table_element) ByXpath chevron_xpath) ;;
  read (fun w => Ok (fold_left (chevron_row_controls w) chevron_rows expandables)).

(** What the loops of one round update. *)
Record ClickState : Type := {
  expanded_count : nat;
  any_expanded : bool
}.

Definition clicked (cs : ClickState) : ClickState :=
  {| expanded_count := expanded_count cs + 1; any_expanded := true |}.

(** Lines 292-320: the three ways to click, each tried only when the
    ones before it failed. *)
Definition click_strategies (button : Elem) : M bool :=
  ok <- try_except
          (do_script (ScrollIntoView button) ;;; do_sleep 300 ;;; do_click button ;;;
           ret true)
          (fun _ => ret false) ;;
  ok <- (if ok : bool then ret true
         else try_except (do_script (JsClick button) ;;; ret true) (fun _ => ret false)) ;;
  (if ok : bool then ret true
   else try_except (do_action_click button ;;; ret true) (fun _ => ret false)).

(** [attr == value] for the outcome of [get_attribute]. *)
Definition attr_is (value : string) (attr : option string) : bool :=
  match attr with
  | Some v => String.eqb v value
  | None => false
  end.

(** Lines 275-330: one control.  A control that reports
    [aria-expanded="true"] is passed over; the text of the control is
    read before any click, and the text of its parent, read at line
    285 for the log only and inside its own [try], is left out. *)
Definition try_expand (cs : ClickState) (button : Elem) : M ClickState :=
  try_except
    (aria_expanded <- read (get_attribute button "aria-expanded") ;;
     if attr_is "true" aria_expanded then ret cs
     else
       _ <- read (elem_text button) ;;
       click_success <- click_strategies button ;;
       if click_success : bool then do_sleep 1000 ;;; ret (clicked cs)
       else ret cs)
    (fun _ => ret cs).

(** Lines 347-356 and 362-370: a script click on an element, counted
    when it does not raise. *)
Definition script_click (pause : Z) (cs : ClickState) (e : Elem) : M ClickState :=
  try_except
    (do_script (JsClick e) ;;; do_sleep pause ;;; ret (clicked cs))
    (fun _ => ret cs).

(** The variables of the loop at lines 233-382; [rounds] counts the
    turns taken and is not a variable of the source. *)
Record ExpandState : Type := {
  attempt : nat;
  total_expanded : nat;
  previous_row_count : nat;
  rounds : nat
}.

Definition max_attempts : nat := 15.

(** One turn of the loop: the state after it, and whether the loop
    was left by [break]. *)
Definition expand_round (table_element : Elem) (st : ExpandState) : M (ExpandState * bool) :=
  expandables <- find_expandables table_element ;;
  cs <- for_each expandables try_expand
          {| expanded_count := total_expanded st; any_expanded := false |} ;;
  current_rows <- read (find_elements (Some table_element) ByCss ".flex-segment") ;;
  let current_row_count := length current_rows in
  remaining_chevrons <- read (find_elements (Some table_element) ByXpath chevron_xpath) ;;
  cs <- (if any_expanded cs then ret cs
         else
           match remaining_chevrons with
           | [] => ret cs
           | _ =>
               cs <- for_each (take 3 remaining_chevrons) (script_click 1000) cs ;;
               all_clickables <-
                 read (find_elements (Some table_element) ByXpath clickable_xpath) ;;
               for_each (take 5 all_clickables) (script_click 500) cs
           end) ;;
  if negb (any_expanded cs) then
    ret ({| attempt := attempt st; total_expanded := expanded_count cs;
            previous_row_count := previous_row_count st;
            rounds := rounds st + 1 |}, true)
  else
    do_sleep 500 ;;;
    ret ({| attempt := attempt st + 1; total_expanded := expanded_count cs;
            previous_row_count := current_row_count;
            rounds := rounds st + 1 |}, false).

(** [while attempt < max_attempts] *)
Fixpoint expand_loop (fuel : nat) (table_element : Elem) (st : ExpandState) : M ExpandState :=
  if attempt st <? max_attempts then
    match fuel with
    | O => diverge
    | S fuel' =>
        r <- expand_round table_element st ;;
        let '(st', stop) := r in
        if stop : bool then ret st' else expand_loop fuel' table_element st'
    end
  else ret st.

(** The first pass, from the initial values of lines 228-231. *)
Definition expand_all (fuel : nat) (table_element : Elem) : M ExpandState :=
  expand_loop fuel table_element
    {| attempt := 0; total_expanded := 0; previous_row_count := 0; rounds := 0 |}.

(** A row element as the parsers read it in the world [w]. *)
Definition read_row (w : World) (row : Elem) : Row :=
  {| row_cells := fun sel =>
       match find_elements (Some row) ByCss sel w with
       | Raise e => Raise e
       | Ok cells => Ok (map (fun cell => elem_text cell w) cells)
       end;
     row_text := elem_text row w;
     row_style := get_attribute row "style" w |}.

(** [expand_groups]: the first pass, then the records of the rows
    that are there. *)
Definition expand_groups (fuel : nat) (table_element : Elem) : M (list SegmentData) :=
  expand_all fuel table_element ;;;
  read (fun w =>
    Ok (extract_segments
          (fun sel =>
             match find_elements (Some table_element) ByCss sel w with
             | Raise e => Raise e
             | Ok rows => Ok (map (read_row w) rows)
             end)
          (elem_text table_element w))).

(** ** [parse_event_page] (lines 706-808) *)

(** [random_delay] with the scraper's [delay_ms]. *)
Definition random_delay (delay_ms : Z) : M unit :=
  fun w => do_sleep (Z.max 300 (delay_ms + jitter w)) w.

(** The body of [parse_event_page], one attempt: [None] when the
    segments could not be extracted (line 798). *)
Definition parse_event_page_attempt (fuel : nat) (delay_ms : Z) (url : string)
    : M (option EventData) :=
  let code := PyStr.last_component (PyStr.rstrip_slash url) in
  do_get url ;;;
  random_delay delay_ms ;;;
  wait_until (polls_within 15) (presence_of_element_located ByCss SEL_TABLE) ;;;
  meta <- read page_metadata ;;
  try_except
    (table <- read (find_element None ByCss SEL_TABLE) ;;
     segments <- expand_groups fuel table ;;
     ret (Some {| ed_code := code; ed_meta := meta; ed_segments := segments |}))
    (fun _ => ret None).

Definition parse_event_page (fuel : nat) (delay_ms : Z) (url : string)
    : M (option EventData) :=
  retry (parse_event_page_attempt fuel delay_ms url).

(** ** [run] (lines 839-897) *)

Definition save_event_data (event_data : EventData) : M unit :=
  command (EvSave (ed_code event_data)) (write_event event_data).

(** The variables of the loop at lines 850-872. *)
Record RunState : Type := {
  all_data : list EventData;
  processed_events : gset string
}.

(** One turn of the loop at lines 850-872. *)
Definition process_url (fuel : nat) (delay_ms : Z) (st : RunState) (url : string)
    : M RunState :=
  let code := PyStr.last_component (PyStr.rstrip_slash url) in
  if decide (code ∈ processed_events st) then ret st
  else
    r <- try_except
           (event_data <- parse_event_page fuel delay_ms url ;;
            match event_data with
            | Some event_data =>
                save_event_data event_data ;;;
                ret (Some {| all_data := all_data st ++ [event_data];
                             processed_events := processed_events st ∪ {[code]} |})
            | None => ret (Some st)
            end)
           (fun _ => ret None) ;;
    match r with
    | Some st' => random_delay delay_ms ;;; ret st'
    | None => ret st
    end.

(** [urls[:limit]] when [limit] is given and not zero. *)
Definition limit_urls (limit : option Z) (urls : list string) : list string :=
  match limit with
  | None => urls
  | Some n =>
      if (n =? 0)%Z then urls
      else if (0 <? n)%Z then take (Z.to_nat n) urls
      else take (length urls - Z.to_nat (- n)) urls
  end.

(** [run] after the driver is set up: the events harvested. *)
Definition run (fuel : nat) (delay_ms : Z) (limit : option Z) (processed : gset string)
    : M (list EventData) :=
  try_finally
    (urls <- collect_event_urls fuel ;;
     let urls := limit_urls limit urls in
     st <- for_each urls (process_url fuel delay_ms)
             {| all_data := []; processed_events := processed |} ;;
     command EvSaveMaster (write_master (all_data st)) ;;;
     ret (all_data st))
    (command EvQuit quit).

End scraper.
(* ===================================================================== *)
(** ** Vocabulary of the statements *)
(* ===================================================================== *)

(** What a parser call may do to the store: it only adds list objects,
    and the record it returns, if any, refers to one of the new objects,
    which holds the caller's stack cut to the record's level. *)
Definition parser_post (h : Heap) (group_stack : loc) (index : nat)
    (h' : Heap) (o : option Segment) : Prop :=
  (exists extra, h' = h ++ extra) /\
  forall seg, o = Some seg ->
    (length h <= group_path seg < length h') /\
    Store.get h' (group_path seg) = take (level seg) (Store.get h group_stack) /\
    order_index seg = index.

(** A state of the loop is well formed when the stack is a list of the
    store and no record shares its [group_path] list with the stack. *)
Definition wf_state (st : FlattenState) : Prop :=
  fs_group_stack st < length (fs_heap st) /\
  Forall (fun s => group_path s < length (fs_heap st) /\ group_path s <> fs_group_stack st)
         (fs_segments st).

(** The record the parsers return for [row] in state [st], if any. *)
Definition parsed (st : FlattenState) (row : Row) : option Segment :=
  snd (_extract_segment_from_row row (fs_order_index st) (fs_group_stack st) (fs_heap st)).

(** The stack of a state, by content. *)
Definition stack_of (st : FlattenState) : list string :=
  Store.get (fs_heap st) (fs_group_stack st).

(** The text a parser reads the code from: the first cell when the row
    has cell elements, the row text otherwise. *)
Definition row_label (row : Row) : result string :=
  match first_nonempty (row_cells row) cell_selectors with
  | Raise e => Raise e
  | Ok [] => row_text row
  | Ok (cell :: _) => cell
  end.

(** A row with no code to parse: its label is blank or is nothing but
    one of the UI tokens. *)
Definition no_parseable_code (row : Row) : Prop :=
  exists text, row_label row = Ok text /\
    (PyStr.strip text = EmptyString \/ In (PyStr.strip text) ui_tokens).

(** ** Vocabulary of the statements about the browser *)

Section run_facts.
Context {World Elem : Type}.

Definition outcome_of {A : Type} (r : outcome A * World * list (Event Elem)) : outcome A :=
  fst (fst r).
Definition world_of {A : Type} (r : outcome A * World * list (Event Elem)) : World :=
  snd (fst r).
Definition trace_of {A : Type} (r : outcome A * World * list (Event Elem)) : list (Event Elem) :=
  snd r.

(** The number of events of a trace that satisfy [p]. *)
Definition count_events (p : Event Elem -> bool) (t : list (Event Elem)) : nat :=
  length (List.filter p t).

(** [m] never runs out of fuel. *)
Definition halts {A : Type} (m : @M World Elem A) : Prop :=
  forall w, outcome_of (m w) <> Diverge.

(** [m] always ends with a value: no exception leaves it. *)
Definition safe {A : Type} (m : @M World Elem A) : Prop :=
  forall w, exists a, outcome_of (m w) = Return a.

(** [m] issues at most [n] commands that satisfy [p]. *)
Definition at_most (p : Event Elem -> bool) (n : nat) {A : Type} (m : @M World Elem A) : Prop :=
  forall w, count_events p (trace_of (m w)) <= n.

Definition is_get (ev : Event Elem) : bool :=
  match ev with EvGet _ => true | _ => false end.

Definition is_set_scroll_top (ev : Event Elem) : bool :=
  match ev with EvScript (SetScrollTop _ _) => true | _ => false end.

(** A click of any of the three strategies. *)
Definition is_click (ev : Event Elem) : bool :=
  match ev with
  | EvClick _ | EvActionClick _ | EvScript (JsClick _) => true
  | _ => false
  end.

(** [m] never sets the scroll offset. *)
Definition still {A : Type} (m : @M World Elem A) : Prop := at_most is_set_scroll_top 0 m.

(** [p] holds of no command sent to the page: a script, a click or a
    sleep. *)
Definition ignores_page_commands (p : Event Elem -> bool) : Prop :=
  (forall s, p (EvScript s) = false) /\
  (forall e, p (EvClick e) = false) /\
  (forall e, p (EvActionClick e) = false) /\
  (forall ms, p (EvSleep ms) = false).

(** The scroll offsets a trace sets on the viewport, in order. *)
Definition scroll_offsets (t : list (Event Elem)) : list Z :=
  omap (fun ev => match ev with
                  | EvScript (SetScrollTop _ position) => Some position
                  | _ => None
                  end) t.

End run_facts.

(** The offsets 0, 250, 500, ..., at most 19 of them. *)
Definition half_viewport_offsets (offsets : list Z) : Prop :=
  exists n, n <= 19 /\ offsets = map (fun i => (250 * Z.of_nat i)%Z) (seq 0 n).

(** What one turn of the scan makes of the loop variables: the set of
    URLs only grows, the position moves on by one step, and the
    stagnation counter goes up by one when the turn added no URL and
    back to zero when it added one. *)
Definition turn_of (scroll_step : Z) (st st' : ScrollState) : Prop :=
  all_urls st ⊆ all_urls st' /\
  scroll_position st' = (scroll_position st + scroll_step)%Z /\
  no_new_urls_count st' =
    if bool_decide (all_urls st' = all_urls st) then no_new_urls_count st + 1 else 0.

(** [turns] are the states after each turn of a scan that starts in
    [st]: every turn is taken in a state whose position is not beyond
    the last one and whose counter is below 5. *)
Fixpoint scan_of (scroll_step max_position : Z) (st : ScrollState)
    (turns : list ScrollState) : Prop :=
  match turns with
  | [] => True
  | st' :: rest =>
      (scroll_position st <= max_position)%Z /\ no_new_urls_count st < 5 /\
      turn_of scroll_step st st' /\ scan_of scroll_step max_position st' rest
  end.

Section table_facts.
Context {World Elem : Type} {D : Driver World Elem}.

(** The table in the world [w] has nothing left to expand as far as
    the scraper can tell: no text shows [chevron_right], and every
    control the selectors find reports [aria-expanded="true"]. *)
Definition reports_expanded (table_element : Elem) (w : World) : Prop :=
  find_elements (Some table_element) ByXpath chevron_xpath w = Ok [] /\
  exists controls,
    first_nonempty (fun sel => find_elements (Some table_element) ByCss sel w)
                   expandable_selectors = Ok controls /\
    Forall (fun b => get_attribute b "aria-expanded" w = Ok (Some "true")) controls.

(** No query on the table raises, whatever the world. *)
Definition table_readable (table_element : Elem) : Prop :=
  forall by_ sel w, exists elements,
    find_elements (Some table_element) by_ sel w = Ok elements.

(** The row [r] is what the page shows of the element [e] in [w]: its
    text, its inline style, and for each selector the texts of the
    cells found in it. *)
Definition shows (w : World) (e : Elem) (r : Row) : Prop :=
  row_text r = elem_text e w /\
  row_style r = get_attribute e "style" w /\
  forall sel,
    row_cells r sel =
      match find_elements (Some e) ByCss sel w with
      | Raise x => Raise x
      | Ok cells => Ok (map (fun cell => elem_text cell w) cells)
      end.

(** [attempt] has timed out once for each wait of [waits], one after
    the other, and each time the caller has slept for that wait: the
    page after the last of these sleeps and the commands sent so far.
    [None] when some attempt did not time out. *)
Fixpoint timed_out {A : Type} (attempt : @M World Elem A) (waits : list Z) (w : World)
    : option (World * list (Event Elem)) :=
  match waits with
  | [] => Some (w, [])
  | ms :: rest =>
      match attempt w with
      | (Throw TimeoutException, w1, t1) =>
          match timed_out attempt rest (sleep ms w1) with
          | Some (w2, t2) => Some (w2, t1 ++ EvSleep ms :: t2)
          | None => None
          end
      | _ => None
      end
  end.

(** A sleep of [ms] milliseconds. *)
Definition is_sleep_of (ms : Z) (ev : Event Elem) : bool :=
  match ev with EvSleep n => Z.eqb n ms | _ => false end.

(** No element ever matches the link selector. *)
Definition no_link_matches : Prop :=
  forall w, find_elements None ByCss SEL_EVENT_LINKS w = Ok [].

End table_facts.

(** The event code [run] and [parse_event_page] derive from a URL
    (lines 708 and 851). *)
Definition code_of (url : string) : string :=
  PyStr.last_component (PyStr.rstrip_slash url).

(** ** Further vocabulary *)

Section more_run_facts.
Context {World Elem : Type}.

(** Every value [m] returns satisfies [P]. *)
Definition yields {A : Type} (P : A -> Prop) (m : @M World Elem A) : Prop :=
  forall w a, outcome_of (m w) = Return a -> P a.

(** Every command [m] issues satisfies [P]. *)
Definition emits_only (P : Event Elem -> Prop) {A : Type} (m : @M World Elem A) : Prop :=
  forall w, Forall P (trace_of (m w)).

(** A command sent to the page shown: a script, a click or a sleep. *)
Definition page_command (ev : Event Elem) : Prop :=
  match ev with
  | EvScript _ | EvClick _ | EvActionClick _ | EvSleep _ => True
  | _ => False
  end.

Definition is_window_scroll (ev : Event Elem) : bool :=
  match ev with EvScript WindowScrollToEnd => true | _ => false end.

Definition is_script_click (ev : Event Elem) : bool :=
  match ev with EvScript (JsClick _) => true | _ => false end.

(** A command [parse_event_page] may send for [url]: the load of that
    page, or a command to the page shown. *)
Definition parse_command (url : string) (ev : Event Elem) : Prop :=
  match ev with
  | EvGet u => u = url
  | EvScript _ | EvClick _ | EvActionClick _ | EvSleep _ => True
  | _ => False
  end.

(** The negation of [parse_command], as a test. *)
Definition not_parse_command (url : string) (ev : Event Elem) : bool :=
  match ev with
  | EvGet u => negb (String.eqb u url)
  | EvScript _ | EvClick _ | EvActionClick _ | EvSleep _ => false
  | _ => true
  end.

(** The negation of [page_command], as a test. *)
Definition not_page_command (ev : Event Elem) : bool :=
  match ev with
  | EvScript _ | EvClick _ | EvActionClick _ | EvSleep _ => false
  | _ => true
  end.

Definition is_quit (ev : Event Elem) : bool :=
  match ev with EvQuit => true | _ => false end.

Definition is_save (ev : Event Elem) : bool :=
  match ev with EvSave _ => true | _ => false end.

(** The two commands [close_cookie_banner] can send. *)
Definition banner_command (ev : Event Elem) : Prop :=
  match ev with
  | EvScript (JsClick _) => True
  | EvSleep ms => ms = 500%Z
  | _ => False
  end.

End more_run_facts.

(** A URL the scraper keeps: not the list page itself, whatever the
    number of slashes at its end, and under [/TriggerEvents/]. *)
Definition event_url (url : string) : Prop :=
  PyStr.rstrip_slash url <> BASE_URL /\ PyStr.contains "/TriggerEvents/" url = true.

(** A set of URLs the scraper keeps. *)
Definition all_event_urls (s : gset string) : Prop :=
  forall u, u ∈ s -> event_url u.

(** What [sorted] makes of a set of event URLs. *)
Definition sorted_event_urls (urls : list string) : Prop :=
  Sorted string_le urls /\ NoDup urls /\ Forall event_url urls.

(** The codes of the group headers among some records, in order. *)
Definition group_codes (segs : list Segment) : list string :=
  map segment_code (List.filter is_group segs).

Definition sd_group_codes (records : list SegmentData) : list string :=
  map sd_code (List.filter sd_is_group records).

(** In a state of the loop the stack and the path of every record list,
    in order, codes of group headers emitted before, and a path has at
    most as many entries as the level of its record. *)
Definition paths_of_groups (st : FlattenState) : Prop :=
  stack_of st `sublist_of` group_codes (fs_segments st) /\
  forall i s, fs_segments st !! i = Some s ->
    length (Store.get (fs_heap st) (group_path s)) <= level s /\
    Store.get (fs_heap st) (group_path s) `sublist_of` group_codes (take i (fs_segments st)).

Section harvest_vocabulary.
Context {World Elem : Type}.

(** The load of the page at [url]. *)
Definition is_get_of (url : string) (ev : Event Elem) : bool :=
  match ev with EvGet u => String.eqb u url | _ => false end.

(** The write of the file of the event [code]. *)
Definition is_save_of (code : string) (ev : Event Elem) : bool :=
  match ev with EvSave c => String.eqb c code | _ => false end.

(** The write of any file: an event file or the master file. *)
Definition is_write (ev : Event Elem) : bool :=
  match ev with EvSave _ | EvSaveMaster => true | _ => false end.

(** The load of a page that is neither the list page nor a URL the
    scraper keeps. *)
Definition is_stray_get (ev : Event Elem) : bool :=
  match ev with
  | EvGet u => negb (String.eqb u BASE_URL || valid_url (Some u))
  | _ => false
  end.

(** One of the two commands that end a run. *)
Definition is_final (ev : Event Elem) : bool :=
  match ev with EvSaveMaster | EvQuit => true | _ => false end.

(** 1 when [p] holds of [ev], else 0. *)
Definition cost (p : Event Elem -> bool) (ev : Event Elem) : nat :=
  if p ev then 1 else 0.

End harvest_vocabulary.

(** ** The fields of a record *)

Definition optionality_values : list string := ["R"; "O"; "C"; "-"].

Definition repeatability_values : list string := ["-"; infinity_sign; "*"; "inf"].

(** What every record of a pass looks like, whichever parser made it:
    a code that is neither empty nor a UI token; flags among the known
    values; the repeatability [inf] only on a header read from a row
    with a chevron, which is a required group described as
    [<code> group]; and any other group named in capitals, by more
    than three characters that do not start like MSH, PID or EVN. *)
Definition well_shaped (r : SegmentData) : Prop :=
  sd_code r <> EmptyString /\
  ~ In (sd_code r) ui_tokens /\
  In (sd_optionality r) optionality_values /\
  In (sd_repeatability r) repeatability_values /\
  (sd_repeatability r = "inf" ->
     sd_is_group r = true /\ sd_optionality r = "R" /\
     sd_desc r = sd_code r +:+ " group") /\
  (sd_is_group r = true ->
     sd_repeatability r = "inf" \/
     (PyStr.isupper (sd_code r) = true /\ 3 < String.length (sd_code r) /\
      PyStr.startswith_any cell_leaf_prefixes (sd_code r) = false)).

(* ===================================================================== *)
(** ** Rows used in the examples *)
(* ===================================================================== *)

Module Fixtures.

(** A [.flex-segment] row without cell elements: only its text and its
    inline style can be read. *)
Definition text_row (text : string) (padding_px : string) : Row :=
  {| row_cells := fun _ => Ok [];
     row_text := Ok text;
     row_style := Ok (Some ("padding-left: " +:+ padding_px +:+ "px;")) |}.

(** A row whose cells are found by the selector [td]. *)
Definition cell_row (cells : list string) : Row :=
  {| row_cells := fun sel => if String.eqb sel "td" then Ok (map Ok cells) else Ok [];
     row_text := Ok (fold_right (fun c acc => c +:+ " " +:+ acc) EmptyString cells);
     row_style := Ok None |}.

Definition nl : string := String PyStr.newline EmptyString.

(** [n] times the digit 9. *)
Fixpoint nines (n : nat) : string :=
  match n with
  | O => EmptyString
  | S n' => String "9" (nines n')
  end.

(** The expanded group PATIENT with one segment inside, then a segment
    back at the top level. *)
Definition patient_rows : list Row :=
  [ text_row ("expand_more" +:+ nl +:+ "PATIENT") "0";
    text_row ("PID" +:+ nl +:+ "- Patient identification") "16";
    text_row ("MSH" +:+ nl +:+ "- Message header") "0" ].

(** A three-level tree A > B > C followed by a top-level group D. *)
Definition abc_rows : list Row :=
  [ text_row ("expand_more" +:+ nl +:+ "AAAA") "0";
    text_row ("expand_more" +:+ nl +:+ "BBBB") "16";
    text_row ("expand_more" +:+ nl +:+ "CCCC") "32";
    text_row ("MSH" +:+ nl +:+ "- Message header") "0";
    text_row ("expand_more" +:+ nl +:+ "DDDD") "0" ].

(** The records the second row of [abc_rows] and the third row of
    [patient_rows] yield. *)
Definition bbbb_segment : Segment :=
  {| segment_code := "BBBB"; segment_desc := "BBBB group";
     optionality := "R"; repeatability := "inf"; is_group := true;
     group_path := 2; level := 1; order_index := 1 |}.

Definition msh_segment : Segment :=
  {| segment_code := "MSH"; segment_desc := "Message header";
     optionality := "R"; repeatability := "-"; is_group := false;
     group_path := 4; level := 0; order_index := 2 |}.

(** The rows of [patient_rows] followed by a segment at level 1 that
    no group header introduces. *)
Definition stale_rows : list Row :=
  patient_rows ++ [ text_row ("NK1" +:+ nl +:+ "- Next of kin") "16" ].

(** A single segment at level 1, under no group at all. *)
Definition orphan_row : Row := text_row ("PID" +:+ nl +:+ "- Patient identification") "16".

(** A collapsed group whose name is one character long. *)
Definition short_group_row : Row := text_row ("chevron_right" +:+ nl +:+ "A") "0".

(** A row that shows nothing but the collapse glyph. *)
Definition glyph_row : Row := text_row "chevron_right" "16".

End Fixtures.

(* ===================================================================== *)
(** ** A small site used in the examples *)
(* ===================================================================== *)

(** A site with a list of [ts_items] events, 250 pixels each, behind a
    viewport of 500 pixels that mounts only the items in view when the
    list is virtual; every event page shows one table with the rows
    [ts_rows] and, when [ts_button] says so, one button. *)
Module Toy.

Inductive elem : Type :=
| TLink (n : nat)
| TViewport
| TTable
| TButton
| TRow (n : nat).

Record site : Type := {
  ts_items : nat;
  ts_virtual : bool;
  (** the event codes whose table never mounts *)
  ts_no_table : list string;
  (** the table has a button, with this [aria-expanded] attribute *)
  ts_button : option (option string);
  (** clicks of any kind succeed *)
  ts_clickable : bool;
  (** text and left padding of the rows of every table *)
  ts_rows : list (string * string)
}.

Record world : Type := {
  tw_url : string;
  tw_scroll : Z;
  tw_clicks : nat
}.

Definition digit (n : nat) : string :=
  String (ascii_of_nat (48 + n mod 10)) EmptyString.

Definition item_code (n : nat) : string := "E" +:+ digit (n / 10) +:+ digit n.

Definition item_url (n : nat) : string := BASE_URL +:+ "/" +:+ item_code n.

(** The links mounted: all of them, or the two in view and the next. *)
Definition mounted (s : site) (w : world) : list elem :=
  if negb (String.eqb (tw_url w) BASE_URL) then []
  else if ts_virtual s then
    let first := Z.to_nat (tw_scroll w / 250) in
    map TLink (List.filter (fun n => n <? ts_items s) (seq first 3))
  else map TLink (seq 0 (ts_items s)).

Definition on_event_page (s : site) (w : world) : bool :=
  PyStr.startswith (BASE_URL +:+ "/") (tw_url w)
  && negb (PyStr.mem (PyStr.last_component (PyStr.rstrip_slash (tw_url w))) (ts_no_table s)).

Definition toy_find (s : site) (scope : option elem) (by_ : By) (sel : string) (w : world)
    : result (list elem) :=
  match scope, by_ with
  | None, ByCss =>
      if String.eqb sel SEL_EVENT_LINKS then Ok (mounted s w)
      else if String.eqb sel ".cdk-virtual-scroll-viewport"
      then Ok (if ts_virtual s && String.eqb (tw_url w) BASE_URL then [TViewport] else [])
      else if String.eqb sel SEL_TABLE
      then Ok (if on_event_page s w then [TTable] else [])
      else Ok []
  | Some TTable, ByCss =>
      if String.eqb sel "button"
      then Ok (match ts_button s with Some _ => [TButton] | None => [] end)
      else if String.eqb sel ".flex-segment"
      then Ok (map TRow (seq 0 (length (ts_rows s))))
      else Ok []
  | _, _ => Ok []
  end.

Definition toy_attribute (s : site) (e : elem) (name : string) (w : world)
    : result (option string) :=
  match e with
  | TLink n => Ok (if String.eqb name "href" then Some (item_url n) else None)
  | TButton =>
      Ok (if String.eqb name "aria-expanded"
          then match ts_button s with Some aria => aria | None => None end
          else None)
  | TRow n =>
      Ok (if String.eqb name "style"
          then match ts_rows s !! n with
               | Some (_, padding) => Some ("padding-left: " +:+ padding +:+ "px;")
               | None => None
               end
          else None)
  | _ => Ok None
  end.

Definition toy_text (s : site) (e : elem) (w : world) : result string :=
  match e with
  | TRow n => Ok (match ts_rows s !! n with Some (text, _) => text | None => EmptyString end)
  | TButton => Ok "expand_more"
  | _ => Ok EmptyString
  end.

Definition toy_click (s : site) (w : world) : result unit * world :=
  if ts_clickable s
  then (Ok tt, {| tw_url := tw_url w; tw_scroll := tw_scroll w; tw_clicks := tw_clicks w + 1 |})
  else (Raise WebDriverException, w).

Definition toy_script (s : site) (sc : Script elem) (w : world) : result unit * world :=
  match sc with
  | SetScrollTop _ position =>
      (Ok tt, {| tw_url := tw_url w; tw_scroll := position; tw_clicks := tw_clicks w |})
  | ScrollToEnd _ =>
      (Ok tt, {| tw_url := tw_url w;
                 tw_scroll := Z.max 0 (250 * Z.of_nat (ts_items s) - 500);
                 tw_clicks := tw_clicks w |})
  | WindowScrollToEnd => (Ok tt, w)
  | ScrollIntoView _ => (Ok tt, w)
  | JsClick _ => toy_click s w
  end.

Definition toy_measure (s : site) (m : Measure elem) (w : world) : result Z :=
  match m with
  | ScrollHeightOf _ => Ok (250 * Z.of_nat (ts_items s))%Z
  | ClientHeightOf _ => Ok 500%Z
  | BodyScrollHeight => Ok (250 * Z.of_nat (ts_items s))%Z
  end.

Definition toy_meta : PageMeta :=
  {| pm_name := "Admit"; pm_version := "HL7 v2.3";
     pm_chapter := "Patient Administration"; pm_description := EmptyString |}.

Definition driver (s : site) : Driver world elem :=
  {| find_elements := toy_find s;
     get_attribute := toy_attribute s;
     elem_text := toy_text s;
     measure := toy_measure s;
     page_metadata := fun _ => Ok toy_meta;
     jitter := fun _ => 0%Z;
     get := fun url w => (Ok tt, {| tw_url := url; tw_scroll := 0; tw_clicks := tw_clicks w |});
     execute_script := toy_script s;
     click := fun _ => toy_click s;
     action_click := fun _ => toy_click s;
     sleep := fun _ w => w;
     write_event := fun _ w => (Ok tt, w);
     write_master := fun _ w => (Ok tt, w);
     quit := fun w => (Ok tt, w) |}.




Definition start : world := {| tw_url := EmptyString; tw_scroll := 0; tw_clicks := 0 |}.

Definition segment_rows : list (string * string) :=
  [ ("MSH" +:+ Fixtures.nl +:+ "- Message header", "0");
    ("expand_more" +:+ Fixtures.nl +:+ "PATIENT", "0");
    ("PID" +:+ Fixtures.nl +:+ "- Patient identification", "16") ].

(** No event at all: no link ever matches. *)
Definition empty_site : site :=
  {| ts_items := 0; ts_virtual := true; ts_no_table := [];
     ts_button := None; ts_clickable := true; ts_rows := segment_rows |}.

(** Twenty events behind a virtual viewport: [scrollHeight] 5000,
    [clientHeight] 500. *)
Definition virtual_site : site :=
  {| ts_items := 20; ts_virtual := true; ts_no_table := [];
     ts_button := None; ts_clickable := true; ts_rows := segment_rows |}.

(** Three events; the table of the second one never mounts. *)
Definition flaky_site : site :=
  {| ts_items := 3; ts_virtual := true; ts_no_table := ["E01"];
     ts_button := None; ts_clickable := true; ts_rows := segment_rows |}.

(** A fully expanded table whose toggle button has no [aria-expanded]
    attribute. *)
Definition toggle_site : site :=
  {| ts_items := 1; ts_virtual := true; ts_no_table := [];
     ts_button := Some None; ts_clickable := true; ts_rows := segment_rows |}.

(** The same table with a button that reports [aria-expanded="true"]. *)
Definition settled_site : site :=
  {| ts_items := 1; ts_virtual := true; ts_no_table := [];
     ts_button := Some (Some "true"); ts_clickable := true; ts_rows := segment_rows |}.

(** The same table with a button that cannot be clicked at all. *)
Definition stuck_site : site :=
  {| ts_items := 1; ts_virtual := true; ts_no_table := [];
     ts_button := Some (Some "false"); ts_clickable := false; ts_rows := segment_rows |}.

(** Three events on a page without a virtual viewport. *)
Definition plain_site : site :=
  {| ts_items := 3; ts_virtual := false; ts_no_table := [];
     ts_button := None; ts_clickable := true; ts_rows := segment_rows |}.

Definition on_event (n : nat) : world :=
  {| tw_url := item_url n; tw_scroll := 0; tw_clicks := 0 |}.

End Toy.
(* ===================================================================== *)
(** * Properties *)
(* ===================================================================== *)

(** ** The definitions at work *)

Example strip_spaces : PyStr.strip "  MSH - Message header  " = "MSH - Message header".
Proof. reflexivity. Qed.

Example split_first_separator :
  PyStr.split_once " - " "MSH - Message - header" = Some ("MSH", "Message - header").
Proof. reflexivity. Qed.

Example split_two_lines :
  PyStr.split_lines ("a" +:+ Fixtures.nl +:+ "b" +:+ Fixtures.nl) = ["a"; "b"; ""].
Proof. reflexivity. Qed.

Example isupper_cases :
  PyStr.isupper "PV1_2" = true /\ PyStr.isupper "123" = false /\ PyStr.isupper "Pid" = false.
Proof. repeat split. Qed.

Example event_code_of_url :
  PyStr.last_component (PyStr.rstrip_slash "https://x/v2/HL7v2.3/TriggerEvents/ADT_A01/")
  = "ADT_A01".
Proof. reflexivity. Qed.

Example padding_levels :
  padding_level (Some "color: red; padding-left:  48px") = Some 3 /\
  padding_level (Some "padding-left:px; padding-left:33px") = Some 2 /\
  padding_level (Some "margin: 0") = Some 0 /\
  padding_level None = Some 0.
Proof. repeat split. Qed.

(** A table without groups: every record at level 0 with an empty path. *)
Example flat_table :
  map (fun r => (sd_code r, sd_level r, sd_group_path r, sd_order_index r))
    (emitted (flatten [ Fixtures.cell_row ["MSH - Message header"; "R"; "-"];
                        Fixtures.cell_row ["PID - Patient identification"; "O"; "*"] ]))
  = [ ("MSH", 0, [], 0); ("PID", 0, [], 1) ].
Proof. vm_compute. reflexivity. Qed.

(** The tree A > B > C: the row at level 2 has the path [A, B], and
    after a row back at level 0 the next group has an empty path. *)
Example three_level_tree :
  map (fun r => (sd_code r, sd_level r, sd_group_path r))
    (emitted (flatten Fixtures.abc_rows))
  = [ ("AAAA", 0, []); ("BBBB", 1, ["AAAA"]); ("CCCC", 2, ["AAAA"; "BBBB"]);
      ("MSH", 0, []); ("DDDD", 0, []) ].
Proof. vm_compute. reflexivity. Qed.

(** Twenty events behind a viewport of 500 pixels in a list of 5000:
    all twenty URLs are found. *)
Example twenty_virtual_items :
  match outcome_of (collect_event_urls (D := Toy.driver Toy.virtual_site) 19 Toy.start) with
  | Return urls => urls = map Toy.item_url (seq 0 20)
  | _ => False
  end.
Proof. vm_compute. reflexivity. Qed.

(** ** The store *)

Section store_facts.
Implicit Types (h : Heap) (l : loc) (v : list string).

Lemma get_app_l h extra l : l < length h -> Store.get (h ++ extra) l = Store.get h l.
Proof. intros Hl. unfold Store.get. by rewrite lookup_total_app_l. Qed.

Lemma get_alloc h v : Store.get (h ++ [v]) (length h) = v.
Proof.
  unfold Store.get. rewrite lookup_total_app_r by lia.
  by rewrite Nat.sub_diag.
Qed.

Lemma get_alloc_at h v l : l = length h -> Store.get (h ++ [v]) l = v.
Proof. intros ->. apply get_alloc. Qed.

Lemma get_append_eq h l x :
  l < length h -> Store.get (Store.append l x h) l = Store.get h l ++ [x].
Proof. intros Hl. unfold Store.append, Store.get. by rewrite list_lookup_total_insert_eq. Qed.

Lemma get_append_ne h l l' x :
  l <> l' -> Store.get (Store.append l x h) l' = Store.get h l'.
Proof. intros Hne. unfold Store.append, Store.get. by rewrite list_lookup_total_insert_ne. Qed.

Lemma length_append h l x : length (Store.append l x h) = length h.
Proof. unfold Store.append. by rewrite length_insert. Qed.

End store_facts.

(** ** What the parsers do to the store *)

Lemma parser_post_none h gs i : parser_post h gs i h None.
Proof. split; [exists []; by rewrite app_nil_r | done]. Qed.

Lemma detect_spec row gs h lvl l h' :
  _detect_hierarchy_level row gs h = (lvl, l, h') ->
  gs < length h ->
  (exists extra, h' = h ++ extra) /\ l < length h' /\
  Store.get h' l = take lvl (Store.get h gs) /\
  (l = gs \/ length h <= l).
Proof.
  unfold _detect_hierarchy_level. intros Heq Hgs.
  destruct (row_style row) as [style|e]; [destruct (padding_level style) as [n|]|].
  - destruct (n <? length (Store.get h gs)) eqn:Hlt.
    + unfold Store.slice, Store.alloc in Heq. injection Heq as <- <- <-.
      split; [eauto|]. rewrite length_app. simpl. split; [lia|].
      split; [|right; lia]. by rewrite get_alloc.
    + injection Heq as <- <- <-. apply Nat.ltb_ge in Hlt.
      split; [exists []; by rewrite app_nil_r|]. split; [done|].
      split; [by rewrite take_ge | by left].
  - injection Heq as <- <- <-.
    split; [exists []; by rewrite app_nil_r|]. split; [done|].
    split; [by rewrite take_ge | by left].
  - injection Heq as <- <- <-.
    split; [exists []; by rewrite app_nil_r|]. split; [done|].
    split; [by rewrite take_ge | by left].
Qed.

Lemma copy_after_detect h gs lvl l h1 :
  (exists extra, h1 = h ++ extra) -> l < length h1 ->
  Store.get h1 l = take lvl (Store.get h gs) ->
  forall path h2 seg i,
    Store.copy l h1 = (path, h2) ->
    group_path seg = path -> level seg = lvl -> order_index seg = i ->
    parser_post h gs i h2 (Some seg).
Proof.
  intros [extra ->] Hl Hget path h2 seg i Hcopy Hp Hlvl Hi.
  unfold Store.copy, Store.alloc in Hcopy. injection Hcopy as <- <-.
  split.
  - exists (extra ++ [Store.get (h ++ extra) l]). by rewrite app_assoc.
  - intros seg' [= <-]. rewrite Hp, Hlvl, get_alloc, !length_app. simpl.
    split; [lia|]. split; [done|done].
Qed.

Lemma parse_row_text_spec row i gs h h' o :
  _parse_row_text row i gs h = (h', o) -> gs < length h -> parser_post h gs i h' o.
Proof.
  unfold _parse_row_text. intros Heq Hgs.
  destruct (row_text row) as [text|e]; [|injection Heq as <- <-; apply parser_post_none].
  destruct (negb (PyStr.truthy (PyStr.strip text)));
    [injection Heq as <- <-; apply parser_post_none|].
  destruct (_detect_hierarchy_level row gs h) as [[lvl l] h1] eqn:Hdet.
  destruct (detect_spec _ _ _ _ _ _ Hdet Hgs) as (Hext & Hl & Hget & _).
  assert (Hnone : parser_post h gs i h1 None).
  { split; [done|done]. }
  destruct (_ || _).
  { destruct (first_group_line _) as [code|]; [|injection Heq as <- <-; done].
    destruct (Store.copy l h1) as [path h2] eqn:Hcopy. injection Heq as <- <-.
    by eapply copy_after_detect. }
  destruct (PyStr.mem _ _); [injection Heq as <- <-; done|].
  destruct (PyStr.split_lines _) as [|line0 more]; [injection Heq as <- <-; done|].
  destruct (negb (PyStr.truthy (PyStr.strip line0))); [injection Heq as <- <-; done|].
  destruct (if _ && _ then _ else _) as [seg_code seg_desc].
  destruct (_ || _); [injection Heq as <- <-; done|].
  destruct (scan_flags _ _ _) as [opt rep].
  destruct (Store.copy l h1) as [path h2] eqn:Hcopy. injection Heq as <- <-.
  by eapply copy_after_detect.
Qed.

Lemma extract_spec row i gs h h' o :
  _extract_segment_from_row row i gs h = (h', o) -> gs < length h -> parser_post h gs i h' o.
Proof.
  unfold _extract_segment_from_row. intros Heq Hgs.
  destruct (first_nonempty _ _) as [[|c cells]|e].
  - by eapply parse_row_text_spec.
  - destruct (cells_loop _ _ _) as [v|]; [|injection Heq as <- <-; apply parser_post_none].
    destruct (_ || _); [injection Heq as <- <-; apply parser_post_none|].
    destruct (Store.copy gs h) as [path h2] eqn:Hcopy. injection Heq as <- <-.
    eapply (copy_after_detect h gs (length (Store.get h gs)) gs h); eauto.
    + exists []. by rewrite app_nil_r.
    + by rewrite take_ge.
  - injection Heq as <- <-. apply parser_post_none.
Qed.

(** ** One turn of the loop *)

Lemma parsed_eq st row :
  _extract_segment_from_row row (fs_order_index st) (fs_group_stack st) (fs_heap st)
  = (fst (_extract_segment_from_row row (fs_order_index st) (fs_group_stack st) (fs_heap st)),
     parsed st row).
Proof. unfold parsed. by destruct (_extract_segment_from_row _ _ _ _). Qed.

Ltac fs_simpl :=
  unfold wf_state, Store.slice, Store.alloc;
  cbn [fs_heap fs_segments fs_order_index fs_group_stack fst snd] in *.

Lemma flatten_row_spec st row :
  wf_state st ->
  let st' := flatten_row st row in
  wf_state st' /\
  length (fs_heap st) <= length (fs_heap st') /\
  (forall l, l < length (fs_heap st) -> l <> fs_group_stack st ->
             Store.get (fs_heap st') l = Store.get (fs_heap st) l) /\
  match parsed st row with
  | None =>
      fs_segments st' = fs_segments st /\
      fs_order_index st' = fs_order_index st /\
      fs_group_stack st' = fs_group_stack st /\
      (exists extra, fs_heap st' = fs_heap st ++ extra)
  | Some seg =>
      fs_segments st' = fs_segments st ++ [seg] /\
      fs_order_index st' = fs_order_index st + 1 /\
      order_index seg = fs_order_index st /\
      Store.get (fs_heap st') (group_path seg) = take (level seg) (stack_of st) /\
      stack_of st' =
        if is_group seg then take (level seg) (stack_of st) ++ [segment_code seg]
        else stack_of st
  end.
Proof.
  intros [Hgs Hsegs]. unfold flatten_row, stack_of. rewrite parsed_eq.
  pose proof (extract_spec row (fs_order_index st) (fs_group_stack st) (fs_heap st)
                _ _ (parsed_eq st row) Hgs) as [[extra Hext] Hseg].
  destruct st as [h segs idx gs]; fs_simpl.
  set (h1 := fst (_extract_segment_from_row row idx gs h)) in *.
  clearbody h1. subst h1.
  assert (Hold : Forall (fun s => group_path s < length (h ++ extra) /\ group_path s <> gs) segs).
  { eapply Forall_impl; [exact Hsegs|]. intros s [? ?]. rewrite length_app. split; [lia|done]. }
  destruct (parsed _ row) as [seg|].
  - destruct (Hseg seg eq_refl) as ([Hlo Hhi] & Hpath & Hidx).
    rewrite ?length_app in Hhi.
    assert (Hne : group_path seg <> gs) by lia.
    destruct (is_group seg).
    + destruct (level seg <? length (Store.get (h ++ extra) gs)) eqn:Hlt; fs_simpl.
      * rewrite length_append, !length_app. simpl.
        split; [split; [lia|]|split; [lia|split]].
        -- apply Forall_app. split.
           ++ eapply Forall_impl; [exact Hold|]. intros s [Hs ?].
              rewrite ?length_app in Hs. split; lia.
           ++ apply Forall_singleton. split; lia.
        -- intros l Hl Hlgs. rewrite get_append_ne by (rewrite ?length_app; simpl; lia).
           rewrite get_app_l by (rewrite ?length_app; simpl; lia). by rewrite get_app_l.
        -- split; [done|]. split; [done|]. split; [done|].
           rewrite get_append_ne by (rewrite ?length_app; simpl; lia).
           rewrite get_app_l by (rewrite ?length_app; simpl; lia).
           split; [done|].
           rewrite get_append_eq by (rewrite ?length_app; simpl; lia).
           rewrite get_alloc_at by (rewrite ?length_app; lia). by rewrite get_app_l.
      * apply Nat.ltb_ge in Hlt. rewrite get_app_l in Hlt by done.
        rewrite length_append, !length_app.
        split; [split; [lia|]|split; [lia|split]].
        -- apply Forall_app. split.
           ++ eapply Forall_impl; [exact Hold|]. intros s [Hs ?].
              rewrite ?length_app in Hs. split; lia.
           ++ apply Forall_singleton. split; [lia|done].
        -- intros l Hl Hlgs. rewrite get_append_ne by done. by rewrite get_app_l.
        -- split; [done|]. split; [done|]. split; [done|].
           rewrite get_append_ne by done. split; [done|].
           rewrite get_append_eq by (rewrite ?length_app; simpl; lia).
           rewrite get_app_l by done. by rewrite take_ge.
    + fs_simpl. rewrite !length_app.
      split; [split; [lia|]|split; [lia|split]].
      * apply Forall_app. split.
        -- eapply Forall_impl; [exact Hold|]. intros s [Hs ?].
           rewrite ?length_app in Hs. split; lia.
        -- apply Forall_singleton. split; [lia|done].
      * intros l Hl Hlgs. by rewrite get_app_l.
      * split; [done|]. split; [done|]. split; [done|]. split; [done|].
        by rewrite get_app_l.
  - fs_simpl. rewrite !length_app.
    split; [split; [lia|]|split; [lia|split]].
    + eapply Forall_impl; [exact Hold|]. intros s [Hs ?].
      rewrite ?length_app in Hs. split; lia.
    + intros l Hl Hlgs. by rewrite get_app_l.
    + split; [done|]. split; [done|]. split; [done|]. eauto.
Qed.

Lemma wf_flatten_init : wf_state flatten_init.
Proof. split; simpl; [lia|constructor]. Qed.

Lemma wf_flatten_from st rows : wf_state st -> wf_state (flatten_from st rows).
Proof.
  revert st. induction rows as [|row rows IH]; intros st Hwf; [done|].
  simpl. apply IH. by apply flatten_row_spec.
Qed.

Lemma flatten_app pre post : flatten (pre ++ post) = flatten_from (flatten pre) post.
Proof. unfold flatten, flatten_from. by rewrite fold_left_app. Qed.

Lemma flatten_snoc pre row : flatten (pre ++ [row]) = flatten_row (flatten pre) row.
Proof. by rewrite flatten_app. Qed.

Lemma wf_flatten rows : wf_state (flatten rows).
Proof. apply wf_flatten_from, wf_flatten_init. Qed.

Lemma flatten_row_stack_loc st row :
  wf_state st ->
  fs_group_stack (flatten_row st row) = fs_group_stack st \/
  length (fs_heap st) <= fs_group_stack (flatten_row st row).
Proof.
  intros [Hgs _]. unfold flatten_row. rewrite parsed_eq.
  pose proof (extract_spec row (fs_order_index st) (fs_group_stack st) (fs_heap st)
                _ _ (parsed_eq st row) Hgs) as [[extra Hext] _].
  rewrite Hext.
  destruct (parsed st row) as [seg|]; [|by left].
  destruct (is_group seg); [|by left].
  destruct (level seg <? _); fs_simpl; [right|by left].
  rewrite length_app. lia.
Qed.

Lemma flatten_from_segments_prefix post st s :
  In s (fs_segments st) -> In s (fs_segments (flatten_from st post)).
Proof.
  revert st. induction post as [|row post IH]; intros st Hin; [done|].
  simpl. apply IH. unfold flatten_row.
  destruct (_extract_segment_from_row _ _ _ _) as [h [seg|]]; [|done].
  destruct (is_group seg).
  - destruct (if _ <? _ then _ else _). simpl. apply in_or_app. by left.
  - simpl. apply in_or_app. by left.
Qed.

Lemma group_path_facts pre row seg :
  parsed (flatten pre) row = Some seg ->
  Store.get (fs_heap (flatten (pre ++ [row]))) (group_path seg)
  = take (level seg) (stack_of (flatten pre)) /\
  stack_of (flatten (pre ++ [row])) =
    (if is_group seg then take (level seg) (stack_of (flatten pre)) ++ [segment_code seg]
     else stack_of (flatten pre)).
Proof.
  intros Hparsed. rewrite flatten_snoc.
  destruct (flatten_row_spec (flatten pre) row (wf_flatten pre)) as (_ & _ & _ & Hstep).
  rewrite Hparsed in Hstep. by destruct Hstep as (_ & _ & _ & Hpath & Hstack).
Qed.

Lemma first_group_line_ok lines code :
  first_group_line lines = Some code ->
  PyStr.truthy code = true /\ PyStr.mem code ui_tokens = false.
Proof.
  induction lines as [|line rest IH]; [done|].
  cbn [first_group_line].
  destruct (PyStr.truthy (PyStr.strip line)) eqn:Ht; [|exact IH].
  destruct (PyStr.mem (PyStr.strip line) ui_tokens) eqn:Hm; [exact IH|].
  cbn [andb negb]. by intros [= <-].
Qed.

(** ** Order indices *)

Lemma flatten_index_inv rows :
  fs_order_index (flatten rows) = length (fs_segments (flatten rows)) /\
  map order_index (fs_segments (flatten rows)) = seq 0 (length (fs_segments (flatten rows))).
Proof.
  induction rows as [|row pre IH] using rev_ind; [done|].
  rewrite flatten_snoc.
  destruct (flatten_row_spec (flatten pre) row (wf_flatten pre)) as (_ & _ & _ & Hstep).
  destruct IH as [Hidx Hmap].
  destruct (parsed (flatten pre) row) as [seg|].
  - destruct Hstep as (-> & -> & Hseg & _).
    rewrite length_app, map_app, seq_app, Hmap, Hidx. simpl.
    split; [done|]. by rewrite Hseg, Hidx.
  - destruct Hstep as (-> & -> & _). done.
Qed.

Lemma fallback_lines_index lines i :
  map sd_order_index (fallback_lines lines i) = seq i (length (fallback_lines lines i)).
Proof.
  revert i. induction lines as [|line rest IH]; intros i; [done|].
  cbn [fallback_lines]. case_match; [apply IH|].
  case_match; [apply IH|].
  cbn [map length sd_order_index seq]. rewrite IH. by rewrite Nat.add_1_r.
Qed.

Lemma emitted_order_index st :
  map sd_order_index (emitted st) = map order_index (fs_segments st).
Proof. unfold emitted. rewrite map_map. done. Qed.

Lemma length_emitted st : length (emitted st) = length (fs_segments st).
Proof. unfold emitted. by rewrite length_map. Qed.

(** C4.  The order indices of the records of one pass are exactly
    0, 1, ..., k-1 in the order of emission, on the row path and on the
    text fallback alike; a row appends at most one record, at the end,
    numbered by the count of records before it; a row that yields no
    record leaves the records and the counter as they were. *)
Theorem order_index_exact :
  (forall (table_rows : string -> result (list Row)) (table_text : result string),
     map sd_order_index (extract_segments table_rows table_text)
     = seq 0 (length (extract_segments table_rows table_text))) /\
  (forall (pre : list Row) (row : Row),
     match parsed (flatten pre) row with
     | Some seg =>
         fs_segments (flatten (pre ++ [row])) = fs_segments (flatten pre) ++ [seg] /\
         order_index seg = length (fs_segments (flatten pre))
     | None =>
         fs_segments (flatten (pre ++ [row])) = fs_segments (flatten pre) /\
         fs_order_index (flatten (pre ++ [row])) = fs_order_index (flatten pre)
     end).
Proof.
  split.
  - intros table_rows table_text. unfold extract_segments.
    destruct (first_nonempty table_rows row_selectors) as [[|r rows]|e]; [| |done].
    + unfold _parse_table_text_fallback. destruct table_text; [|done].
      apply fallback_lines_index.
    + rewrite emitted_order_index, length_emitted. apply flatten_index_inv.
  - intros pre row. rewrite flatten_snoc.
    destruct (flatten_row_spec (flatten pre) row (wf_flatten pre)) as (_ & _ & _ & Hstep).
    destruct (parsed (flatten pre) row) as [seg|].
    + destruct Hstep as (-> & _ & Hseg & _). split; [done|].
      rewrite Hseg. apply flatten_index_inv.
    + destruct Hstep as (-> & -> & _). done.
Qed.

(** ** Group paths are snapshots *)

Lemma flatten_from_frame post st l :
  wf_state st -> l < length (fs_heap st) -> l <> fs_group_stack st ->
  Store.get (fs_heap (flatten_from st post)) l = Store.get (fs_heap st) l /\
  l <> fs_group_stack (flatten_from st post).
Proof.
  revert st. induction post as [|row post IH]; intros st Hwf Hl Hne; [done|].
  simpl. fold (flatten_from (flatten_row st row) post).
  destruct (flatten_row_spec st row Hwf) as (Hwf' & Hlen & Hframe & Hstep).
  assert (Hne' : l <> fs_group_stack (flatten_row st row)).
  { pose proof (flatten_row_stack_loc st row Hwf) as [->|Hfresh]; [done|lia]. }
  destruct (IH (flatten_row st row) Hwf' ltac:(lia) Hne') as [-> ?].
  split; [by apply Hframe|done].
Qed.

(** C5.  When a row yields a record, the record's [group_path] holds the
    stack as it was before the row, cut to the record's level; a group
    header is pushed after that, so the stack then is the header's path
    followed by the header's code; and whatever rows come later, the
    path read at the end of the pass is still that same list. *)
Theorem group_path_is_snapshot (pre post : list Row) (row : Row) (seg : Segment) :
  parsed (flatten pre) row = Some seg ->
  let path_at_emission := take (level seg) (stack_of (flatten pre)) in
  Store.get (fs_heap (flatten (pre ++ [row]))) (group_path seg) = path_at_emission /\
  stack_of (flatten (pre ++ [row])) =
    (if is_group seg then path_at_emission ++ [segment_code seg]
     else stack_of (flatten pre)) /\
  In seg (fs_segments (flatten (pre ++ row :: post))) /\
  Store.get (fs_heap (flatten (pre ++ row :: post))) (group_path seg) = path_at_emission.
Proof.
  intros Hparsed. simpl.
  replace (pre ++ row :: post) with ((pre ++ [row]) ++ post) by by rewrite <- app_assoc.
  rewrite (flatten_app (pre ++ [row]) post), flatten_snoc.
  destruct (flatten_row_spec (flatten pre) row (wf_flatten pre)) as (Hwf & _ & _ & Hstep).
  rewrite Hparsed in Hstep. destruct Hstep as (Hsegs & _ & _ & Hpath & Hstack).
  split; [done|]. split; [done|].
  destruct Hwf as [Hgs Hall]. rewrite Hsegs in Hall.
  apply Forall_app in Hall as [_ Hseg]. apply Forall_singleton in Hseg as [Hlt Hne].
  split.
  - apply (flatten_from_segments_prefix post (flatten_row (flatten pre) row)).
    rewrite Hsegs. apply in_or_app. right. by left.
  - rewrite <- Hpath.
    apply flatten_from_frame; [|done|done].
    rewrite <- flatten_snoc. apply wf_flatten.
Qed.

(** Witness of [group_path_is_snapshot]: the group BBBB of the tree
    A > B > C, whose path is still [AAAA] at the end of the pass. *)
Lemma group_path_is_snapshot_witness :
  parsed (flatten (take 1 Fixtures.abc_rows))
         (Fixtures.text_row ("expand_more" +:+ Fixtures.nl +:+ "BBBB") "16")
  = Some Fixtures.bbbb_segment /\
  Store.get (fs_heap (flatten Fixtures.abc_rows)) (group_path Fixtures.bbbb_segment) = ["AAAA"].
Proof.
  split; [vm_compute; reflexivity|].
  exact (proj2 (proj2 (proj2
    (group_path_is_snapshot (take 1 Fixtures.abc_rows) (drop 2 Fixtures.abc_rows)
       (Fixtures.text_row ("expand_more" +:+ Fixtures.nl +:+ "BBBB") "16")
       Fixtures.bbbb_segment eq_refl)))).
Defined.

(** ** The stack and the nesting level *)

(** C2, as stated, fails.  In [patient_rows] the third row is a segment
    back at level 0 while the stack holds PATIENT: its record is
    emitted, and the stack of the loop still holds PATIENT afterwards,
    one entry for a row at level 0.  The stale entry shows in the
    output when a row at level 1 follows without a group header: its
    path is [PATIENT].  And the path of a record is shorter than its
    level when the level is above the stack length. *)
Lemma stack_not_cut_at_leaf_row :
  let pre := take 2 Fixtures.patient_rows in
  let row := Fixtures.text_row ("MSH" +:+ Fixtures.nl +:+ "- Message header") "0" in
  Fixtures.patient_rows = pre ++ [row] /\
  parsed (flatten pre) row = Some Fixtures.msh_segment /\
  level Fixtures.msh_segment = 0 /\
  stack_of (flatten pre) = ["PATIENT"] /\
  stack_of (flatten (pre ++ [row])) = ["PATIENT"] /\
  length (stack_of (flatten (pre ++ [row]))) <> level Fixtures.msh_segment /\
  map (fun r => (sd_code r, sd_level r, sd_group_path r))
    (emitted (flatten Fixtures.stale_rows))
  = [ ("PATIENT", 0, []); ("PID", 1, ["PATIENT"]); ("MSH", 0, []); ("NK1", 1, ["PATIENT"]) ] /\
  map (fun r => (sd_code r, sd_level r, sd_group_path r))
    (emitted (flatten [Fixtures.orphan_row]))
  = [ ("PID", 1, []) ].
Proof. vm_compute. repeat split; congruence. Qed.

Lemma parsed_level pre row seg :
  parsed (flatten pre) row = Some seg ->
  match first_nonempty (row_cells row) cell_selectors, row_style row with
  | Ok [], Ok style =>
      level seg = default (length (stack_of (flatten pre))) (padding_level style)
  | _, _ => level seg = length (stack_of (flatten pre))
  end.
Proof.
  unfold parsed, stack_of, _extract_segment_from_row.
  set (st := flatten pre). clearbody st.
  destruct (first_nonempty _ _) as [[|c cells]|e]; [| |done].
  - unfold _parse_row_text, _detect_hierarchy_level.
    destruct (row_text row) as [text|]; [|done].
    destruct (negb _); [done|].
    destruct (row_style row) as [style|e]; [destruct (padding_level style) as [n|]|].
    + cbn [default]. destruct (n <? _).
      * unfold Store.slice, Store.alloc, Store.copy.
        repeat case_match; simpl; intros; simplify_eq; done.
      * unfold Store.copy, Store.alloc.
        repeat case_match; simpl; intros; simplify_eq; done.
    + cbn [default]. unfold Store.copy, Store.alloc.
      repeat case_match; simpl; intros; simplify_eq; done.
    + unfold Store.copy, Store.alloc.
      repeat case_match; simpl; intros; simplify_eq; done.
  - unfold Store.copy, Store.alloc.
    repeat case_match; simpl; intros; simplify_eq; done.
Qed.

(** C2, amended.  The record of a row carries the stack cut to at most
    the row's level, so exactly [level] entries when the level is below
    the stack length; the stack of the loop itself is cut and extended
    only at a group header, where it becomes the header's path followed
    by its code, and is left as it is by any other row.  The level is
    the left padding divided by 16 for a row parsed from its text, and
    the stack length for a row parsed from its cells, as well as for a
    row whose style cannot be read or whose padding has more digits
    than [int] converts. *)
Theorem group_path_cut_to_level (pre : list Row) (row : Row) (seg : Segment) :
  parsed (flatten pre) row = Some seg ->
  let stack := stack_of (flatten pre) in
  let path := Store.get (fs_heap (flatten (pre ++ [row]))) (group_path seg) in
  path = take (level seg) stack /\
  length path = Nat.min (level seg) (length stack) /\
  stack_of (flatten (pre ++ [row])) =
    (if is_group seg then path ++ [segment_code seg] else stack) /\
  match first_nonempty (row_cells row) cell_selectors, row_style row with
  | Ok [], Ok style => level seg = default (length stack) (padding_level style)
  | _, _ => level seg = length stack
  end.
Proof.
  intros Hparsed. simpl.
  destruct (group_path_facts pre row seg Hparsed) as [Hpath Hstack].
  rewrite Hpath. split; [done|]. split; [apply length_take|].
  split; [done|]. by apply parsed_level.
Qed.

(** Witness of [group_path_cut_to_level]: the segment MSH of
    [patient_rows], at level 0 under a stack of one entry. *)
Lemma group_path_cut_to_level_witness :
  Store.get (fs_heap (flatten Fixtures.patient_rows)) (group_path Fixtures.msh_segment)
  = take 0 ["PATIENT"].
Proof.
  exact (proj1
    (group_path_cut_to_level (take 2 Fixtures.patient_rows)
       (Fixtures.text_row ("MSH" +:+ Fixtures.nl +:+ "- Message header") "0")
       Fixtures.msh_segment eq_refl)).
Defined.

(** ** Rows without a code *)

Lemma mem_ui_tokens s : In s ui_tokens -> PyStr.mem s ui_tokens = true.
Proof.
  unfold ui_tokens. simpl. intros [<-|[<-|[<-|[]]]]; reflexivity.
Qed.

Lemma no_code_not_parsed row i gs h :
  no_parseable_code row -> snd (_extract_segment_from_row row i gs h) = None.
Proof.
  intros (text & Hlabel & Htext). unfold row_label in Hlabel.
  unfold _extract_segment_from_row.
  destruct (first_nonempty (row_cells row) cell_selectors) as [[|cell cells]|e]; [| |done].
  - unfold _parse_row_text. rewrite Hlabel.
    destruct Htext as [->|Htok]; [done|].
    destruct (_detect_hierarchy_level row gs h) as [[lvl l] h1].
    unfold ui_tokens in Htok. simpl in Htok.
    destruct Htok as [<-|[<-|[<-|[]]]]; vm_compute; reflexivity.
  - subst cell. cbn [cells_loop].
    destruct Htext as [->|Htok]; [done|].
    unfold ui_tokens in Htok. simpl in Htok.
    destruct Htok as [<-|[<-|[<-|[]]]]; reflexivity.
Qed.

(** C7.  A row whose label is blank or is nothing but a UI token yields
    no record: the turn of the loop that meets it ends normally, leaves
    the records, the counter and the stack as they were and adds nothing
    but unused lists to the store, so the output up to that point is the
    same with and without the row. *)
Theorem unparseable_row_skipped (pre : list Row) (row : Row) :
  no_parseable_code row ->
  parsed (flatten pre) row = None /\
  fs_segments (flatten (pre ++ [row])) = fs_segments (flatten pre) /\
  fs_order_index (flatten (pre ++ [row])) = fs_order_index (flatten pre) /\
  stack_of (flatten (pre ++ [row])) = stack_of (flatten pre) /\
  emitted (flatten (pre ++ [row])) = emitted (flatten pre).
Proof.
  intros Hrow.
  assert (Hnone : parsed (flatten pre) row = None) by by apply no_code_not_parsed.
  split; [done|]. rewrite flatten_snoc.
  pose proof (wf_flatten pre) as Hwf.
  destruct (flatten_row_spec (flatten pre) row Hwf) as (_ & _ & _ & Hstep).
  rewrite Hnone in Hstep. destruct Hstep as (Hsegs & Hidx & Hgs & [extra Hheap]).
  destruct Hwf as [Hlt Hall].
  split; [done|]. split; [done|]. split.
  - unfold stack_of. rewrite Hgs, Hheap. by apply get_app_l.
  - unfold emitted. rewrite Hsegs, Hheap.
    apply map_ext_in. intros s Hin.
    rewrite Forall_forall in Hall. destruct (Hall s) as [Hs _].
    { by apply list_elem_of_In. }
    unfold segment_data. f_equal. by apply get_app_l.
Qed.

(** Witness of [unparseable_row_skipped]: the row that shows only
    [chevron_right], after the rows of [patient_rows]. *)
Lemma unparseable_row_skipped_witness :
  no_parseable_code Fixtures.glyph_row /\
  emitted (flatten (Fixtures.patient_rows ++ [Fixtures.glyph_row]))
  = emitted (flatten Fixtures.patient_rows).
Proof.
  assert (H : no_parseable_code Fixtures.glyph_row).
  { exists "chevron_right". split; [reflexivity|]. right. simpl. by left. }
  split; [exact H|].
  exact (proj2 (proj2 (proj2 (proj2
    (unparseable_row_skipped Fixtures.patient_rows Fixtures.glyph_row H))))).
Defined.

(** ** The codes the parsers accept *)

(** C10, as stated, fails.  The text parser returns a record for the
    collapsed group named [A]: a code of one character. *)
Lemma short_group_code_emitted :
  exists seg,
    snd (_parse_row_text Fixtures.short_group_row 0 0 [[]]) = Some seg /\
    snd (_extract_segment_from_row Fixtures.short_group_row 0 0 [[]]) = Some seg /\
    segment_code seg = "A" /\
    String.length (segment_code seg) < 2.
Proof. eexists. vm_compute. repeat split; lia. Qed.

Lemma cells_loop_code i cells v v' :
  1 <= i -> cells_loop i cells v = Some v' -> cv_code v' = cv_code v.
Proof.
  revert i v. induction cells as [|cell cells IH]; intros i v Hi Hloop.
  - simpl in Hloop. by injection Hloop as <-.
  - simpl in Hloop. destruct cell as [text|e]; [|done].
    destruct i as [|[|[|i]]]; [lia| | |].
    + apply IH in Hloop; [|lia]. rewrite Hloop. by case_match.
    + apply IH in Hloop; [|lia]. rewrite Hloop. by case_match.
    + apply IH in Hloop; [done|lia].
Qed.

Lemma mem_app_false s l1 l2 :
  PyStr.mem s (l1 ++ l2) = false -> PyStr.mem s l1 = false.
Proof.
  unfold PyStr.mem. rewrite existsb_app. by intros [? ?]%orb_false_elim.
Qed.

Lemma text_parser_code row i gs h seg :
  snd (_parse_row_text row i gs h) = Some seg ->
  PyStr.truthy (segment_code seg) = true /\
  PyStr.mem (segment_code seg) ui_tokens = false /\
  (2 <= String.length (segment_code seg) \/
   exists text, row_text row = Ok text /\
     PyStr.contains "chevron_right" (PyStr.strip text)
     || PyStr.contains "expand_more" (PyStr.strip text) = true).
Proof.
  unfold _parse_row_text.
  destruct (row_text row) as [text|e]; [|done].
  destruct (negb (PyStr.truthy (PyStr.strip text))); [done|].
  destruct (_detect_hierarchy_level row gs h) as [[lvl l] h1].
  destruct (_ || _) eqn:Hgroup.
  { destruct (first_group_line _) as [code|] eqn:Hline; [|done].
    destruct (Store.copy l h1). cbn [snd]. intros [= <-]. cbn [segment_code].
    apply first_group_line_ok in Hline as [? ?].
    split; [done|]. split; [done|]. right. by exists text. }
  destruct (PyStr.mem _ _); [done|].
  destruct (PyStr.split_lines _) as [|line0 more]; [done|].
  destruct (negb (PyStr.truthy (PyStr.strip line0))); [done|].
  destruct (if _ && _ then _ else _) as [seg_code seg_desc].
  destruct (negb (PyStr.truthy seg_code)) eqn:Htruthy; [done|].
  destruct (String.length seg_code <? 2) eqn:Hlen; [done|].
  destruct (PyStr.mem seg_code ui_tokens) eqn:Hmem; [done|].
  cbn [orb]. destruct (scan_flags _ _ _). destruct (Store.copy l h1).
  cbn [snd]. intros [= <-]. cbn [segment_code].
  apply negb_false_iff in Htruthy. apply Nat.ltb_ge in Hlen.
  split; [done|]. split; [done|]. by left.
Qed.

(** C10, amended.  A record returned by either parser has a code that is
    not empty and is none of the three UI tokens.  The code has at least
    two characters unless the record comes from the group branch of the
    text parser, taken when the row has no cell elements and its text
    contains [chevron_right] or [expand_more]: that branch filters blank
    lines and tokens only. *)
Theorem parser_code_filter (row : Row) (i : nat) (gs : loc) (h : Heap) :
  (forall seg, snd (_parse_row_text row i gs h) = Some seg ->
     PyStr.truthy (segment_code seg) = true /\
     PyStr.mem (segment_code seg) ui_tokens = false /\
     (2 <= String.length (segment_code seg) \/
      exists text, row_text row = Ok text /\
        PyStr.contains "chevron_right" (PyStr.strip text)
        || PyStr.contains "expand_more" (PyStr.strip text) = true)) /\
  (forall seg, snd (_extract_segment_from_row row i gs h) = Some seg ->
     PyStr.truthy (segment_code seg) = true /\
     PyStr.mem (segment_code seg) ui_tokens = false /\
     (2 <= String.length (segment_code seg) \/
      first_nonempty (row_cells row) cell_selectors = Ok [] /\
      exists text, row_text row = Ok text /\
        PyStr.contains "chevron_right" (PyStr.strip text)
        || PyStr.contains "expand_more" (PyStr.strip text) = true)).
Proof.
  split; [intros seg; apply text_parser_code|].
  intros seg. unfold _extract_segment_from_row.
  destruct (first_nonempty (row_cells row) cell_selectors) as [[|cell cells]|e]; [| |done].
  - intros Hseg. apply text_parser_code in Hseg as (? & ? & [?|?]); eauto.
  - destruct (cells_loop 0 (cell :: cells) _) as [v|] eqn:Hloop; [|done].
    destruct (negb (PyStr.truthy (cv_code v))) eqn:Htruthy; [done|].
    destruct (String.length (cv_code v) <? 2) eqn:Hlen; [done|].
    cbn [orb]. destruct (Store.copy gs h). cbn [snd]. intros [= <-]. cbn [segment_code].
    apply negb_false_iff in Htruthy. apply Nat.ltb_ge in Hlen.
    split; [done|]. split; [|by left].
    cbn [cells_loop] in Hloop. destruct cell as [text|e]; [|done].
    destruct (if PyStr.contains " - " (PyStr.strip text) then _ else _) as [code desc].
    destruct (PyStr.mem code (ui_tokens ++ [EmptyString])) eqn:Hmem; [done|].
    apply cells_loop_code in Hloop; [|lia]. rewrite Hloop. cbn [cv_code].
    by apply mem_app_false in Hmem.
Qed.

(** Witness of [parser_code_filter]: the group BBBB, parsed from text. *)
Lemma parser_code_filter_witness :
  PyStr.truthy "BBBB" = true /\ PyStr.mem "BBBB" ui_tokens = false.
Proof.
  destruct (proj2 (parser_code_filter
              (Fixtures.text_row ("expand_more" +:+ Fixtures.nl +:+ "BBBB") "16")
              1 0 [["AAAA"]; []])
              {| segment_code := "BBBB"; segment_desc := "BBBB group";
                 optionality := "R"; repeatability := "inf"; is_group := true;
                 group_path := 2; level := 1; order_index := 1 |} eq_refl)
    as (H1 & H2 & _).
  exact (conj H1 H2).
Defined.

(* ===================================================================== *)
(** ** Computations in the browser *)
(* ===================================================================== *)

Section monad_facts.
Context {World Elem : Type} {D : Driver World Elem}.
Implicit Types (w : World) (p : Event Elem -> bool).

Lemma count_events_app p (t1 t2 : list (Event Elem)) :
  count_events p (t1 ++ t2) = count_events p t1 + count_events p t2.
Proof. unfold count_events. by rewrite List.filter_app, length_app. Qed.

(** *** [halts] *)

Lemma halts_ret {A} (a : A) : halts (World:=World) (Elem:=Elem) (ret a).
Proof. intros w. done. Qed.

Lemma halts_throw {A} e : halts (A:=A) (World:=World) (Elem:=Elem) (throw e).
Proof. intros w. done. Qed.

Lemma halts_read {A} (f : World -> result A) : halts (Elem:=Elem) (read f).
Proof. intros w. unfold read, outcome_of. simpl. by destruct (f w). Qed.

Lemma halts_command ev f : halts (command (Elem:=Elem) (World:=World) ev f).
Proof.
  intros w. unfold command, outcome_of. destruct (f w) as [[|] ?]; done.
Qed.

Lemma halts_bind {A B} (m : M A) (k : A -> M B) :
  halts m -> (forall a, halts (k a)) -> halts (World:=World) (Elem:=Elem) (bind m k).
Proof.
  intros Hm Hk w. specialize (Hm w). unfold bind, outcome_of in *.
  destruct (m w) as [[[a| |] w1] t1]; simpl in *; [|done|done].
  specialize (Hk a w1). unfold outcome_of in Hk.
  by destruct (k a w1) as [[o w2] t2].
Qed.

Lemma halts_try_except {A} (m : M A) (h : exn -> M A) :
  halts m -> (forall e, halts (h e)) ->
  halts (World:=World) (Elem:=Elem) (try_except m h).
Proof.
  intros Hm Hh w. specialize (Hm w). unfold try_except, outcome_of in *.
  destruct (m w) as [[[a|e|] w1] t1]; simpl in *; [done| |done].
  specialize (Hh e w1). unfold outcome_of in Hh.
  by destruct (h e w1) as [[o w2] t2].
Qed.

Lemma halts_for_each {X S} (xs : list X) (body : S -> X -> M S) acc :
  (forall acc x, halts (body acc x)) ->
  halts (World:=World) (Elem:=Elem) (for_each xs body acc).
Proof.
  intros Hbody. revert acc. induction xs as [|x xs IH]; intros acc; simpl.
  - apply halts_ret.
  - apply halts_bind; [apply Hbody|apply IH].
Qed.

(** *** [safe] *)

Lemma safe_halts {A} (m : M A) : safe (World:=World) (Elem:=Elem) m -> halts m.
Proof. intros Hm w. destruct (Hm w) as [a ->]. done. Qed.

Lemma safe_ret {A} (a : A) : safe (World:=World) (Elem:=Elem) (ret a).
Proof. intros w. by exists a. Qed.

Lemma safe_command_sleep ms : safe (do_sleep ms).
Proof. intros w. by exists tt. Qed.

Lemma safe_bind {A B} (m : M A) (k : A -> M B) :
  safe m -> (forall a, safe (k a)) -> safe (World:=World) (Elem:=Elem) (bind m k).
Proof.
  intros Hm Hk w. destruct (Hm w) as [a Ha]. unfold bind, outcome_of in *.
  destruct (m w) as [[o w1] t1]; simpl in *. subst o.
  destruct (Hk a w1) as [b Hb]. unfold outcome_of in Hb.
  destruct (k a w1) as [[o w2] t2]. simpl in *. by exists b.
Qed.

Lemma safe_try_except {A} (m : M A) (h : exn -> M A) :
  halts m -> (forall e, safe (h e)) ->
  safe (World:=World) (Elem:=Elem) (try_except m h).
Proof.
  intros Hm Hh w. specialize (Hm w). unfold try_except, outcome_of in *.
  destruct (m w) as [[[a|e|] w1] t1]; simpl in *; [by exists a| |done].
  destruct (Hh e w1) as [b Hb]. unfold outcome_of in Hb.
  destruct (h e w1) as [[o w2] t2]. simpl in *. by exists b.
Qed.

Lemma safe_for_each {X S} (xs : list X) (body : S -> X -> M S) acc :
  (forall acc x, safe (body acc x)) ->
  safe (World:=World) (Elem:=Elem) (for_each xs body acc).
Proof.
  intros Hbody. revert acc. induction xs as [|x xs IH]; intros acc; simpl.
  - apply safe_ret.
  - apply safe_bind; [apply Hbody|apply IH].
Qed.

(** *** [at_most] *)

Lemma at_most_weaken p n n' {A} (m : M A) :
  n <= n' -> at_most p n m -> at_most (World:=World) p n' m.
Proof. intros Hle Hm w. specialize (Hm w). lia. Qed.

Lemma at_most_ret p {A} (a : A) : at_most (World:=World) p 0 (ret a).
Proof. intros w. done. Qed.

Lemma at_most_throw p {A} e : at_most (A:=A) (World:=World) p 0 (throw e).
Proof. intros w. done. Qed.

Lemma at_most_diverge p {A} : at_most (A:=A) (World:=World) p 0 diverge.
Proof. intros w. done. Qed.

Lemma at_most_read p {A} (f : World -> result A) : at_most p 0 (read f).
Proof. intros w. done. Qed.

Lemma at_most_command p ev f :
  at_most (World:=World) p (if p ev then 1 else 0) (command ev f).
Proof.
  intros w. unfold command, trace_of, count_events. destruct (f w) as [r w'].
  simpl. by destruct (p ev).
Qed.

Lemma at_most_bind p n1 n2 {A B} (m : M A) (k : A -> M B) :
  at_most p n1 m -> (forall a, at_most p n2 (k a)) ->
  at_most (World:=World) p (n1 + n2) (bind m k).
Proof.
  intros Hm Hk w. specialize (Hm w). unfold bind, trace_of in *.
  destruct (m w) as [[[a| |] w1] t1]; simpl in *; [|lia|lia].
  specialize (Hk a w1). unfold trace_of in Hk.
  destruct (k a w1) as [[o w2] t2]. simpl in *. rewrite count_events_app. lia.
Qed.

Lemma at_most_try_except p n1 n2 {A} (m : M A) (h : exn -> M A) :
  at_most p n1 m -> (forall e, at_most p n2 (h e)) ->
  at_most (World:=World) p (n1 + n2) (try_except m h).
Proof.
  intros Hm Hh w. specialize (Hm w). unfold try_except, trace_of in *.
  destruct (m w) as [[[a|e|] w1] t1]; simpl in *; [lia| |lia].
  specialize (Hh e w1). unfold trace_of in Hh.
  destruct (h e w1) as [[o w2] t2]. simpl in *. rewrite count_events_app. lia.
Qed.

Lemma at_most_for_each p {X S} (xs : list X) (body : S -> X -> M S) acc :
  (forall acc x, at_most p 0 (body acc x)) ->
  at_most (World:=World) p 0 (for_each xs body acc).
Proof.
  intros Hbody. revert acc. induction xs as [|x xs IH]; intros acc; simpl.
  - apply at_most_ret.
  - apply (at_most_bind p 0 0); [apply Hbody|apply IH].
Qed.

End monad_facts.

(* ===================================================================== *)
(** ** [collect_event_urls] *)
(* ===================================================================== *)

Section collect_facts.
Context {World Elem : Type} {D : Driver World Elem}.

Lemma wait_until_times_out {A} (condition : World -> result (option A)) polls w :
  (forall w, condition w = Ok None) ->
  outcome_of (wait_until polls condition w) = Throw TimeoutException.
Proof.
  intros Hnone. revert w. induction polls as [|polls IH]; intros w; [done|].
  cbn [wait_until]. rewrite Hnone.
  unfold bind, do_sleep, command. cbn [of_result].
  specialize (IH (sleep 500 w)). unfold outcome_of in *.
  destruct (wait_until polls condition (sleep 500 w)) as [[o w2] t2].
  simpl in *. by subst o.
Qed.

Lemma attempt_without_links_throws fuel w :
  no_link_matches ->
  exists e, outcome_of (collect_event_urls_attempt fuel w) = Throw e.
Proof.
  intros Hno. unfold collect_event_urls_attempt.
  unfold bind at 1. unfold do_get, command.
  destruct (get BASE_URL w) as [[[]|e] w1]; cbn [of_result]; [|by exists e].
  unfold bind at 1.
  pose proof (wait_until_times_out
                (presence_of_all_elements_located ByCss SEL_EVENT_LINKS)
                (polls_within 15) w1) as Hwait.
  unfold outcome_of in Hwait.
  destruct (wait_until _ _ w1) as [[o w2] t2]. simpl in Hwait.
  rewrite Hwait.
  - by exists TimeoutException.
  - intros w'. unfold presence_of_all_elements_located. by rewrite Hno.
Qed.

Lemma retry_of_failing_throws {A} (f : M A) remaining attempt_number w :
  (forall w, exists e, outcome_of (f w) = Throw e) ->
  exists e, outcome_of (retry_from remaining attempt_number f w) = Throw e.
Proof.
  intros Hf. revert attempt_number w.
  induction remaining as [|remaining IH]; intros attempt_number w.
  - by exists RetryError.
  - cbn [retry_from]. unfold try_except.
    destruct (Hf w) as [e He]. unfold outcome_of in He.
    destruct (f w) as [[o w1] t1]. simpl in He. subst o.
    destruct (is_timeout e); [|by exists e].
    destruct remaining as [|remaining']; [by exists RetryError|].
    unfold bind, do_sleep, command. cbn [of_result].
    destruct (IH (S attempt_number) (sleep (wait_exponential attempt_number) w1)) as [e' He'].
    unfold outcome_of in He'.
    destruct (retry_from (S remaining') (S attempt_number) f _) as [[o w2] t2].
    simpl in He'. subst o. by exists e'.
Qed.

(** C1, amended.  On a page where no element ever matches the link
    selector, [collect_event_urls] does not return a list: every
    attempt ends in an exception, the initial wait timing out when the
    navigation itself went through, and so does the call. *)
Theorem no_link_is_an_error (fuel : nat) (w : World) :
  no_link_matches ->
  exists e, outcome_of (collect_event_urls fuel w) = Throw e.
Proof.
  intros Hno. unfold collect_event_urls, retry.
  apply retry_of_failing_throws. intros w'.
  by apply attempt_without_links_throws.
Qed.

End collect_facts.

Lemma empty_site_has_no_link :
  no_link_matches (D := Toy.driver Toy.empty_site).
Proof.
  intros w. cbn. unfold Toy.mounted. cbn.
  destruct (negb _); [done|].
  by destruct (Z.to_nat (Toy.tw_scroll w / 250)).
Qed.

(** C1, as stated, fails.  On a site without any event no element
    matches the link selector, and [collect_event_urls] ends with
    [RetryError] after three page loads instead of returning an empty
    list. *)
Lemma empty_site_raises :
  no_link_matches (D := Toy.driver Toy.empty_site) /\
  outcome_of (collect_event_urls (D := Toy.driver Toy.empty_site) 30 Toy.start)
  = Throw RetryError /\
  count_events is_get
    (trace_of (collect_event_urls (D := Toy.driver Toy.empty_site) 30 Toy.start)) = 3.
Proof.
  split; [apply empty_site_has_no_link|]. split; vm_compute; reflexivity.
Qed.

(** Witness of [no_link_is_an_error] on the site without events. *)
Lemma no_link_is_an_error_witness :
  exists e,
    outcome_of (collect_event_urls (D := Toy.driver Toy.empty_site) 30 Toy.start) = Throw e.
Proof.
  exact (no_link_is_an_error (D := Toy.driver Toy.empty_site) 30 Toy.start
           empty_site_has_no_link).
Defined.

(* ===================================================================== *)
(** ** The scan loop *)
(* ===================================================================== *)

Section scan_facts.
Context {World Elem : Type} {D : Driver World Elem}.
Local Abbreviation M := (@M World Elem).

Lemma bind_return_inv {A B} (m : M A) (k : A -> M B) (w : World) b :
  outcome_of (bind m k w) = Return b ->
  exists a w1 t1, m w = (Return a, w1, t1) /\ outcome_of (k a w1) = Return b.
Proof.
  unfold bind, outcome_of.
  destruct (m w) as [[[a|e|] w1] t1]; simpl; [|done|done].
  intros Hk. exists a, w1, t1. split; [done|].
  by destruct (k a w1) as [[o w2] t2].
Qed.

Lemma size_union_same (X Y : gset string) :
  (size (X ∪ Y) =? size X) = bool_decide (X ∪ Y = X).
Proof.
  destruct (decide (X ∪ Y = X)) as [Heq|Hne].
  - rewrite bool_decide_eq_true_2 by done. rewrite Heq. apply Nat.eqb_refl.
  - rewrite bool_decide_eq_false_2 by done. apply Nat.eqb_neq. intros Hsize.
    apply Hne. symmetry. apply set_subseteq_size_eq; [set_solver|lia].
Qed.

(** One turn of the scan: the set only grows, the position moves by
    one step, and the counter goes up by one when the set is the same
    as before and back to zero otherwise. *)
Lemma scroll_iteration_spec virtual_scroll step st (w : World) st' :
  outcome_of (scroll_iteration virtual_scroll step st w) = Return st' ->
  all_urls st ⊆ all_urls st' /\
  scroll_position st' = (scroll_position st + step)%Z /\
  no_new_urls_count st' =
    if bool_decide (all_urls st' = all_urls st) then no_new_urls_count st + 1 else 0.
Proof.
  unfold scroll_iteration. intros Hret.
  apply bind_return_inv in Hret as (_ & w1 & t1 & _ & Hret).
  apply bind_return_inv in Hret as (_ & w2 & t2 & _ & Hret).
  apply bind_return_inv in Hret as (valid & w3 & t3 & _ & Hret).
  injection Hret as <-. cbn [all_urls scroll_position no_new_urls_count].
  split; [set_solver|]. split; [done|].
  by rewrite size_union_same.
Qed.

Lemma halts_hrefs links : halts (hrefs links).
Proof.
  unfold hrefs. apply halts_for_each. intros acc link.
  apply halts_bind; [apply halts_read|intros; apply halts_ret].
Qed.

Lemma halts_visible_urls : halts visible_urls.
Proof.
  unfold visible_urls. apply halts_bind; [apply halts_read|intros links].
  apply halts_bind; [apply halts_hrefs|intros; apply halts_ret].
Qed.

Lemma at_most_hrefs p links : at_most p 0 (hrefs links).
Proof.
  unfold hrefs. apply at_most_for_each. intros acc link.
  apply (at_most_bind p 0 0); [apply at_most_read|intros; apply at_most_ret].
Qed.

Lemma at_most_visible_urls p : at_most p 0 visible_urls.
Proof.
  unfold visible_urls. apply (at_most_bind p 0 0); [apply at_most_read|intros links].
  apply (at_most_bind p 0 0); [apply at_most_hrefs|intros; apply at_most_ret].
Qed.

Lemma halts_scroll_iteration virtual_scroll step st :
  halts (scroll_iteration virtual_scroll step st).
Proof.
  unfold scroll_iteration.
  apply halts_bind; [apply halts_command|intros _].
  apply halts_bind; [apply halts_command|intros _].
  apply halts_bind; [apply halts_visible_urls|intros; apply halts_ret].
Qed.

Lemma at_most_scroll_iteration virtual_scroll step st :
  at_most is_set_scroll_top 1 (scroll_iteration virtual_scroll step st).
Proof.
  unfold scroll_iteration, do_script, do_sleep.
  apply (at_most_bind _ 1 0); [apply (at_most_command is_set_scroll_top)|intros _].
  apply (at_most_bind _ 0 0); [apply (at_most_command is_set_scroll_top)|intros _].
  apply (at_most_bind _ 0 0); [apply at_most_visible_urls|intros; apply at_most_ret].
Qed.

(** When [n] steps take the position beyond [max_position], the loop
    ends within [n] turns. *)
Lemma scroll_loop_bound n fuel virtual_scroll step max_position st (w : World) :
  (scroll_position st + Z.of_nat n * step > max_position)%Z ->
  n <= fuel ->
  outcome_of (scroll_loop fuel virtual_scroll step max_position st w) <> Diverge /\
  count_events is_set_scroll_top
    (trace_of (scroll_loop fuel virtual_scroll step max_position st w)) <= n.
Proof.
  revert fuel st w. induction n as [|n IH]; intros fuel st w Hpos Hfuel.
  - assert (Hstop : scroll_continues max_position st = false).
    { unfold scroll_continues. apply andb_false_iff. left. apply Z.leb_gt. lia. }
    destruct fuel; cbn [scroll_loop]; rewrite Hstop; done.
  - destruct fuel as [|fuel]; [lia|]. cbn [scroll_loop].
    destruct (scroll_continues max_position st); [|split; [done|cbn; lia]].
    pose proof (halts_scroll_iteration virtual_scroll step st w) as Hhalt.
    pose proof (at_most_scroll_iteration virtual_scroll step st w) as Hone.
    pose proof (scroll_iteration_spec virtual_scroll step st w) as Hspec.
    unfold bind, outcome_of, trace_of in *.
    destruct (scroll_iteration virtual_scroll step st w) as [[[st'| |] w1] t1];
      simpl in *; [|split; [done|lia]|done].
    destruct (Hspec st' eq_refl) as (_ & Hpos' & _).
    destruct (IH fuel st' w1) as [Hout Hcount]; [lia|lia|].
    destruct (scroll_loop fuel virtual_scroll step max_position st' w1) as [[o w2] t2].
    simpl in *. split; [done|]. rewrite count_events_app. lia.
Qed.

End scan_facts.


(* ===================================================================== *)
(** ** The first pass of [expand_groups] *)
(* ===================================================================== *)

Ltac halts_step :=
  first [ apply halts_ret | apply halts_throw | apply halts_read | apply halts_command
        | apply halts_bind | apply halts_try_except | apply halts_for_each ].

Ltac solve_halts := repeat (intros; first [ halts_step | case_match ]).

Ltac quiet_step p :=
  first [ apply at_most_ret | apply at_most_throw | apply at_most_read
        | apply at_most_diverge
        | apply (at_most_bind p 0 0) | apply (at_most_try_except p 0 0)
        | apply at_most_for_each ].

Section expand_facts.
Context {World Elem : Type} {D : Driver World Elem}.
Local Abbreviation M := (@M World Elem).

Lemma bind_pure {A B} (m : M A) (k : A -> M B) (w w1 : World) a :
  m w = (Return a, w1, []) -> bind m k w = k a w1.
Proof. intros Hm. unfold bind. rewrite Hm. by destruct (k a w1) as [[o w2] t2]. Qed.

Lemma at_most_page_command p ev f :
  p ev = false -> at_most (World:=World) (Elem:=Elem) p 0 (command ev f).
Proof.
  intros Hp. pose proof (at_most_command p ev f) as H. by rewrite Hp in H.
Qed.

(** *** The loop ends *)

Lemma halts_click_strategies button : halts (click_strategies button).
Proof. unfold click_strategies. solve_halts. Qed.

Lemma halts_try_expand cs button : halts (try_expand cs button).
Proof.
  unfold try_expand. apply halts_try_except; [|solve_halts].
  apply halts_bind; [apply halts_read|intros aria].
  destruct (attr_is "true" aria); [apply halts_ret|].
  apply halts_bind; [apply halts_read|intros _].
  apply halts_bind; [apply halts_click_strategies|intros ok].
  destruct ok; solve_halts.
Qed.

Lemma halts_script_click pause cs e : halts (script_click pause cs e).
Proof. unfold script_click. solve_halts. Qed.

Lemma halts_expand_round table st : halts (expand_round table st).
Proof.
  unfold expand_round, find_expandables.
  apply halts_bind; [solve_halts|intros expandables].
  apply halts_bind; [apply halts_for_each; intros; apply halts_try_expand|intros cs].
  apply halts_bind; [apply halts_read|intros current_rows].
  apply halts_bind; [apply halts_read|intros remaining].
  apply halts_bind.
  - destruct (any_expanded cs); [apply halts_ret|].
    destruct remaining; [apply halts_ret|].
    apply halts_bind; [apply halts_for_each; intros; apply halts_script_click|intros cs'].
    apply halts_bind; [apply halts_read|intros clickables].
    apply halts_for_each; intros; apply halts_script_click.
  - intros cs'. destruct (negb (any_expanded cs')); solve_halts.
Qed.

(** A turn that does not leave the loop raises [attempt] by one; every
    turn raises [rounds] by one. *)
Lemma expand_round_counts table st (w : World) st' stop :
  outcome_of (expand_round table st w) = Return (st', stop) ->
  rounds st' = rounds st + 1 /\
  attempt st' = if stop then attempt st else attempt st + 1.
Proof.
  unfold expand_round. intros Hret.
  apply bind_return_inv in Hret as (expandables & w1 & t1 & _ & Hret).
  apply bind_return_inv in Hret as (cs & w2 & t2 & _ & Hret).
  apply bind_return_inv in Hret as (rows & w3 & t3 & _ & Hret).
  apply bind_return_inv in Hret as (remaining & w4 & t4 & _ & Hret).
  apply bind_return_inv in Hret as (cs' & w5 & t5 & _ & Hret).
  destruct (negb (any_expanded cs')).
  - injection Hret as <- <-. done.
  - apply bind_return_inv in Hret as (_ & w6 & t6 & _ & Hret).
    injection Hret as <- <-. done.
Qed.

Lemma expand_loop_bounded fuel table st (w : World) :
  rounds st <= attempt st -> rounds st <= max_attempts ->
  max_attempts - attempt st <= fuel ->
  outcome_of (expand_loop fuel table st w) <> Diverge /\
  forall st', outcome_of (expand_loop fuel table st w) = Return st' ->
              rounds st' <= max_attempts.
Proof.
  revert st w. induction fuel as [|fuel IH]; intros st w Hinv Hmax Hfuel.
  - cbn [expand_loop]. destruct (attempt st <? max_attempts) eqn:Hlt.
    + apply Nat.ltb_lt in Hlt. lia.
    + split; [done|]. by intros st' [= <-].
  - cbn [expand_loop]. destruct (attempt st <? max_attempts) eqn:Hlt;
      [|split; [done|by intros st' [= <-]]].
    apply Nat.ltb_lt in Hlt.
    pose proof (halts_expand_round table st w) as Hhalt.
    pose proof (expand_round_counts table st w) as Hcounts.
    unfold bind, outcome_of in *.
    destruct (expand_round table st w) as [[[[st1 stop]| |] w1] t1];
      simpl in *; [|done|done].
    destruct (Hcounts st1 stop eq_refl) as [Hrounds Hattempt].
    destruct stop.
    + simpl. split; [done|]. intros st' [= <-]. lia.
    + destruct (IH st1 w1) as [Hout Hret]; [lia|lia|lia|].
      destruct (expand_loop fuel table st1 w1) as [[o w2] t2]. simpl in *.
      split; [done|exact Hret].
Qed.

Lemma expand_loop_attempt fuel table st (w : World) st' :
  attempt st <= max_attempts ->
  outcome_of (expand_loop fuel table st w) = Return st' ->
  attempt st' <= max_attempts.
Proof.
  revert st w. induction fuel as [|fuel IH]; intros st w Hle.
  - cbn [expand_loop]. destruct (attempt st <? max_attempts); [done|].
    by intros [= <-].
  - cbn [expand_loop]. destruct (attempt st <? max_attempts) eqn:Hlt;
      [|by intros [= <-]].
    apply Nat.ltb_lt in Hlt.
    pose proof (expand_round_counts table st w) as Hcounts.
    unfold bind, outcome_of in *.
    destruct (expand_round table st w) as [[[[st1 stop]| |] w1] t1];
      simpl in *; [|done|done].
    destruct (Hcounts st1 stop eq_refl) as [_ Hattempt].
    destruct stop.
    + simpl. intros [= <-]. lia.
    + specialize (IH st1 w1 ltac:(lia)).
      destruct (expand_loop fuel table st1 w1) as [[o w2] t2]. simpl in *.
      exact IH.
Qed.

Lemma halts_expand_all fuel table :
  max_attempts <= fuel -> halts (expand_all fuel table).
Proof.
  intros Hfuel w. unfold expand_all.
  apply expand_loop_bounded; cbn [rounds attempt]; lia.
Qed.

Lemma halts_expand_groups fuel table :
  max_attempts <= fuel -> halts (expand_groups fuel table).
Proof.
  intros Hfuel. unfold expand_groups.
  apply halts_bind; [by apply halts_expand_all|intros; apply halts_read].
Qed.

(** *** No exception leaves the loop when the table can be read *)

Lemma safe_read {A} (f : World -> result A) :
  (forall w, exists a, f w = Ok a) -> safe (Elem:=Elem) (read f).
Proof.
  intros Hf w. destruct (Hf w) as [a Ha]. exists a.
  unfold read, outcome_of. simpl. by rewrite Ha.
Qed.

Lemma first_nonempty_readable {X} (query : string -> result (list X)) selectors :
  (forall sel, exists xs, query sel = Ok xs) ->
  exists xs, first_nonempty query selectors = Ok xs.
Proof.
  intros Hq. induction selectors as [|sel rest IH]; [by exists []|].
  simpl. destruct (Hq sel) as [xs ->]. destruct xs; [exact IH|eauto].
Qed.

Lemma safe_try_expand cs button : safe (try_expand cs button).
Proof.
  unfold try_expand. apply safe_try_except; [|intros; apply safe_ret].
  apply halts_bind; [apply halts_read|intros aria].
  destruct (attr_is "true" aria); [apply halts_ret|].
  apply halts_bind; [apply halts_read|intros _].
  apply halts_bind; [apply halts_click_strategies|intros ok].
  destruct ok; solve_halts.
Qed.

Lemma safe_script_click pause cs e : safe (script_click pause cs e).
Proof.
  unfold script_click. apply safe_try_except; [solve_halts|intros; apply safe_ret].
Qed.

Lemma safe_expand_round table st :
  table_readable table -> safe (expand_round table st).
Proof.
  intros Hread. unfold expand_round, find_expandables.
  apply safe_bind.
  { apply safe_bind.
    - apply safe_read. intros w. apply first_nonempty_readable. intros sel. apply Hread.
    - intros expandables. apply safe_bind; [apply safe_read; intros w; apply Hread|].
      intros chevron_rows. apply safe_read. eauto. }
  intros expandables.
  apply safe_bind; [apply safe_for_each; intros; apply safe_try_expand|intros cs].
  apply safe_bind; [apply safe_read; intros w; apply Hread|intros current_rows].
  apply safe_bind; [apply safe_read; intros w; apply Hread|intros remaining].
  apply safe_bind.
  - destruct (any_expanded cs); [apply safe_ret|].
    destruct remaining; [apply safe_ret|].
    apply safe_bind; [apply safe_for_each; intros; apply safe_script_click|intros cs'].
    apply safe_bind; [apply safe_read; intros w; apply Hread|intros clickables].
    apply safe_for_each; intros; apply safe_script_click.
  - intros cs'. destruct (negb (any_expanded cs')); [apply safe_ret|].
    apply safe_bind; [apply safe_command_sleep|intros; apply safe_ret].
Qed.

Lemma safe_expand_loop fuel table st :
  table_readable table -> max_attempts - attempt st <= fuel ->
  safe (expand_loop fuel table st).
Proof.
  intros Hread. revert st. induction fuel as [|fuel IH]; intros st Hfuel w.
  - cbn [expand_loop]. destruct (attempt st <? max_attempts) eqn:Hlt.
    + apply Nat.ltb_lt in Hlt. lia.
    + by exists st.
  - cbn [expand_loop]. destruct (attempt st <? max_attempts) eqn:Hlt; [|by exists st].
    apply Nat.ltb_lt in Hlt.
    destruct (safe_expand_round table st Hread w) as [[st1 stop] Hround].
    pose proof (expand_round_counts table st w st1 stop Hround) as [_ Hattempt].
    unfold bind, outcome_of in *.
    destruct (expand_round table st w) as [[o w1] t1]. simpl in Hround. subst o.
    destruct stop; [by exists st1|].
    destruct (IH st1 ltac:(lia) w1) as [st2 Hst2]. unfold outcome_of in Hst2.
    destruct (expand_loop fuel table st1 w1) as [[o w2] t2]. simpl in *.
    by exists st2.
Qed.

Lemma shows_read_row (w : World) rows :
  Forall2 (shows w) rows (map (read_row w) rows).
Proof. induction rows as [|row rows IH]; constructor; [by repeat split|exact IH]. Qed.

(** X17.  With fuel for 15 turns the loop of the first pass never runs
    out of it, and when it ends normally it has taken at most 15 turns.
    A click that fails, in whichever way, raises nothing: as long as
    the queries on the table itself answer, [expand_groups] ends
    normally, in the page the first pass has left, with what the
    flattening makes of the rows that page shows, or with the records
    of the table text when it shows no row. *)
Theorem expand_groups_terminates (fuel : nat) (table : Elem) (w : World) :
  max_attempts <= fuel ->
  outcome_of (expand_all fuel table w) <> Diverge /\
  outcome_of (expand_groups fuel table w) <> Diverge /\
  (forall st, outcome_of (expand_all fuel table w) = Return st ->
              rounds st <= 15 /\ attempt st <= 15) /\
  (table_readable table ->
   exists st w' t records,
     expand_all fuel table w = (Return st, w', t) /\
     expand_groups fuel table w = (Return records, w', t) /\
     forall elements,
       first_nonempty (fun sel => find_elements (Some table) ByCss sel w') row_selectors
       = Ok elements ->
       (elements = [] -> records = _parse_table_text_fallback (elem_text table w')) /\
       (elements <> [] ->
        exists rows, Forall2 (shows w') elements rows /\ records = emitted (flatten rows))).
Proof.
  intros Hfuel. split; [by apply halts_expand_all|].
  split; [by apply halts_expand_groups|]. split.
  - intros st Hst. split.
    + unfold expand_all in Hst.
      eapply (expand_loop_bounded fuel table); [| | |exact Hst];
        cbn [rounds attempt]; lia.
    + eapply expand_loop_attempt; [|exact Hst]. cbn [attempt]. unfold max_attempts. lia.
  - intros Hread.
    destruct (safe_expand_loop fuel table
                {| attempt := 0; total_expanded := 0; previous_row_count := 0; rounds := 0 |}
                Hread ltac:(cbn [attempt]; lia) w) as [st Hst].
    unfold expand_groups, expand_all, bind, outcome_of in *.
    destruct (expand_loop fuel table _ w) as [[o w1] t1]. simpl in Hst. subst o.
    eexists st, w1, t1, _. split; [done|].
    unfold read. cbn [of_result]. rewrite app_nil_r. split; [done|].
    intros elements Hfound. unfold extract_segments.
    assert (Hrows : first_nonempty
              (fun sel => match find_elements (Some table) ByCss sel w1 with
                          | Raise e => Raise e
                          | Ok rows => Ok (map (read_row w1) rows)
                          end) row_selectors
            = Ok (map (read_row w1) elements)).
    { revert Hfound. generalize row_selectors. intros selectors.
      induction selectors as [|sel rest IH]; simpl; [by intros [= <-]|].
      destruct (find_elements (Some table) ByCss sel w1) as [[|e es]|x]; simpl; try done.
      by intros [= <-]. }
    rewrite Hrows. split.
    + intros ->. done.
    + intros Hne. destruct elements as [|e es]; [done|].
      exists (map (read_row w1) (e :: es)). split; [apply shows_read_row|done].
Qed.

End expand_facts.

Lemma stuck_site_readable : table_readable (D := Toy.driver Toy.stuck_site) Toy.TTable.
Proof.
  intros by_ sel w. unfold find_elements, Toy.driver, Toy.toy_find.
  destruct by_; repeat case_match; eauto.
Qed.

(** Witness of [expand_groups_terminates]: the table whose button
    cannot be clicked by any of the three strategies; the pass tries
    each of them once, gives up and returns the three rows that are
    there. *)
Lemma expand_groups_terminates_witness :
  (exists st w' t records,
     expand_all (D := Toy.driver Toy.stuck_site) 15 Toy.TTable (Toy.on_event 0)
     = (Return st, w', t) /\
     expand_groups (D := Toy.driver Toy.stuck_site) 15 Toy.TTable (Toy.on_event 0)
     = (Return records, w', t) /\
     forall elements,
       first_nonempty
         (fun sel => find_elements (Driver := Toy.driver Toy.stuck_site)
                       (Some Toy.TTable) ByCss sel w') row_selectors
       = Ok elements ->
       (elements = [] ->
        records = _parse_table_text_fallback
                    (elem_text (Driver := Toy.driver Toy.stuck_site) Toy.TTable w')) /\
       (elements <> [] ->
        exists rows,
          Forall2 (shows (D := Toy.driver Toy.stuck_site) w') elements rows /\
          records = emitted (flatten rows))) /\
  match outcome_of (expand_groups (D := Toy.driver Toy.stuck_site) 15 Toy.TTable
                      (Toy.on_event 0)) with
  | Return records => map sd_code records = ["MSH"; "PATIENT"; "PID"]
  | _ => False
  end /\
  count_events is_click
    (trace_of (expand_groups (D := Toy.driver Toy.stuck_site) 15 Toy.TTable
                 (Toy.on_event 0))) = 3.
Proof.
  split.
  - exact (proj2 (proj2 (proj2
      (expand_groups_terminates (D := Toy.driver Toy.stuck_site) 15 Toy.TTable
         (Toy.on_event 0) (le_n 15)))) stuck_site_readable).
  - split; vm_compute; reflexivity.
Defined.


(** ** A table that reports itself expanded *)

Section settled_facts.
Context {World Elem : Type} {D : Driver World Elem}.
Local Abbreviation M := (@M World Elem).

Lemma try_expand_reported cs button (w : World) :
  get_attribute button "aria-expanded" w = Ok (Some "true") ->
  try_expand cs button w = (Return cs, w, []).
Proof.
  intros Haria. unfold try_expand, try_except, bind, read. rewrite Haria. done.
Qed.

Lemma for_each_try_expand_reported controls cs (w : World) :
  Forall (fun b => get_attribute b "aria-expanded" w = Ok (Some "true")) controls ->
  for_each controls try_expand cs w = (Return cs, w, []).
Proof.
  induction 1 as [|button controls Haria _ IH]; [done|].
  cbn [for_each]. erewrite bind_pure; [exact IH|].
  by apply try_expand_reported.
Qed.

Lemma find_expandables_reported table controls (w : World) :
  find_elements (Some table) ByXpath chevron_xpath w = Ok [] ->
  first_nonempty (fun sel => find_elements (Some table) ByCss sel w)
                 expandable_selectors = Ok controls ->
  find_expandables table w = (Return controls, w, []).
Proof.
  intros Hchevron Hcontrols. unfold find_expandables.
  erewrite bind_pure; [|unfold read; by rewrite Hcontrols].
  erewrite bind_pure; [|unfold read; by rewrite Hchevron].
  done.
Qed.

(** C6, amended.  On a table where no text shows [chevron_right] and
    every control the selectors find reports [aria-expanded="true"],
    the first pass sends no command at all to the browser, so no
    click of any strategy, and leaves the page as it is. *)
Theorem reported_expanded_not_clicked (fuel : nat) (table : Elem) (w : World) :
  reports_expanded table w ->
  world_of (expand_all fuel table w) = w /\
  trace_of (expand_all fuel table w) = [] /\
  count_events is_click (trace_of (expand_all fuel table w)) = 0.
Proof.
  intros (Hchevron & controls & Hcontrols & Haria).
  assert (Hgoal : world_of (expand_all fuel table w) = w /\
                  trace_of (expand_all fuel table w) = []).
  { unfold expand_all. destruct fuel as [|fuel]; [done|].
    cbn [expand_loop attempt]. change (0 <? max_attempts) with true. cbv iota.
    set (st0 := {| attempt := 0; total_expanded := 0;
                   previous_row_count := 0; rounds := 0 |}).
    assert (Hround : exists o, expand_round table st0 w = (o, w, []) /\
              (forall st stop, o = Return (st, stop) -> stop = true)).
    { unfold expand_round.
      erewrite bind_pure; [|by apply find_expandables_reported].
      erewrite bind_pure; [|by apply for_each_try_expand_reported].
      unfold bind at 1. unfold read at 1.
      destruct (find_elements (Some table) ByCss ".flex-segment" w) as [rows|e];
        cbn [of_result]; [|exists (Throw e); split; [done|done]].
      erewrite bind_pure; [|unfold read; by rewrite Hchevron].
      cbn. eexists. split; [reflexivity|]. by intros st stop [= _ <-]. }
    destruct Hround as (o & Hround & Hstop).
    unfold bind. rewrite Hround.
    destruct o as [[st stop]| |]; [|done|done].
    rewrite (Hstop st stop eq_refl). done. }
  destruct Hgoal as [Hw Ht]. split; [done|]. split; [done|]. by rewrite Ht.
Qed.

End settled_facts.

Lemma settled_site_reports_expanded :
  reports_expanded (D := Toy.driver Toy.settled_site) Toy.TTable (Toy.on_event 0).
Proof.
  split; [reflexivity|]. exists [Toy.TButton]. split; [reflexivity|].
  apply Forall_singleton. reflexivity.
Qed.

(** Witness of [reported_expanded_not_clicked]: the table whose button
    reports [aria-expanded="true"]. *)
Lemma reported_expanded_not_clicked_witness :
  trace_of (expand_all (D := Toy.driver Toy.settled_site) 15 Toy.TTable (Toy.on_event 0)) = [].
Proof.
  exact (proj1 (proj2
    (reported_expanded_not_clicked (D := Toy.driver Toy.settled_site) 15 Toy.TTable
       (Toy.on_event 0) settled_site_reports_expanded))).
Defined.

(** C6, as stated, fails.  The table of [toggle_site] is fully expanded:
    no control has [aria-expanded="false"] and no text shows
    [chevron_right].  Its button carries no [aria-expanded] attribute,
    and the first pass clicks it in each of its 15 turns. *)
Lemma expanded_table_clicked_again :
  find_elements (Driver := Toy.driver Toy.toggle_site) (Some Toy.TTable) ByCss
    "button[aria-expanded='false']" (Toy.on_event 0) = Ok [] /\
  find_elements (Driver := Toy.driver Toy.toggle_site) (Some Toy.TTable) ByXpath
    chevron_xpath (Toy.on_event 0) = Ok [] /\
  count_events is_click
    (trace_of (expand_all (D := Toy.driver Toy.toggle_site) 15 Toy.TTable (Toy.on_event 0)))
  = 15 /\
  In (EvClick Toy.TButton)
    (trace_of (expand_all (D := Toy.driver Toy.toggle_site) 15 Toy.TTable (Toy.on_event 0))).
Proof. vm_compute. repeat split; auto 10. Qed.

(* ===================================================================== *)
(** ** One item of the batch *)
(* ===================================================================== *)

Section item_facts.
Context {World Elem : Type} {D : Driver World Elem}.
Local Abbreviation M := (@M World Elem).

(** *** What the page work sends to the browser *)

Section page_commands.
Variable p : Event Elem -> bool.
Hypothesis Hp : ignores_page_commands p.

Lemma at_most_script s : at_most p 0 (do_script s).
Proof. apply at_most_page_command. apply Hp. Qed.

Lemma at_most_click e : at_most p 0 (do_click e).
Proof. apply at_most_page_command. apply Hp. Qed.

Lemma at_most_action_click e : at_most p 0 (do_action_click e).
Proof. apply at_most_page_command. apply Hp. Qed.

Lemma at_most_sleep ms : at_most p 0 (do_sleep ms).
Proof. apply at_most_page_command. apply Hp. Qed.

Ltac page_step :=
  first [ apply at_most_script | apply at_most_click | apply at_most_action_click
        | apply at_most_sleep | quiet_step p ].

Ltac solve_page := repeat (intros; first [ page_step | case_match ]).

Lemma at_most_click_strategies button : at_most p 0 (click_strategies button).
Proof. unfold click_strategies. solve_page. Qed.

Lemma at_most_try_expand cs button : at_most p 0 (try_expand cs button).
Proof.
  unfold try_expand. apply (at_most_try_except p 0 0); [|solve_page].
  apply (at_most_bind p 0 0); [apply at_most_read|intros aria].
  destruct (attr_is "true" aria); [apply at_most_ret|].
  apply (at_most_bind p 0 0); [apply at_most_read|intros _].
  apply (at_most_bind p 0 0); [apply at_most_click_strategies|intros ok].
  destruct ok; solve_page.
Qed.

Lemma at_most_script_click pause cs e : at_most p 0 (script_click pause cs e).
Proof. unfold script_click. solve_page. Qed.

Lemma at_most_expand_round table st : at_most p 0 (expand_round table st).
Proof.
  unfold expand_round, find_expandables.
  apply (at_most_bind p 0 0); [solve_page|intros expandables].
  apply (at_most_bind p 0 0);
    [apply at_most_for_each; intros; apply at_most_try_expand|intros cs].
  apply (at_most_bind p 0 0); [apply at_most_read|intros current_rows].
  apply (at_most_bind p 0 0); [apply at_most_read|intros remaining].
  apply (at_most_bind p 0 0).
  - destruct (any_expanded cs); [apply at_most_ret|].
    destruct remaining; [apply at_most_ret|].
    apply (at_most_bind p 0 0);
      [apply at_most_for_each; intros; apply at_most_script_click|intros cs'].
    apply (at_most_bind p 0 0); [apply at_most_read|intros clickables].
    apply at_most_for_each; intros; apply at_most_script_click.
  - intros cs'. destruct (negb (any_expanded cs')); solve_page.
Qed.

Lemma at_most_expand_loop fuel table st : at_most p 0 (expand_loop fuel table st).
Proof.
  revert st. induction fuel as [|fuel IH]; intros st; cbn [expand_loop];
    destruct (attempt st <? max_attempts); try apply at_most_ret.
  - apply at_most_diverge.
  - apply (at_most_bind p 0 0); [apply at_most_expand_round|].
    intros [st' stop]. destruct stop; [apply at_most_ret|apply IH].
Qed.

Lemma at_most_expand_groups fuel table : at_most p 0 (expand_groups fuel table).
Proof.
  unfold expand_groups, expand_all.
  apply (at_most_bind p 0 0); [apply at_most_expand_loop|intros; apply at_most_read].
Qed.

Lemma at_most_wait_until {A} polls (condition : World -> result (option A)) :
  at_most p 0 (wait_until polls condition).
Proof.
  induction polls as [|polls IH]; [apply at_most_throw|].
  intros w. cbn [wait_until].
  assert (Hnext : count_events p
            (trace_of ((do_sleep 500 ;;; wait_until polls condition) w)) <= 0).
  { apply (at_most_bind p 0 0); [apply at_most_sleep|intros; apply IH]. }
  destruct (condition w) as [[value|]|[]]; try exact Hnext; done.
Qed.

Lemma at_most_random_delay delay_ms : at_most p 0 (random_delay delay_ms).
Proof. intros w. unfold random_delay. apply at_most_sleep. Qed.

(** A retried computation issues at most [remaining] times what one
    attempt does. *)
Lemma at_most_retry {A} n (f : M A) remaining attempt_number :
  at_most p n f -> at_most p (remaining * n) (retry_from remaining attempt_number f).
Proof.
  intros Hf. revert attempt_number.
  induction remaining as [|remaining IH]; intros attempt_number.
  - apply at_most_throw.
  - cbn [retry_from]. replace (S remaining * n) with (n + remaining * n) by lia.
    apply at_most_try_except; [done|intros e].
    destruct (is_timeout e);
      [|apply (at_most_weaken p 0); [lia|apply at_most_throw]].
    destruct remaining as [|remaining'];
      [apply (at_most_weaken p 0); [lia|apply at_most_throw]|].
    replace (S remaining' * n) with (0 + S remaining' * n) by lia.
    apply at_most_bind; [apply at_most_sleep|intros; apply IH].
Qed.

End page_commands.

Lemma is_get_ignores_page_commands : ignores_page_commands (is_get (Elem:=Elem)).
Proof. repeat split. Qed.

Lemma at_most_parse_attempt fuel delay_ms url :
  at_most is_get 1 (parse_event_page_attempt fuel delay_ms url).
Proof.
  pose proof is_get_ignores_page_commands as Hp.
  unfold parse_event_page_attempt.
  apply (at_most_bind _ 1 0); [apply (at_most_command is_get (EvGet url))|intros _].
  apply (at_most_bind _ 0 0); [by apply at_most_random_delay|intros _].
  apply (at_most_bind _ 0 0); [by apply at_most_wait_until|intros _].
  apply (at_most_bind _ 0 0); [apply at_most_read|intros meta].
  apply (at_most_try_except _ 0 0); [|intros; apply at_most_ret].
  apply (at_most_bind _ 0 0); [apply at_most_read|intros table].
  apply (at_most_bind _ 0 0); [by apply at_most_expand_groups|intros; apply at_most_ret].
Qed.

(** *** The item always comes to an end *)

Lemma halts_wait_until {A} polls (condition : World -> result (option A)) :
  halts (wait_until polls condition).
Proof.
  induction polls as [|polls IH]; [apply halts_throw|].
  intros w. cbn [wait_until].
  assert (Hnext : outcome_of ((do_sleep 500 ;;; wait_until polls condition) w) <> Diverge).
  { apply halts_bind; [apply halts_command|intros; apply IH]. }
  destruct (condition w) as [[value|]|[]]; try exact Hnext; done.
Qed.

Lemma halts_random_delay delay_ms : halts (random_delay delay_ms).
Proof. intros w. unfold random_delay. apply halts_command. Qed.

Lemma safe_random_delay delay_ms : safe (random_delay delay_ms).
Proof. intros w. unfold random_delay. apply safe_command_sleep. Qed.

Lemma halts_retry {A} (f : M A) remaining attempt_number :
  halts f -> halts (retry_from remaining attempt_number f).
Proof.
  intros Hf. revert attempt_number.
  induction remaining as [|remaining IH]; intros attempt_number; [apply halts_throw|].
  cbn [retry_from]. apply halts_try_except; [done|intros e].
  destruct (is_timeout e); [|apply halts_throw].
  destruct remaining; [apply halts_throw|].
  apply halts_bind; [apply halts_command|intros; apply IH].
Qed.

Lemma halts_parse_attempt fuel delay_ms url :
  max_attempts <= fuel -> halts (parse_event_page_attempt fuel delay_ms url).
Proof.
  intros Hfuel. unfold parse_event_page_attempt.
  apply halts_bind; [apply halts_command|intros _].
  apply halts_bind; [apply halts_random_delay|intros _].
  apply halts_bind; [apply halts_wait_until|intros _].
  apply halts_bind; [apply halts_read|intros meta].
  apply halts_try_except; [|intros; apply halts_ret].
  apply halts_bind; [apply halts_read|intros table].
  apply halts_bind; [by apply halts_expand_groups|intros; apply halts_ret].
Qed.

Lemma safe_process_url fuel delay_ms st url :
  max_attempts <= fuel -> safe (process_url fuel delay_ms st url).
Proof.
  intros Hfuel. unfold process_url.
  destruct (decide _); [apply safe_ret|].
  apply safe_bind.
  - apply safe_try_except; [|intros; apply safe_ret].
    apply halts_bind.
    + apply halts_retry. by apply halts_parse_attempt.
    + intros [event_data|]; [|apply halts_ret].
      apply halts_bind; [apply halts_command|intros; apply halts_ret].
  - intros [st'|]; [|apply safe_ret].
    apply safe_bind; [apply safe_random_delay|intros; apply safe_ret].
Qed.

(** One attempt of a retried call and what follows it. *)
Lemma retry_from_step {A} (f : M A) remaining attempt_number (w : World) :
  retry_from (S remaining) attempt_number f w =
    match f w with
    | (Throw TimeoutException, w1, t1) =>
        match remaining with
        | O => (Throw RetryError, w1, t1)
        | S _ =>
            let '(o, w2, t2) :=
              retry_from remaining (S attempt_number) f
                (sleep (wait_exponential attempt_number) w1) in
            (o, w2, t1 ++ EvSleep (wait_exponential attempt_number) :: t2)
        end
    | r => r
    end.
Proof.
  cbn [retry_from]. unfold try_except.
  destruct (f w) as [[[a|e|] w1] t1]; [done| |done].
  destruct e; cbn [is_timeout]; try (unfold throw; by rewrite app_nil_r).
  destruct remaining; [unfold throw; by rewrite app_nil_r|].
  unfold bind at 1, do_sleep at 1, command. cbn [of_result].
  by destruct (retry_from (S remaining) (S attempt_number) f _) as [[o w2] t2].
Qed.

(** The whole policy: the call is the last of at most three attempts,
    each of the earlier ones having timed out and been followed by a
    sleep of two seconds; a third timeout becomes [RetryError]. *)
Lemma retry_policy {A} (f : M A) (w : World) :
  exists waits w' t,
    (waits = [] \/ waits = [2000] \/ waits = [2000; 2000])%Z /\
    timed_out f waits w = Some (w', t) /\
    (outcome_of (f w') = Throw TimeoutException -> waits = [2000; 2000]%Z) /\
    retry f w =
      (match outcome_of (f w') with
       | Throw TimeoutException => Throw RetryError
       | o => o
       end, world_of (f w'), t ++ trace_of (f w')).
Proof.
  unfold retry, outcome_of, world_of, trace_of.
  rewrite retry_from_step. change (wait_exponential 1) with 2000%Z.
  destruct (f w) as [[o1 w1] t1] eqn:H1.
  assert (Hfirst : forall o, o = o1 -> o <> Throw TimeoutException ->
            exists waits w' t,
              (waits = [] \/ waits = [2000] \/ waits = [2000; 2000])%Z /\
              timed_out f waits w = Some (w', t) /\
              ((f w').1.1 = Throw TimeoutException -> waits = [2000; 2000]%Z) /\
              (o1, w1, t1) =
                (match (f w').1.1 with
                 | Throw TimeoutException => Throw RetryError
                 | o => o
                 end, (f w').1.2, t ++ (f w').2)).
  { intros o -> Hne. exists [], w, []. rewrite H1. cbn [timed_out fst snd app].
    split; [by left|]. split; [done|]. split; [done|].
    destruct o1 as [a|[]|]; done. }
  destruct o1 as [a|e|]; [by apply (Hfirst (Return a))| |by apply (Hfirst Diverge)].
  destruct e; try (by eapply Hfirst). clear Hfirst.
  rewrite retry_from_step. change (wait_exponential 2) with 2000%Z.
  destruct (f (sleep 2000 w1)) as [[o2 w2] t2] eqn:H2.
  assert (Hsecond : forall o, o = o2 -> o <> Throw TimeoutException ->
            exists waits w' t,
              (waits = [] \/ waits = [2000] \/ waits = [2000; 2000])%Z /\
              timed_out f waits w = Some (w', t) /\
              ((f w').1.1 = Throw TimeoutException -> waits = [2000; 2000]%Z) /\
              (o2, w2, t1 ++ EvSleep 2000 :: t2) =
                (match (f w').1.1 with
                 | Throw TimeoutException => Throw RetryError
                 | o => o
                 end, (f w').1.2, t ++ (f w').2)).
  { intros o -> Hne. exists [2000%Z], (sleep 2000 w1), (t1 ++ [EvSleep 2000]).
    cbn [timed_out]. rewrite H1, H2. cbn [timed_out fst snd].
    split; [by right; left|]. split; [done|]. split; [done|].
    rewrite <- app_assoc. destruct o2 as [a|[]|]; done. }
  destruct o2 as [a|e|]; [by apply (Hsecond (Return a))| |by apply (Hsecond Diverge)].
  destruct e; try (by eapply Hsecond). clear Hsecond.
  rewrite retry_from_step.
  exists [2000; 2000]%Z, (sleep 2000 w2), (t1 ++ EvSleep 2000 :: t2 ++ [EvSleep 2000]).
  cbn [timed_out]. rewrite H1, H2. cbn [timed_out].
  destruct (f (sleep 2000 w2)) as [[o3 w3] t3]. cbn [fst snd].
  split; [by right; right|]. split; [done|]. split; [done|].
  rewrite <- !app_assoc. cbn [app]. rewrite <- !app_assoc. cbn [app].
  destruct o3 as [a|[]|]; done.
Qed.

(** C9.  The parse of one page is attempted at most three times, so the
    page is loaded at most three times: an attempt is repeated only
    after it has timed out, the first time after a wait of 2 seconds,
    the second time after another 2 seconds - the waits of the
    exponential policy, 2, 2, 4, 8 and 10 seconds, of which only the
    first two can occur - and a third timeout becomes [RetryError]; an
    attempt that returns or raises anything else ends the parse with
    its own result.  An item whose parse raises leaves the turn of the
    batch loop without a trace in the state: the loop goes on with the
    next URL from the state it had, and the loop over any list of URLs
    ends normally. *)
Theorem failing_item_is_skipped (fuel : nat) (delay_ms : Z) (url : string) (w : World) :
  max_attempts <= fuel ->
  let attempt := parse_event_page_attempt fuel delay_ms url in
  count_events is_get (trace_of (parse_event_page fuel delay_ms url w)) <= 3 /\
  (exists waits w' t,
     (waits = [] \/ waits = [2000] \/ waits = [2000; 2000])%Z /\
     timed_out attempt waits w = Some (w', t) /\
     (outcome_of (attempt w') = Throw TimeoutException -> waits = [2000; 2000]%Z) /\
     parse_event_page fuel delay_ms url w =
       (match outcome_of (attempt w') with
        | Throw TimeoutException => Throw RetryError
        | o => o
        end, world_of (attempt w'), t ++ trace_of (attempt w'))) /\
  map wait_exponential [1; 2; 3; 4; 5] = [2000; 2000; 4000; 8000; 10000]%Z /\
  (forall st e w1 t1,
     code_of url ∉ processed_events st ->
     parse_event_page fuel delay_ms url w = (Throw e, w1, t1) ->
     process_url fuel delay_ms st url w = (Return st, w1, t1) /\
     forall urls,
       for_each (url :: urls) (process_url fuel delay_ms) st w =
         let '(o, w2, t2) := for_each urls (process_url fuel delay_ms) st w1 in
         (o, w2, t1 ++ t2)) /\
  (forall urls st, exists st',
     outcome_of (for_each urls (process_url fuel delay_ms) st w) = Return st').
Proof.
  intros Hfuel attempt. split; [|split; [|split; [|split]]].
  - unfold parse_event_page, retry.
    apply (at_most_retry is_get is_get_ignores_page_commands 1 _ 3 1).
    apply at_most_parse_attempt.
  - apply retry_policy.
  - reflexivity.
  - intros st e w1 t1 Hnew Hparse.
    assert (Hturn : process_url fuel delay_ms st url w = (Return st, w1, t1)).
    { unfold process_url. fold (code_of url).
      destruct (decide (code_of url ∈ processed_events st)); [done|].
      unfold bind at 1, try_except at 1, bind at 1. rewrite Hparse.
      unfold ret. cbn. by rewrite !app_nil_r. }
    split; [done|]. intros urls. cbn [for_each]. unfold bind at 1. by rewrite Hturn.
  - intros urls st. apply safe_for_each. intros acc x. by apply safe_process_url.
Qed.

End item_facts.

Example backoff_times :
  map wait_exponential [1; 2; 3; 4; 5; 6]
  = [2000; 2000; 4000; 8000; 10000; 10000]%Z.
Proof. reflexivity. Qed.

(** Witness of [failing_item_is_skipped]: three events, the table of the
    second never mounts; its page is loaded three times with a sleep of
    two seconds after the first and after the second timeout, the parse
    raises [RetryError], and the batch returns the first and the third
    event. *)
Lemma failing_item_is_skipped_witness :
  (exists waits w' t,
     (waits = [] \/ waits = [2000] \/ waits = [2000; 2000])%Z /\
     timed_out (D := Toy.driver Toy.flaky_site)
       (parse_event_page_attempt (D := Toy.driver Toy.flaky_site) 15 500 (Toy.item_url 1))
       waits Toy.start
     = Some (w', t) /\
     (outcome_of (parse_event_page_attempt (D := Toy.driver Toy.flaky_site) 15 500
                    (Toy.item_url 1) w') = Throw TimeoutException ->
      waits = [2000; 2000]%Z) /\
     parse_event_page (D := Toy.driver Toy.flaky_site) 15 500 (Toy.item_url 1) Toy.start =
       (match outcome_of (parse_event_page_attempt (D := Toy.driver Toy.flaky_site) 15 500
                            (Toy.item_url 1) w') with
        | Throw TimeoutException => Throw RetryError
        | o => o
        end,
        world_of (parse_event_page_attempt (D := Toy.driver Toy.flaky_site) 15 500
                    (Toy.item_url 1) w'),
        t ++ trace_of (parse_event_page_attempt (D := Toy.driver Toy.flaky_site) 15 500
                         (Toy.item_url 1) w'))) /\
  outcome_of (parse_event_page (D := Toy.driver Toy.flaky_site) 15 500 (Toy.item_url 1)
                Toy.start) = Throw RetryError /\
  count_events is_get
    (trace_of (parse_event_page (D := Toy.driver Toy.flaky_site) 15 500 (Toy.item_url 1)
                 Toy.start)) = 3 /\
  count_events (is_sleep_of 2000)
    (trace_of (parse_event_page (D := Toy.driver Toy.flaky_site) 15 500 (Toy.item_url 1)
                 Toy.start)) = 2 /\
  match outcome_of (process_url (D := Toy.driver Toy.flaky_site) 15 500
                      {| all_data := []; processed_events := ∅ |} (Toy.item_url 1)
                      Toy.start) with
  | Return st => all_data st = [] /\ elements (processed_events st) = []
  | _ => False
  end /\
  match outcome_of (run (D := Toy.driver Toy.flaky_site) 15 500 None ∅ Toy.start) with
  | Return events => map ed_code events = ["E00"; "E02"]
  | _ => False
  end.
Proof.
  split.
  - exact (proj1 (proj2 (failing_item_is_skipped (D := Toy.driver Toy.flaky_site) 15 500
                           (Toy.item_url 1) Toy.start (le_n 15)))).
  - vm_compute. repeat split.
Defined.

(* ===================================================================== *)
(** * Further properties *)
(* ===================================================================== *)

(** ** What a computation returns and what it sends *)

Section yields_facts.
Context {World Elem : Type} {D : Driver World Elem}.
Local Abbreviation M := (@M World Elem).

Lemma yields_ret {A} (P : A -> Prop) a : P a -> yields (World:=World) (Elem:=Elem) P (ret a).
Proof. intros HP w a' [= <-]. done. Qed.

Lemma yields_throw {A} (P : A -> Prop) e : yields (World:=World) (Elem:=Elem) P (throw e).
Proof. intros w a. done. Qed.

Lemma yields_diverge {A} (P : A -> Prop) : yields (World:=World) (Elem:=Elem) P diverge.
Proof. intros w a. done. Qed.

Lemma yields_bind {A B} (P : B -> Prop) (m : M A) (k : A -> M B) :
  (forall a, yields P (k a)) -> yields P (bind m k).
Proof.
  intros Hk w b Hret.
  apply bind_return_inv in Hret as (a & w1 & t1 & _ & Hret). by eapply Hk.
Qed.

Lemma yields_bind_with {A B} (Q : A -> Prop) (P : B -> Prop) (m : M A) (k : A -> M B) :
  yields Q m -> (forall a, Q a -> yields P (k a)) -> yields P (bind m k).
Proof.
  intros Hm Hk w b Hret.
  apply bind_return_inv in Hret as (a & w1 & t1 & Hmw & Hret).
  eapply Hk; [|exact Hret]. apply (Hm w). unfold outcome_of. by rewrite Hmw.
Qed.

Lemma yields_try_except {A} (P : A -> Prop) (m : M A) (h : exn -> M A) :
  yields P m -> (forall e, yields P (h e)) -> yields P (try_except m h).
Proof.
  intros Hm Hh w a. specialize (Hm w). unfold try_except, outcome_of in *.
  destruct (m w) as [[[a'|e|] w1] t1]; simpl in *; [by apply Hm| |done].
  specialize (Hh e w1 a). unfold outcome_of in Hh.
  by destruct (h e w1) as [[o w2] t2].
Qed.

Lemma yields_retry {A} (P : A -> Prop) (f : M A) remaining attempt_number :
  yields P f -> yields P (retry_from remaining attempt_number f).
Proof.
  intros Hf. revert attempt_number.
  induction remaining as [|remaining IH]; intros attempt_number; [apply yields_throw|].
  cbn [retry_from]. apply yields_try_except; [done|intros e].
  destruct (is_timeout e); [|apply yields_throw].
  destruct remaining; [apply yields_throw|].
  apply yields_bind. intros _. apply IH.
Qed.

Lemma yields_for_each {X S} (P : S -> Prop) (xs : list X) (body : S -> X -> M S) acc :
  P acc -> (forall acc x, P acc -> yields P (body acc x)) ->
  yields P (for_each xs body acc).
Proof.
  intros Hacc Hbody. revert acc Hacc.
  induction xs as [|x xs IH]; intros acc Hacc; simpl.
  - by apply yields_ret.
  - apply (yields_bind_with P); [by apply Hbody|]. intros acc' Hacc'. by apply IH.
Qed.

(** *** [emits_only] *)

Lemma emits_only_ret (P : Event Elem -> Prop) {A} (a : A) :
  emits_only (World:=World) P (ret a).
Proof. intros w. constructor. Qed.

Lemma emits_only_throw (P : Event Elem -> Prop) {A} e :
  emits_only (A:=A) (World:=World) P (throw e).
Proof. intros w. constructor. Qed.

Lemma emits_only_diverge (P : Event Elem -> Prop) {A} :
  emits_only (A:=A) (World:=World) P diverge.
Proof. intros w. constructor. Qed.

Lemma emits_only_read (P : Event Elem -> Prop) {A} (f : World -> result A) :
  emits_only P (read f).
Proof. intros w. constructor. Qed.

Lemma emits_only_command (P : Event Elem -> Prop) ev f :
  P ev -> emits_only (World:=World) P (command ev f).
Proof.
  intros HP w. unfold command, trace_of. destruct (f w) as [r w']. simpl.
  by apply Forall_singleton.
Qed.

Lemma emits_only_bind (P : Event Elem -> Prop) {A B} (m : M A) (k : A -> M B) :
  emits_only P m -> (forall a, emits_only P (k a)) -> emits_only P (bind m k).
Proof.
  intros Hm Hk w. specialize (Hm w). unfold bind, trace_of in *.
  destruct (m w) as [[[a| |] w1] t1]; simpl in *; [|done|done].
  specialize (Hk a w1). unfold trace_of in Hk.
  destruct (k a w1) as [[o w2] t2]. simpl in *. by apply Forall_app.
Qed.

Lemma emits_only_try_except (P : Event Elem -> Prop) {A} (m : M A) (h : exn -> M A) :
  emits_only P m -> (forall e, emits_only P (h e)) -> emits_only P (try_except m h).
Proof.
  intros Hm Hh w. specialize (Hm w). unfold try_except, trace_of in *.
  destruct (m w) as [[[a|e|] w1] t1]; simpl in *; [done| |done].
  specialize (Hh e w1). unfold trace_of in Hh.
  destruct (h e w1) as [[o w2] t2]. simpl in *. by apply Forall_app.
Qed.

Lemma emits_only_for_each (P : Event Elem -> Prop) {X S} (xs : list X)
    (body : S -> X -> M S) acc :
  (forall acc x, emits_only P (body acc x)) -> emits_only P (for_each xs body acc).
Proof.
  intros Hbody. revert acc. induction xs as [|x xs IH]; intros acc; simpl.
  - apply emits_only_ret.
  - apply emits_only_bind; [apply Hbody|apply IH].
Qed.

End yields_facts.

Ltac emits_step :=
  first [ apply emits_only_ret | apply emits_only_throw | apply emits_only_diverge
        | apply emits_only_read
        | apply emits_only_command; done
        | apply emits_only_bind | apply emits_only_try_except
        | apply emits_only_for_each ].

Ltac solve_emits := repeat (intros; first [ emits_step | case_match ]).

(* ===================================================================== *)
(** ** The list [collect_event_urls] returns *)
(* ===================================================================== *)

Global Instance string_le_total : Total string_le.
Proof. intros a b. unfold string_le. apply String.leb_total. Qed.

Section collect_output.
Context {World Elem : Type} {D : Driver World Elem}.
Local Abbreviation M := (@M World Elem).

Lemma valid_url_event_url u : valid_url (Some u) = true -> event_url u.
Proof.
  unfold valid_url, event_url.
  intros [[_ Hbase]%andb_prop Hin]%andb_prop. split; [|done].
  apply negb_true_iff in Hbase. by apply String.eqb_neq.
Qed.

Lemma valid_urls_event_urls urls : all_event_urls (valid_urls urls).
Proof.
  intros u Hu. unfold valid_urls in Hu.
  apply elem_of_list_to_set, list_elem_of_omap in Hu as (o & _ & Ho).
  destruct (valid_url o) eqn:Hvalid; [|done]. subst o.
  by apply valid_url_event_url.
Qed.

Lemma all_event_urls_union s1 s2 :
  all_event_urls s1 -> all_event_urls s2 -> all_event_urls (s1 ∪ s2).
Proof. intros H1 H2 u [?|?]%elem_of_union; auto. Qed.

Lemma yields_visible_urls : yields all_event_urls visible_urls.
Proof.
  unfold visible_urls. apply yields_bind. intros links.
  apply yields_bind. intros urls. apply yields_ret. apply valid_urls_event_urls.
Qed.

Lemma yields_scroll_iteration virtual_scroll step st :
  all_event_urls (all_urls st) ->
  yields (fun st' => all_event_urls (all_urls st')) (scroll_iteration virtual_scroll step st).
Proof.
  intros Hst. unfold scroll_iteration.
  apply yields_bind. intros _. apply yields_bind. intros _.
  apply (yields_bind_with all_event_urls); [apply yields_visible_urls|].
  intros valid Hvalid. apply yields_ret. cbn [all_urls].
  by apply all_event_urls_union.
Qed.

Lemma yields_scroll_loop fuel virtual_scroll step max_position st :
  all_event_urls (all_urls st) ->
  yields (fun st' => all_event_urls (all_urls st'))
         (scroll_loop fuel virtual_scroll step max_position st).
Proof.
  revert st. induction fuel as [|fuel IH]; intros st Hst; cbn [scroll_loop];
    destruct (scroll_continues max_position st); try by apply yields_ret.
  - apply yields_diverge.
  - apply (yields_bind_with (fun st' => all_event_urls (all_urls st')));
      [by apply yields_scroll_iteration|].
    intros st' Hst'. by apply IH.
Qed.

Lemma sorted_spec s : all_event_urls s -> sorted_event_urls (sorted s).
Proof.
  intros Hs. unfold sorted, sorted_event_urls.
  split; [apply Sorted_merge_sort; apply _|]. split.
  - rewrite merge_sort_Permutation. apply NoDup_elements.
  - apply Forall_forall. intros u Hu. apply Hs.
    rewrite merge_sort_Permutation in Hu. by apply elem_of_elements.
Qed.

Lemma yields_collect_attempt fuel :
  yields sorted_event_urls (collect_event_urls_attempt fuel).
Proof.
  unfold collect_event_urls_attempt.
  apply yields_bind. intros _. apply yields_bind. intros _.
  apply yields_bind. intros _. apply yields_bind. intros [virtual_scroll|].
  - apply yields_bind. intros scroll_height. apply yields_bind. intros client_height.
    apply (yields_bind_with (fun st' => all_event_urls (all_urls st'))).
    { apply yields_scroll_loop. cbn [all_urls]. intros u Hu. set_solver. }
    intros st Hst. apply yields_bind. intros _. apply yields_bind. intros _.
    apply (yields_bind_with all_event_urls); [apply yields_visible_urls|].
    intros final Hfinal. apply yields_ret. apply sorted_spec.
    by apply all_event_urls_union.
  - unfold _fallback_collect_urls. apply yields_bind. intros _.
    apply (yields_bind_with all_event_urls); [apply yields_visible_urls|].
    intros urls Hurls. apply yields_ret. by apply sorted_spec.
Qed.

Lemma collected_urls_facts fuel (w : World) urls :
  outcome_of (collect_event_urls fuel w) = Return urls -> Forall event_url urls.
Proof.
  intros Hret.
  apply (yields_retry sorted_event_urls (collect_event_urls_attempt fuel) 3 1
           (yields_collect_attempt fuel) w urls Hret).
Qed.

(** X1.  Whatever the browser does, a list returned by
    [collect_event_urls] is in ascending order, has no URL twice, and
    holds only URLs under [/TriggerEvents/] that are not the list page
    itself. *)
Theorem collected_urls_sorted_distinct_valid (fuel : nat) (w : World) (urls : list string) :
  outcome_of (collect_event_urls fuel w) = Return urls ->
  Sorted string_le urls /\ NoDup urls /\ Forall event_url urls.
Proof.
  intros Hret.
  apply (yields_retry sorted_event_urls (collect_event_urls_attempt fuel) 3 1
           (yields_collect_attempt fuel) w urls Hret).
Qed.

End collect_output.

(** Witness of [collected_urls_sorted_distinct_valid]: the twenty events
    of the virtual list. *)
Lemma collected_urls_sorted_distinct_valid_witness :
  NoDup (map Toy.item_url (seq 0 20)).
Proof.
  exact (proj1 (proj2
    (collected_urls_sorted_distinct_valid (D := Toy.driver Toy.virtual_site) 19 Toy.start
       (map Toy.item_url (seq 0 20)) ltac:(vm_compute; reflexivity)))).
Defined.

(* ===================================================================== *)
(** ** The scan loop, for any geometry *)
(* ===================================================================== *)

Section scan_more.
Context {World Elem : Type} {D : Driver World Elem}.
Local Abbreviation M := (@M World Elem).

(** X2.  For a viewport at least 2 pixels high the scan loop ends:
    with a step of half the viewport it sets the scroll offset at most
    [(scrollHeight - clientHeight) / step + 1] times, and not at all
    when the list is shorter than the viewport. *)
Theorem scan_turns_bounded (fuel : nat) (virtual_scroll : Elem)
    (scroll_height client_height : Z) (w : World) :
  (2 <= client_height)%Z ->
  let scroll_step := (client_height / 2)%Z in
  let max_position := (scroll_height - client_height)%Z in
  let turns := Z.to_nat (max_position / scroll_step + 1) in
  turns <= fuel ->
  let scan :=
    scroll_loop fuel virtual_scroll scroll_step max_position
      {| all_urls := ∅; scroll_position := 0; no_new_urls_count := 0 |} w in
  outcome_of scan <> Diverge /\
  count_events is_set_scroll_top (trace_of scan) <= turns /\
  (scroll_height < client_height -> trace_of scan = [])%Z.
Proof.
  intros Hclient scroll_step max_position turns Hfuel scan.
  assert (Hstep : (0 < scroll_step)%Z).
  { subst scroll_step. apply Z.div_str_pos. lia. }
  destruct (scroll_loop_bound turns fuel virtual_scroll scroll_step max_position
              {| all_urls := ∅; scroll_position := 0; no_new_urls_count := 0 |} w)
    as [Hout Hcount]; [|done|].
  - cbn [scroll_position]. subst turns.
    pose proof (Z.mul_succ_div_gt max_position scroll_step Hstep) as Hgt.
    destruct (Z_lt_le_dec (max_position / scroll_step + 1) 0) as [Hneg|Hpos].
    + replace (Z.to_nat (max_position / scroll_step + 1)) with 0 by lia.
      assert (max_position < 0)%Z; [|lia].
      destruct (Z_lt_le_dec max_position 0); [done|].
      pose proof (Z.div_pos max_position scroll_step ltac:(lia) Hstep). lia.
    + rewrite Z2Nat.id by lia. lia.
  - split; [done|]. split; [done|]. intros Hshort. subst scan.
    destruct fuel; cbn [scroll_loop]; unfold scroll_continues; cbn [scroll_position];
      replace (0 <=? max_position)%Z with false
        by (symmetry; apply Z.leb_gt; subst max_position; lia); done.
Qed.

Lemma scroll_loop_result fuel virtual_scroll step max_position st (w : World) st' :
  outcome_of (scroll_loop fuel virtual_scroll step max_position st w) = Return st' ->
  all_urls st ⊆ all_urls st' /\ scroll_continues max_position st' = false.
Proof.
  revert st w. induction fuel as [|fuel IH]; intros st w; cbn [scroll_loop];
    destruct (scroll_continues max_position st) eqn:Hcont;
    try (intros [= <-]; done); try done.
  intros Hret. apply bind_return_inv in Hret as (st1 & w1 & t1 & Hiter & Hret).
  destruct (scroll_iteration_spec virtual_scroll step st w st1) as (Hsub & _).
  { unfold outcome_of. by rewrite Hiter. }
  destruct (IH st1 w1 Hret) as [Hsub' Hstop]. split; [by etrans|done].
Qed.

(** X3.  When the scan loop returns, no URL it ever held is lost, and
    it has stopped for one of its two reasons: the position is beyond
    the last one, or five turns in a row brought nothing new. *)
Theorem scan_stops_complete (fuel : nat) (virtual_scroll : Elem) (step max_position : Z)
    (st st' : ScrollState) (w : World) :
  outcome_of (scroll_loop fuel virtual_scroll step max_position st w) = Return st' ->
  all_urls st ⊆ all_urls st' /\
  ((max_position < scroll_position st')%Z \/ 5 <= no_new_urls_count st').
Proof.
  intros Hret. destruct (scroll_loop_result _ _ _ _ _ _ _ Hret) as [Hsub Hstop].
  split; [done|]. unfold scroll_continues in Hstop.
  apply andb_false_iff in Hstop as [Hpos|Hcount].
  - left. by apply Z.leb_gt.
  - right. by apply Nat.ltb_ge.
Qed.

(** ** The fallback scroll *)

Lemma at_most_fallback_scroll fuel last_height scroll_attempts :
  at_most is_window_scroll (20 - scroll_attempts)
    (fallback_scroll fuel last_height scroll_attempts).
Proof.
  revert last_height scroll_attempts.
  induction fuel as [|fuel IH]; intros last_height scroll_attempts;
    cbn [fallback_scroll]; destruct (scroll_attempts <? 20) eqn:Hlt;
    try (apply (at_most_weaken _ 0); [lia|apply at_most_ret]).
  - apply (at_most_weaken _ 0); [lia|apply at_most_diverge].
  - apply Nat.ltb_lt in Hlt.
    replace (20 - scroll_attempts) with (1 + (0 + (0 + (20 - (scroll_attempts + 1)))))
      by lia.
    apply at_most_bind; [apply (at_most_command is_window_scroll)|intros _].
    apply at_most_bind; [apply (at_most_command is_window_scroll)|intros _].
    apply at_most_bind; [apply at_most_read|intros new_height].
    destruct (new_height =? last_height)%Z; [|apply IH].
    apply (at_most_weaken _ 0); [lia|apply at_most_ret].
Qed.

Lemma halts_fallback_scroll fuel last_height scroll_attempts :
  20 - scroll_attempts <= fuel ->
  halts (fallback_scroll fuel last_height scroll_attempts).
Proof.
  revert last_height scroll_attempts.
  induction fuel as [|fuel IH]; intros last_height scroll_attempts Hfuel;
    cbn [fallback_scroll]; destruct (scroll_attempts <? 20) eqn:Hlt;
    try apply halts_ret.
  - apply Nat.ltb_lt in Hlt. lia.
  - apply halts_bind; [apply halts_command|intros _].
    apply halts_bind; [apply halts_command|intros _].
    apply halts_bind; [apply halts_read|intros new_height].
    destruct (new_height =? last_height)%Z; [apply halts_ret|apply IH; lia].
Qed.

(** X4.  On a page without a virtual viewport the scraper scrolls the
    window to its end at most 20 times before it reads the links, and
    never runs on beyond that. *)
Theorem fallback_scrolls_bounded (fuel : nat) (w : World) :
  20 <= fuel ->
  outcome_of (_fallback_collect_urls fuel w) <> Diverge /\
  count_events is_window_scroll (trace_of (_fallback_collect_urls fuel w)) <= 20.
Proof.
  intros Hfuel. unfold _fallback_collect_urls. split.
  - apply halts_bind; [apply halts_fallback_scroll; lia|intros _].
    apply halts_bind; [apply halts_visible_urls|intros; apply halts_ret].
  - apply (at_most_bind is_window_scroll 20 0);
      [apply (at_most_fallback_scroll fuel 0 0)|intros _].
    apply (at_most_bind _ 0 0); [apply at_most_visible_urls|intros; apply at_most_ret].
Qed.

End scan_more.

(** Witness of [scan_turns_bounded]: the viewport of 500 pixels over the
    list of twenty events, 5000 pixels high. *)
Lemma scan_turns_bounded_witness :
  count_events is_set_scroll_top
    (trace_of (scroll_loop (D := Toy.driver Toy.virtual_site) 19 Toy.TViewport (500 / 2)
                 (5000 - 500)
                 {| all_urls := ∅; scroll_position := 0; no_new_urls_count := 0 |}
                 Toy.start))
  <= Z.to_nat ((5000 - 500) / (500 / 2) + 1).
Proof.
  exact (proj1 (proj2
    (scan_turns_bounded (D := Toy.driver Toy.virtual_site) 19 Toy.TViewport 5000 500
       Toy.start ltac:(lia) (le_n 19)))).
Defined.

(** Witness of [scan_stops_complete]: the scan of the twenty events ends
    beyond the last position. *)
Lemma scan_stops_complete_witness :
  match outcome_of
          (scroll_loop (D := Toy.driver Toy.virtual_site) 19 Toy.TViewport 250 4500
             {| all_urls := ∅; scroll_position := 0; no_new_urls_count := 0 |}
             {| Toy.tw_url := BASE_URL; Toy.tw_scroll := 0; Toy.tw_clicks := 0 |}) with
  | Return st' => (4500 < scroll_position st')%Z \/ 5 <= no_new_urls_count st'
  | _ => False
  end.
Proof.
  destruct (outcome_of
              (scroll_loop (D := Toy.driver Toy.virtual_site) 19 Toy.TViewport 250 4500
                 {| all_urls := ∅; scroll_position := 0; no_new_urls_count := 0 |}
                 {| Toy.tw_url := BASE_URL; Toy.tw_scroll := 0; Toy.tw_clicks := 0 |}))
    as [st'|e|] eqn:Hscan.
  - exact (proj2 (scan_stops_complete (D := Toy.driver Toy.virtual_site) 19 Toy.TViewport
                    250 4500 _ st' _ Hscan)).
  - vm_compute in Hscan. discriminate.
  - vm_compute in Hscan. discriminate.
Defined.

(** Witness of [fallback_scrolls_bounded]: three events on a page
    without a viewport. *)
Lemma fallback_scrolls_bounded_witness :
  count_events is_window_scroll
    (trace_of (_fallback_collect_urls (D := Toy.driver Toy.plain_site) 20
                 {| Toy.tw_url := BASE_URL; Toy.tw_scroll := 0; Toy.tw_clicks := 0 |}))
  <= 20.
Proof.
  exact (proj2
    (fallback_scrolls_bounded (D := Toy.driver Toy.plain_site) 20
       {| Toy.tw_url := BASE_URL; Toy.tw_scroll := 0; Toy.tw_clicks := 0 |} (le_n 20))).
Defined.

(* ===================================================================== *)
(** ** [close_cookie_banner] *)
(* ===================================================================== *)

Section banner_facts.
Context {World Elem : Type} {D : Driver World Elem}.
Local Abbreviation M := (@M World Elem).

Lemma halts_banner_loop elements : halts (banner_loop elements).
Proof.
  induction elements as [|el rest IH]; cbn [banner_loop]; [apply halts_ret|].
  apply halts_bind; [apply halts_read|intros [cls|]]; [|apply halts_throw].
  apply halts_bind.
  - destruct (_ || _); solve_halts.
  - intros [|]; [solve_halts|apply IH].
Qed.

Lemma emits_banner_loop elements : emits_only banner_command (banner_loop elements).
Proof.
  induction elements as [|el rest IH]; cbn [banner_loop]; [apply emits_only_ret|].
  apply emits_only_bind; [apply emits_only_read|intros [cls|]]; [|apply emits_only_throw].
  apply emits_only_bind.
  - destruct (_ || _); solve_emits.
  - intros [|]; [solve_emits|apply IH].
Qed.

Lemma at_most_banner_loop elements : at_most is_script_click 1 (banner_loop elements).
Proof.
  induction elements as [|el rest IH]; cbn [banner_loop];
    [apply (at_most_weaken _ 0); [lia|apply at_most_ret]|].
  apply (at_most_bind _ 0 1); [apply at_most_read|intros [cls|]];
    [|apply (at_most_weaken _ 0); [lia|apply at_most_throw]].
  apply (at_most_bind _ 0 1).
  - destruct (_ || _); [apply at_most_ret|].
    apply (at_most_bind _ 0 0); [apply at_most_read|intros; apply at_most_ret].
  - intros [|]; [|apply IH].
    apply (at_most_bind _ 1 0); [apply (at_most_command is_script_click)|intros _].
    apply (at_most_bind _ 0 0);
      [apply (at_most_command is_script_click)|intros; apply at_most_ret].
Qed.

Lemma cookie_banner_commands (w : World) :
  Forall banner_command (trace_of (close_cookie_banner w)).
Proof.
  unfold close_cookie_banner.
  apply emits_only_bind; [|intros; apply emits_only_ret].
  apply emits_only_for_each. intros [|] selector; [apply emits_only_ret|].
  apply emits_only_try_except; [|intros; apply emits_only_ret].
  apply emits_only_bind; [apply emits_only_read|intros; apply emits_banner_loop].
Qed.

(** X5.  [close_cookie_banner] never raises, whatever the page does; it
    clicks by script only, at most once per selector, so at most twice,
    and apart from that only sleeps for half a second after a click. *)
Theorem cookie_banner_harmless (w : World) :
  outcome_of (close_cookie_banner w) = Return tt /\
  count_events is_script_click (trace_of (close_cookie_banner w)) <= 2 /\
  Forall banner_command (trace_of (close_cookie_banner w)).
Proof.
  unfold close_cookie_banner. split; [|split].
  - assert (Hsafe : safe close_cookie_banner).
    { unfold close_cookie_banner. apply safe_bind; [|intros; apply safe_ret].
      apply safe_for_each. intros [|] selector; [apply safe_ret|].
      apply safe_try_except; [|intros; apply safe_ret].
      apply halts_bind; [apply halts_read|intros; apply halts_banner_loop]. }
    destruct (Hsafe w) as [[] Hw]. exact Hw.
  - cbn [for_each].
    apply (at_most_bind is_script_click 2 0); [|intros; apply at_most_ret].
    apply (at_most_bind is_script_click 1 1).
    + apply (at_most_try_except _ 1 0); [|intros; apply at_most_ret].
      apply (at_most_bind _ 0 1); [apply at_most_read|intros; apply at_most_banner_loop].
    + intros [|]; [apply (at_most_weaken _ 0); [lia|]|].
      * apply (at_most_bind _ 0 0); [apply at_most_ret|intros; apply at_most_ret].
      * apply (at_most_bind _ 1 0); [|intros; apply at_most_ret].
        apply (at_most_try_except _ 1 0); [|intros; apply at_most_ret].
        apply (at_most_bind _ 0 1); [apply at_most_read|intros; apply at_most_banner_loop].
  - apply cookie_banner_commands.
Qed.

End banner_facts.

(* ===================================================================== *)
(** ** What a page parse sends to the browser *)
(* ===================================================================== *)

Section parse_commands.
Context {World Elem : Type} {D : Driver World Elem}.
Local Abbreviation M := (@M World Elem).

Lemma count_events_none p (t : list (Event Elem)) :
  count_events p t <= 0 -> Forall (fun ev => p ev = false) t.
Proof.
  unfold count_events. induction t as [|ev t IH]; [constructor|].
  simpl. destruct (p ev) eqn:Hp; simpl; [lia|]. intros Hle. constructor; auto.
Qed.

Lemma not_page_command_ignores : ignores_page_commands (not_page_command (Elem:=Elem)).
Proof. repeat split. Qed.

Lemma not_parse_command_ignores url :
  ignores_page_commands (not_parse_command (Elem:=Elem) url).
Proof. repeat split. Qed.

Lemma at_most_parse_attempt_other fuel delay_ms url :
  at_most (not_parse_command url) 0 (parse_event_page_attempt fuel delay_ms url).
Proof.
  pose proof (not_parse_command_ignores url) as Hp.
  unfold parse_event_page_attempt.
  apply (at_most_bind _ 0 0).
  { apply at_most_page_command. cbn. by rewrite String.eqb_refl. }
  intros _.
  apply (at_most_bind _ 0 0); [by apply at_most_random_delay|intros _].
  apply (at_most_bind _ 0 0); [by apply at_most_wait_until|intros _].
  apply (at_most_bind _ 0 0); [apply at_most_read|intros meta].
  apply (at_most_try_except _ 0 0); [|intros; apply at_most_ret].
  apply (at_most_bind _ 0 0); [apply at_most_read|intros table].
  apply (at_most_bind _ 0 0); [by apply at_most_expand_groups|intros; apply at_most_ret].
Qed.

(** X6.  Expanding and flattening a table sends the browser nothing
    but scripts, clicks and sleeps; and a whole page parse, with its
    retries, loads no page but the one it was asked for and likewise
    writes no file and never quits the browser. *)
Theorem parse_stays_on_its_page (fuel : nat) (delay_ms : Z) (url : string)
    (table : Elem) (w : World) :
  Forall page_command (trace_of (expand_groups fuel table w)) /\
  Forall (parse_command url) (trace_of (parse_event_page fuel delay_ms url w)).
Proof.
  split.
  - pose proof (at_most_expand_groups not_page_command not_page_command_ignores
                  fuel table w) as Hnone.
    apply count_events_none in Hnone.
    eapply Forall_impl; [exact Hnone|]. intros [] Hev; done.
  - pose proof (at_most_retry (not_parse_command url) (not_parse_command_ignores url) 0
                  (parse_event_page_attempt fuel delay_ms url) 3 1
                  (at_most_parse_attempt_other fuel delay_ms url) w) as Hnone.
    apply count_events_none in Hnone.
    eapply Forall_impl; [exact Hnone|]. intros [] Hev; try done.
    cbn in Hev. apply negb_false_iff in Hev. by apply String.eqb_eq in Hev.
Qed.

End parse_commands.

(* ===================================================================== *)
(** ** The batch *)
(* ===================================================================== *)

Section batch_facts.
Context {World Elem : Type} {D : Driver World Elem}.
Local Abbreviation M := (@M World Elem).

Lemma bind_inv {A B} (m : M A) (k : A -> M B) (w w2 : World) b t :
  bind m k w = (Return b, w2, t) ->
  exists a w1 t1 t2,
    m w = (Return a, w1, t1) /\ k a w1 = (Return b, w2, t2) /\ t = t1 ++ t2.
Proof.
  unfold bind. destruct (m w) as [[[a|e|] w1] t1]; [|done|done].
  destruct (k a w1) as [[o w2'] t2] eqn:Hk. intros [= -> -> <-].
  by exists a, w1, t1, t2.
Qed.

Lemma try_except_inv {A} (m : M A) (h : exn -> M A) (w w2 : World) a t :
  try_except m h w = (Return a, w2, t) ->
  m w = (Return a, w2, t) \/
  exists e w1 t1 t2,
    m w = (Throw e, w1, t1) /\ h e w1 = (Return a, w2, t2) /\ t = t1 ++ t2.
Proof.
  unfold try_except. destruct (m w) as [[[a'|e|] w1] t1]; [by left| |done].
  destruct (h e w1) as [[o w2'] t2] eqn:Hh. intros [= -> -> <-].
  right. by exists e, w1, t1, t2.
Qed.

Lemma yields_parse_code fuel delay_ms url :
  yields (fun r => forall ev, r = Some ev -> ed_code ev = code_of url)
         (parse_event_page fuel delay_ms url).
Proof.
  unfold parse_event_page, retry. apply yields_retry.
  unfold parse_event_page_attempt.
  apply yields_bind. intros _. apply yields_bind. intros _.
  apply yields_bind. intros _. apply yields_bind. intros meta.
  apply yields_try_except.
  - apply yields_bind. intros table. apply yields_bind. intros segments.
    apply yields_ret. by intros ev [= <-].
  - intros e. apply yields_ret. done.
Qed.

(** One turn of the batch loop either leaves the state as it is or
    records one event: the event of this URL, whose file it has written
    in this turn and whose code was not among the processed ones. *)
Lemma process_url_result fuel delay_ms st url (w w' : World) st' t :
  process_url fuel delay_ms st url w = (Return st', w', t) ->
  st' = st \/
  exists ev,
    st' = {| all_data := all_data st ++ [ev];
             processed_events := processed_events st ∪ {[code_of url]} |} /\
    ed_code ev = code_of url /\
    (code_of url ∉ processed_events st) /\
    In (EvSave (code_of url)) t.
Proof.
  unfold process_url. fold (code_of url).
  destruct (decide (code_of url ∈ processed_events st)) as [Hin|Hnotin];
    [intros [= <- <- <-]; by left|].
  intros Hrun. apply bind_inv in Hrun as (r & w1 & t1 & t2 & Htry & Hrest & ->).
  destruct r as [st1|]; [|injection Hrest as <- <- <-; by left].
  apply bind_inv in Hrest as ([] & w2 & t3 & t4 & _ & Hret & ->).
  injection Hret as <- <- <-.
  apply try_except_inv in Htry as [Hbody|(e & w0 & t0 & t5 & _ & Hh & _)]; [|done].
  apply bind_inv in Hbody as (r & w3 & t5 & t6 & Hparse & Hsave & ->).
  destruct r as [ev|]; [|injection Hsave as <- <- <-; by left].
  apply bind_inv in Hsave as ([] & w4 & t7 & t8 & Hwrite & Hret & ->).
  injection Hret as <- <- <-.
  assert (Hcode : ed_code ev = code_of url).
  { eapply (yields_parse_code fuel delay_ms url w); [|done].
    unfold outcome_of. by rewrite Hparse. }
  right. exists ev. split; [done|]. split; [done|]. split; [done|].
  unfold save_event_data, command in Hwrite.
  destruct (write_event ev w3) as [r w5]. injection Hwrite as _ _ <-.
  rewrite Hcode. apply in_or_app. left. apply in_or_app. right.
  apply in_or_app. left. by left.
Qed.

Lemma batch_loop_spec fuel delay_ms urls st (w w' : World) st' t :
  for_each urls (process_url fuel delay_ms) st w = (Return st', w', t) ->
  exists added,
    all_data st' = all_data st ++ added /\
    processed_events st' = processed_events st ∪ list_to_set (map ed_code added) /\
    NoDup (map ed_code added) /\
    Forall (fun ev => (ed_code ev ∉ processed_events st) /\
                      In (EvSave (ed_code ev)) t /\
                      exists url, In url urls /\ ed_code ev = code_of url) added.
Proof.
  revert st w t. induction urls as [|url urls IH]; intros st w t Hrun.
  - injection Hrun as <- <- <-. exists []. rewrite app_nil_r.
    split; [done|]. split; [cbn; by rewrite union_empty_r_L|]. split; constructor.
  - cbn [for_each] in Hrun.
    apply bind_inv in Hrun as (st1 & w1 & t1 & t2 & Hurl & Hrest & ->).
    apply IH in Hrest as (added & Hdata & Hproc & Hnodup & Hall).
    apply process_url_result in Hurl as [->|(ev & -> & Hcode & Hnew & Hsaved)].
    + exists added. split; [done|]. split; [done|]. split; [done|].
      eapply Forall_impl; [exact Hall|]. intros ev (? & ? & url' & ? & ?).
      split; [done|]. split; [apply in_or_app; by right|].
      exists url'. split; [by right|done].
    + cbn [all_data processed_events] in *.
      exists (ev :: added). rewrite <- app_assoc in Hdata.
      split; [done|]. split.
      { rewrite Hproc. cbn [map list_to_set]. rewrite Hcode.
        by rewrite (assoc_L (∪)). }
      split.
      * cbn [map]. apply NoDup_cons. split; [|done].
        intros Hin. apply list_elem_of_fmap in Hin as (ev' & Heq & Hev').
        rewrite Forall_forall in Hall. destruct (Hall ev' Hev') as (Hnot & _).
        apply Hnot. rewrite <- Heq, Hcode.
        by apply elem_of_union_r, elem_of_singleton.
      * constructor.
        -- rewrite Hcode. split; [done|]. split; [apply in_or_app; by left|].
           exists url. split; [by left|done].
        -- eapply Forall_impl; [exact Hall|]. intros ev' (Hnot & ? & url' & ? & ?).
           split; [intros HinP; apply Hnot; by apply elem_of_union_l|].
           split; [apply in_or_app; by right|].
           exists url'. split; [by right|done].
Qed.

Lemma try_finally_inv {A} (m : M A) (cleanup : M unit) (w w' : World) a t :
  try_finally m cleanup w = (Return a, w', t) ->
  exists w1 t1 t2, m w = (Return a, w1, t1) /\ trace_of (cleanup w1) = t2 /\ t = t1 ++ t2.
Proof.
  unfold try_finally. destruct (m w) as [[[a'|e|] w1] t1]; [| |done].
  - destruct (cleanup w1) as [[[[]|e|] w2] t2] eqn:Hc; [|done|done].
    intros [= -> -> <-]. exists w1, t1, t2. by rewrite Hc.
  - by destruct (cleanup w1) as [[[[]|e'|] w2] t2].
Qed.

Lemma limit_urls_prefix limit urls : exists rest, urls = limit_urls limit urls ++ rest.
Proof.
  unfold limit_urls. destruct limit as [n|]; [|exists []; by rewrite app_nil_r].
  destruct (n =? 0)%Z; [exists []; by rewrite app_nil_r|].
  destruct (0 <? n)%Z; eexists; symmetry; apply take_drop.
Qed.

(** X7.  The events [run] returns have pairwise different codes; none
    of them was among the events already processed when the run
    started; the file of each was written during the run; and each is
    the event of a URL under [/TriggerEvents/] that is not the list
    page. *)
Theorem run_records_each_event_once (fuel : nat) (delay_ms : Z) (limit : option Z)
    (processed : gset string) (w : World) (events : list EventData) :
  outcome_of (run fuel delay_ms limit processed w) = Return events ->
  NoDup (map ed_code events) /\
  Forall (fun ev =>
            (ed_code ev ∉ processed) /\
            In (EvSave (ed_code ev)) (trace_of (run fuel delay_ms limit processed w)) /\
            exists url, event_url url /\ ed_code ev = code_of url) events.
Proof.
  intros Hret. unfold outcome_of, trace_of in *.
  destruct (run fuel delay_ms limit processed w) as [[o w'] t] eqn:Hrun.
  simpl in Hret. subst o. unfold run in Hrun.
  apply try_finally_inv in Hrun as (w1 & t1 & t2 & Hbody & _ & ->).
  apply bind_inv in Hbody as (urls & w2 & t3 & t4 & Hcollect & Hbody & ->).
  apply bind_inv in Hbody as (st & w3 & t5 & t6 & Hloop & Hbody & ->).
  apply bind_inv in Hbody as ([] & w4 & t7 & t8 & _ & Hdone & ->).
  injection Hdone as <- _ _.
  apply batch_loop_spec in Hloop as (added & Hdata & _ & Hnodup & Hall).
  cbn [all_data processed_events] in *. rewrite Hdata. cbn [app].
  split; [done|].
  assert (Hurls : Forall event_url urls).
  { eapply (collected_urls_facts fuel w). unfold outcome_of. by rewrite Hcollect. }
  destruct (limit_urls_prefix limit urls) as [rest Hrest].
  rewrite Hrest in Hurls. apply Forall_app in Hurls as [Hurls _].
  eapply Forall_impl; [exact Hall|]. intros ev (Hnew & Hsaved & url & Hin & Hcode).
  split; [done|]. split.
  - simpl. apply in_or_app. left. apply in_or_app. right. apply in_or_app. by left.
  - exists url. split; [|done]. rewrite Forall_forall in Hurls.
    apply Hurls. by apply list_elem_of_In.
Qed.

End batch_facts.

(** Witness of [run_records_each_event_once]: three events, of which
    the second fails; the run returns the other two. *)
Lemma run_records_each_event_once_witness :
  match outcome_of (run (D := Toy.driver Toy.flaky_site) 15 500 None ∅ Toy.start) with
  | Return events => NoDup (map ed_code events)
  | _ => False
  end.
Proof.
  destruct (outcome_of (run (D := Toy.driver Toy.flaky_site) 15 500 None ∅ Toy.start))
    as [events|e|] eqn:Hrun.
  - exact (proj1 (run_records_each_event_once (D := Toy.driver Toy.flaky_site) 15 500 None
                    ∅ Toy.start events Hrun)).
  - vm_compute in Hrun. discriminate.
  - vm_compute in Hrun. discriminate.
Defined.

(* ===================================================================== *)
(** ** The paths of the records *)
(* ===================================================================== *)

Lemma group_codes_app segs1 segs2 :
  group_codes (segs1 ++ segs2) = group_codes segs1 ++ group_codes segs2.
Proof. unfold group_codes. by rewrite List.filter_app, map_app. Qed.

Lemma paths_of_groups_step st row :
  wf_state st -> paths_of_groups st -> paths_of_groups (flatten_row st row).
Proof.
  intros Hwf [Hstack Hpaths].
  destruct (flatten_row_spec st row Hwf) as (Hwf' & Hlen & Hframe & Hstep).
  destruct Hwf as [Hgs Hall].
  assert (Hold : forall i s, fs_segments st !! i = Some s ->
            Store.get (fs_heap (flatten_row st row)) (group_path s)
            = Store.get (fs_heap st) (group_path s)).
  { intros i s Hs. rewrite Forall_forall in Hall.
    destruct (Hall s) as [Hlt Hne]; [by eapply list_elem_of_lookup_2|].
    by apply Hframe. }
  destruct (parsed st row) as [seg|].
  - destruct Hstep as (Hsegs & _ & _ & Hpath & Hstack').
    split.
    + rewrite Hstack', Hsegs, group_codes_app.
      unfold group_codes at 2. cbn [List.filter].
      destruct (is_group seg); cbn [map].
      * apply sublist_app; [|done]. etrans; [apply sublist_take|done].
      * rewrite app_nil_r. done.
    + intros i s Hs. rewrite Hsegs in Hs |- *.
      apply lookup_snoc_Some in Hs as [[Hi Hs]|[-> <-]].
      * rewrite (Hold i s Hs). rewrite take_app_le by lia. by apply Hpaths.
      * rewrite Hpath, take_app_length. split.
        -- rewrite length_take. lia.
        -- etrans; [apply sublist_take|done].
  - destruct Hstep as (Hsegs & _ & Hgs' & extra & Hheap).
    split.
    + unfold stack_of. rewrite Hgs', Hsegs, Hheap. by rewrite get_app_l.
    + intros i s Hs. rewrite Hsegs in Hs |- *.
      rewrite (Hold i s Hs). by apply Hpaths.
Qed.

Lemma paths_of_groups_flatten rows : paths_of_groups (flatten rows).
Proof.
  induction rows as [|row pre IH] using rev_ind.
  - split; [apply sublist_nil_l|]. intros i s Hs. done.
  - rewrite flatten_snoc. apply paths_of_groups_step; [apply wf_flatten|done].
Qed.

Lemma sd_group_codes_emitted h segs :
  sd_group_codes (map (segment_data h) segs) = group_codes segs.
Proof.
  unfold sd_group_codes, group_codes.
  induction segs as [|s segs IH]; [done|].
  cbn [map List.filter segment_data sd_is_group]. destruct (is_group s); cbn [map sd_code].
  - by rewrite IH.
  - exact IH.
Qed.

Lemma fallback_lines_flat lines i :
  Forall (fun r => sd_level r = 0 /\ sd_group_path r = [] /\ sd_is_group r = false)
         (fallback_lines lines i).
Proof.
  revert i. induction lines as [|line rest IH]; intros i; [constructor|].
  cbn [fallback_lines]. case_match; [apply IH|]. case_match; [apply IH|].
  constructor; [done|apply IH].
Qed.

(** X9.  In the output of one pass the [group_path] of a record never
    has more entries than the record's level, and its entries are, in
    order, codes of group headers that come before the record in the
    output. *)
Theorem group_path_lists_earlier_groups (table_rows : string -> result (list Row))
    (table_text : result string) (i : nat) (r : SegmentData) :
  extract_segments table_rows table_text !! i = Some r ->
  length (sd_group_path r) <= sd_level r /\
  sd_group_path r `sublist_of`
    sd_group_codes (take i (extract_segments table_rows table_text)).
Proof.
  unfold extract_segments.
  destruct (first_nonempty table_rows row_selectors) as [[|row rows]|e]; [| |done].
  - unfold _parse_table_text_fallback. destruct table_text as [text|]; [|done].
    intros Hr. apply list_elem_of_lookup_2 in Hr.
    pose proof (fallback_lines_flat
                  (map PyStr.strip
                     (List.filter (fun line => PyStr.truthy (PyStr.strip line))
                        (PyStr.split_lines (PyStr.strip text)))) 0) as Hflat.
    rewrite Forall_forall in Hflat. destruct (Hflat r Hr) as (-> & -> & _).
    split; [done|apply sublist_nil_l].
  - set (st := flatten (row :: rows)).
    destruct (paths_of_groups_flatten (row :: rows)) as [_ Hpaths]. fold st in Hpaths.
    unfold emitted. intros Hr.
    apply list_lookup_fmap_Some in Hr as (s & -> & Hs).
    destruct (Hpaths i s Hs) as [Hlen Hsub].
    cbn [segment_data sd_group_path sd_level]. split; [done|].
    rewrite <- fmap_take. change (fmap (segment_data (fs_heap st))) with
      (map (segment_data (fs_heap st))).
    by rewrite sd_group_codes_emitted.
Qed.

(** Witness of [group_path_lists_earlier_groups]: the third record of
    the tree A > B > C. *)
Lemma group_path_lists_earlier_groups_witness :
  ["AAAA"; "BBBB"] `sublist_of` ["AAAA"; "BBBB"].
Proof.
  exact (proj2
    (group_path_lists_earlier_groups
       (fun sel => if String.eqb sel ".flex-segment" then Ok Fixtures.abc_rows else Ok [])
       (Ok EmptyString) 2
       {| sd_code := "CCCC"; sd_desc := "CCCC group"; sd_optionality := "R";
          sd_repeatability := "inf"; sd_is_group := true;
          sd_group_path := ["AAAA"; "BBBB"]; sd_level := 2; sd_order_index := 2 |}
       ltac:(vm_compute; reflexivity))).
Defined.

(* ===================================================================== *)
(** ** What a whole run sends *)
(* ===================================================================== *)

Section harvest_commands.
Context {World Elem : Type} {D : Driver World Elem}.
Local Abbreviation M := (@M World Elem).

Lemma at_most_bind_with p n1 n2 {A B} (Q : A -> Prop) (m : M A) (k : A -> M B) :
  yields Q m -> at_most p n1 m -> (forall a, Q a -> at_most p n2 (k a)) ->
  at_most p (n1 + n2) (bind m k).
Proof.
  intros HQ Hm Hk w. specialize (Hm w). specialize (HQ w).
  unfold bind, trace_of, outcome_of in *.
  destruct (m w) as [[[a| |] w1] t1]; simpl in *; [|lia|lia].
  specialize (Hk a (HQ a eq_refl) w1). unfold trace_of in Hk.
  destruct (k a w1) as [[o w2] t2]. simpl in *. rewrite count_events_app. lia.
Qed.

Lemma at_most_try_finally p n1 n2 {A} (m : M A) (cleanup : M unit) :
  at_most p n1 m -> at_most p n2 cleanup -> at_most p (n1 + n2) (try_finally m cleanup).
Proof.
  intros Hm Hc w. specialize (Hm w). unfold try_finally, trace_of in *.
  destruct (m w) as [[o w1] t1]. simpl in Hm.
  specialize (Hc w1). unfold trace_of in Hc.
  destruct o as [a|e|]; [| |simpl; lia];
    destruct (cleanup w1) as [[[[]|e'|] w2] t2]; simpl in *;
    rewrite count_events_app; lia.
Qed.

(** A loop sends at most as much as its turns together. *)
Lemma at_most_for_each_sum p n {X S} (xs : list X) (body : S -> X -> M S) acc :
  (forall acc x, at_most p n (body acc x)) ->
  at_most p (length xs * n) (for_each xs body acc).
Proof.
  intros Hbody. revert acc. induction xs as [|x xs IH]; intros acc; simpl.
  - apply at_most_ret.
  - apply at_most_bind; [apply Hbody|intros; apply IH].
Qed.

(** A loop whose turns keep [I] and send nothing that satisfies [p]
    while [I] holds sends nothing that satisfies [p]. *)
Lemma at_most_for_each_inv p {X S} (I : S -> Prop) (xs : list X) (body : S -> X -> M S) acc :
  I acc ->
  (forall acc x, I acc -> yields I (body acc x)) ->
  (forall acc x, I acc -> at_most p 0 (body acc x)) ->
  at_most p 0 (for_each xs body acc).
Proof.
  intros Hacc Hkeep Hbody. revert acc Hacc.
  induction xs as [|x xs IH]; intros acc Hacc; simpl.
  - apply at_most_ret.
  - apply (at_most_bind_with p 0 0 I); [by apply Hkeep|by apply Hbody|].
    intros acc' Hacc'. by apply IH.
Qed.

Lemma count_events_not_in p (ev : Event Elem) t :
  p ev = true -> count_events p t <= 0 -> ~ In ev t.
Proof.
  intros Hev Hnone Hin. apply count_events_none in Hnone.
  rewrite Forall_forall in Hnone. apply list_elem_of_In in Hin.
  specialize (Hnone ev Hin). congruence.
Qed.

Section any_test.
Variable p : Event Elem -> bool.
Hypothesis Hp : ignores_page_commands p.

Lemma quiet_scroll_loop fuel virtual_scroll step max_position st :
  at_most p 0 (scroll_loop fuel virtual_scroll step max_position st).
Proof.
  revert st. induction fuel as [|fuel IH]; intros st; cbn [scroll_loop];
    destruct (scroll_continues max_position st); try apply at_most_ret.
  - apply at_most_diverge.
  - apply (at_most_bind _ 0 0); [|intros; apply IH].
    unfold scroll_iteration.
    apply (at_most_bind _ 0 0); [by apply at_most_script|intros _].
    apply (at_most_bind _ 0 0); [by apply at_most_sleep|intros _].
    apply (at_most_bind _ 0 0); [apply at_most_visible_urls|intros; apply at_most_ret].
Qed.

Lemma quiet_fallback_scroll fuel last_height scroll_attempts :
  at_most p 0 (fallback_scroll fuel last_height scroll_attempts).
Proof.
  revert last_height scroll_attempts.
  induction fuel as [|fuel IH]; intros last_height scroll_attempts;
    cbn [fallback_scroll]; destruct (scroll_attempts <? 20); try apply at_most_ret.
  - apply at_most_diverge.
  - apply (at_most_bind _ 0 0); [by apply at_most_script|intros _].
    apply (at_most_bind _ 0 0); [by apply at_most_sleep|intros _].
    apply (at_most_bind _ 0 0); [apply at_most_read|intros new_height].
    destruct (new_height =? last_height)%Z; [apply at_most_ret|apply IH].
Qed.

Lemma quiet_banner : at_most p 0 close_cookie_banner.
Proof.
  intros w. pose proof (cookie_banner_commands w) as Hall.
  unfold count_events. apply Nat.le_0_r, length_zero_iff_nil.
  destruct Hp as (Hscript & _ & _ & Hsleep).
  induction Hall as [|ev t Hev _ IH]; [done|].
  simpl. destruct ev as [| s | | | ms | | |]; try done.
  - by rewrite Hscript.
  - by rewrite Hsleep.
Qed.

Lemma at_most_collect_attempt fuel :
  at_most p (cost p (EvGet BASE_URL)) (collect_event_urls_attempt fuel).
Proof.
  unfold collect_event_urls_attempt.
  replace (cost p (EvGet BASE_URL)) with (cost p (EvGet BASE_URL) + 0) by lia.
  apply at_most_bind; [apply (at_most_command p)|intros _].
  apply (at_most_bind _ 0 0); [by apply at_most_wait_until|intros _].
  apply (at_most_bind _ 0 0); [apply quiet_banner|intros _].
  apply (at_most_bind _ 0 0).
  { apply (at_most_try_except _ 0 0).
    - apply (at_most_bind _ 0 0); [by apply at_most_wait_until|intros; apply at_most_ret].
    - intros e. destruct (is_timeout e); [apply at_most_ret|apply at_most_throw]. }
  intros [virtual_scroll|].
  - apply (at_most_bind _ 0 0); [apply at_most_read|intros scroll_height].
    apply (at_most_bind _ 0 0); [apply at_most_read|intros client_height].
    apply (at_most_bind _ 0 0); [apply quiet_scroll_loop|intros st].
    apply (at_most_bind _ 0 0); [by apply at_most_script|intros _].
    apply (at_most_bind _ 0 0); [by apply at_most_sleep|intros _].
    apply (at_most_bind _ 0 0); [apply at_most_visible_urls|intros; apply at_most_ret].
  - unfold _fallback_collect_urls.
    apply (at_most_bind _ 0 0); [apply quiet_fallback_scroll|intros _].
    apply (at_most_bind _ 0 0); [apply at_most_visible_urls|intros; apply at_most_ret].
Qed.

(** Collecting the URLs loads the list page, at most three times. *)
Lemma at_most_collect fuel :
  at_most p (3 * cost p (EvGet BASE_URL)) (collect_event_urls fuel).
Proof.
  unfold collect_event_urls, retry. apply (at_most_retry p Hp).
  apply at_most_collect_attempt.
Qed.

Lemma at_most_parse_attempt_of fuel delay_ms url :
  at_most p (cost p (EvGet url)) (parse_event_page_attempt fuel delay_ms url).
Proof.
  unfold parse_event_page_attempt.
  replace (cost p (EvGet url)) with (cost p (EvGet url) + 0) by lia.
  apply at_most_bind; [apply (at_most_command p)|intros _].
  apply (at_most_bind _ 0 0); [by apply at_most_random_delay|intros _].
  apply (at_most_bind _ 0 0); [by apply at_most_wait_until|intros _].
  apply (at_most_bind _ 0 0); [apply at_most_read|intros meta].
  apply (at_most_try_except _ 0 0); [|intros; apply at_most_ret].
  apply (at_most_bind _ 0 0); [apply at_most_read|intros table].
  apply (at_most_bind _ 0 0); [by apply at_most_expand_groups|intros; apply at_most_ret].
Qed.

(** One turn of the batch loop loads the page of its URL at most three
    times and writes at most the file of that event. *)
Lemma at_most_process_url fuel delay_ms st url :
  at_most p (3 * cost p (EvGet url) + cost p (EvSave (code_of url)))
    (process_url fuel delay_ms st url).
Proof.
  unfold process_url. fold (code_of url).
  destruct (decide _); [eapply at_most_weaken; [|apply at_most_ret]; lia|].
  replace (3 * cost p (EvGet url) + cost p (EvSave (code_of url)))
    with ((3 * cost p (EvGet url) + cost p (EvSave (code_of url)) + 0) + 0) by lia.
  apply at_most_bind.
  - apply at_most_try_except; [|intros; apply at_most_ret].
    eapply at_most_bind_with; [apply yields_parse_code| |].
    + unfold parse_event_page, retry. apply (at_most_retry p Hp).
      apply at_most_parse_attempt_of.
    + intros [ev|] Hcode; [|eapply at_most_weaken; [|apply at_most_ret]; lia].
      replace (cost p (EvSave (code_of url))) with (cost p (EvSave (code_of url)) + 0)
        by lia.
      apply at_most_bind; [|intros; apply at_most_ret].
      unfold save_event_data. rewrite (Hcode ev eq_refl).
      apply (at_most_command p).
  - intros [st'|]; [|apply at_most_ret].
    apply (at_most_bind _ 0 0); [by apply at_most_random_delay|intros; apply at_most_ret].
Qed.

End any_test.

End harvest_commands.

Section run_facts_more.
Context {World Elem : Type} {D : Driver World Elem}.
Local Abbreviation M := (@M World Elem).

Lemma is_get_of_ignores url : ignores_page_commands (is_get_of (Elem:=Elem) url).
Proof. repeat split. Qed.

Lemma is_save_of_ignores code : ignores_page_commands (is_save_of (Elem:=Elem) code).
Proof. repeat split. Qed.

Lemma is_save_ignores : ignores_page_commands (is_save (Elem:=Elem)).
Proof. repeat split. Qed.

Lemma is_write_ignores : ignores_page_commands (is_write (Elem:=Elem)).
Proof. repeat split. Qed.

Lemma is_final_ignores : ignores_page_commands (is_final (Elem:=Elem)).
Proof. repeat split. Qed.

Lemma process_url_keeps_processed fuel delay_ms code st url :
  code ∈ processed_events st ->
  yields (fun st' => code ∈ processed_events st') (process_url fuel delay_ms st url).
Proof.
  intros Hin w st' Hret. unfold outcome_of in Hret.
  destruct (process_url fuel delay_ms st url w) as [[o w'] t] eqn:Hrun.
  simpl in Hret. subst o.
  apply process_url_result in Hrun as [->|(ev & -> & _)]; [done|].
  cbn [processed_events]. by apply elem_of_union_l.
Qed.

(** A run that starts with [code] among the processed events sends
    nothing that only the work on [code] could send. *)
Lemma quiet_run p fuel delay_ms limit (processed : gset string) code :
  ignores_page_commands p ->
  code ∈ processed ->
  p (EvGet BASE_URL) = false -> p EvSaveMaster = false -> p EvQuit = false ->
  (forall url, code_of url <> code ->
     p (EvGet url) = false /\ p (EvSave (code_of url)) = false) ->
  at_most p 0 (run fuel delay_ms limit processed).
Proof.
  intros Hp Hin Hbase Hmaster Hquit Hother. unfold run.
  apply (at_most_try_finally p 0 0); [|by apply at_most_page_command].
  apply (at_most_bind p 0 0).
  { eapply at_most_weaken; [|by apply at_most_collect].
    unfold cost. rewrite Hbase. lia. }
  intros urls. apply (at_most_bind p 0 0).
  - apply (at_most_for_each_inv p (fun st => code ∈ processed_events st)).
    + done.
    + intros st url Hst. by apply process_url_keeps_processed.
    + intros st url Hst. destruct (decide (code_of url = code)) as [Heq|Hne].
      * unfold process_url. fold (code_of url). rewrite Heq.
        destruct (decide _); [apply at_most_ret|done].
      * eapply at_most_weaken; [|by apply at_most_process_url].
        destruct (Hother url Hne) as [Hget Hsave]. unfold cost.
        rewrite Hget, Hsave. lia.
  - intros st. apply (at_most_bind p 0 0); [by apply at_most_page_command|].
    intros; apply at_most_ret.
Qed.

(** X10.  With [resume], an event whose file is already there is left
    alone: the run never loads a page that has its code, the list page
    apart, and never writes its file again. *)
Theorem processed_event_left_alone (fuel : nat) (delay_ms : Z) (limit : option Z)
    (processed : gset string) (w : World) (code : string) :
  code ∈ processed ->
  ~ In (EvSave code) (trace_of (run fuel delay_ms limit processed w)) /\
  forall url, code_of url = code -> url <> BASE_URL ->
    ~ In (EvGet url) (trace_of (run fuel delay_ms limit processed w)).
Proof.
  intros Hin. split.
  - apply (count_events_not_in (is_save_of code));
      [unfold is_save_of; apply String.eqb_refl|].
    apply (quiet_run _ fuel delay_ms limit processed code);
      [apply is_save_of_ignores|done|done|done|done|].
    intros url Hne. split; [done|]. unfold is_save_of. by apply String.eqb_neq.
  - intros url Hcode Hurl.
    apply (count_events_not_in (is_get_of url));
      [unfold is_get_of; apply String.eqb_refl|].
    apply (quiet_run _ fuel delay_ms limit processed code);
      [apply is_get_of_ignores|done| |done|done|].
    + unfold is_get_of. apply String.eqb_neq. congruence.
    + intros url' Hne. split; [|done]. unfold is_get_of. apply String.eqb_neq. congruence.
Qed.

Lemma length_limit_urls n urls : (0 < n)%Z -> length (limit_urls (Some n) urls) <= Z.to_nat n.
Proof.
  intros Hn. unfold limit_urls.
  replace (n =? 0)%Z with false by (symmetry; apply Z.eqb_neq; lia).
  replace (0 <? n)%Z with true by (symmetry; apply Z.ltb_lt; lia).
  rewrite length_take. lia.
Qed.

Lemma at_most_run_limited p fuel delay_ms n (processed : gset string) k :
  ignores_page_commands p -> (0 < n)%Z ->
  (forall st url, at_most p k (process_url fuel delay_ms st url)) ->
  at_most p (3 * cost p (EvGet BASE_URL) + (Z.to_nat n * k + (cost p EvSaveMaster + 0))
             + cost p EvQuit)
    (run fuel delay_ms (Some n) processed).
Proof.
  intros Hp Hn Hbody. unfold run.
  apply at_most_try_finally; [|apply (at_most_command p)].
  apply at_most_bind; [by apply at_most_collect|intros urls].
  apply at_most_bind.
  - eapply at_most_weaken; [|by apply at_most_for_each_sum].
    apply Nat.mul_le_mono_r. by apply length_limit_urls.
  - intros st. apply at_most_bind; [apply (at_most_command p)|intros; apply at_most_ret].
Qed.

(** X11.  With a limit of [n] events, [n] positive, a run writes at
    most [n] event files, loads at most [3 + 3 * n] pages, the list
    page and its retries included, and returns at most [n] events. *)
Theorem limit_bounds_the_work (fuel : nat) (delay_ms n : Z) (processed : gset string)
    (w : World) :
  (0 < n)%Z ->
  count_events is_save (trace_of (run fuel delay_ms (Some n) processed w)) <= Z.to_nat n /\
  count_events is_get (trace_of (run fuel delay_ms (Some n) processed w))
    <= 3 + 3 * Z.to_nat n /\
  forall events, outcome_of (run fuel delay_ms (Some n) processed w) = Return events ->
    length events <= Z.to_nat n.
Proof.
  intros Hn. split; [|split].
  - pose proof (at_most_run_limited is_save fuel delay_ms n processed 1
                  is_save_ignores Hn) as Hrun.
    etrans; [apply Hrun|cbn; lia].
    intros st url. eapply at_most_weaken; [|apply at_most_process_url, is_save_ignores].
    cbn. lia.
  - pose proof (at_most_run_limited is_get fuel delay_ms n processed 3
                  is_get_ignores_page_commands Hn) as Hrun.
    etrans; [apply Hrun|cbn; lia].
    intros st url.
    eapply at_most_weaken; [|apply at_most_process_url, is_get_ignores_page_commands].
    cbn. lia.
  - intros events Hret. unfold outcome_of in Hret.
    destruct (run fuel delay_ms (Some n) processed w) as [[o w'] t] eqn:Hrun.
    simpl in Hret. subst o. unfold run in Hrun.
    apply try_finally_inv in Hrun as (w1 & t1 & t2 & Hbody & _ & ->).
    apply bind_inv in Hbody as (urls & w2 & t3 & t4 & Hcollect & Hbody & ->).
    apply bind_inv in Hbody as (st & w3 & t5 & t6 & Hloop & Hbody & ->).
    apply bind_inv in Hbody as ([] & w4 & t7 & t8 & _ & Hdone & ->).
    injection Hdone as <- _ _.
    apply batch_loop_spec in Hloop as (added & Hdata & _ & Hnodup & Hall).
    cbn [all_data app] in Hdata. rewrite Hdata.
    etrans; [|apply (length_limit_urls n urls Hn)].
    rewrite <- (length_map ed_code added), <- (length_map code_of (limit_urls _ urls)).
    apply NoDup_incl_length; [by apply NoDup_ListNoDup|].
    intros c Hc. apply in_map_iff in Hc as (ev & <- & Hev).
    rewrite Forall_forall in Hall. apply list_elem_of_In in Hev.
    destruct (Hall ev Hev) as (_ & _ & url & Hurl & ->).
    by apply in_map.
Qed.

Lemma command_inv ev f (w w' : World) (a : unit) (t : list (Event Elem)) :
  command ev f w = (Return a, w', t) -> t = [ev].
Proof. unfold command. destruct (f w) as [[[]|e] w1]; [|done]. by intros [= _ _ <-]. Qed.

Lemma no_final_is_neither (t : list (Event Elem)) :
  count_events is_final t <= 0 ->
  Forall (fun ev => ev <> EvSaveMaster /\ ev <> EvQuit) t.
Proof.
  intros Hnone. apply count_events_none in Hnone.
  eapply Forall_impl; [exact Hnone|]. intros ev Hev. split; intros ->; done.
Qed.

(** X12.  A run that returns has written the master file exactly once,
    after every page load and every event file, and has then closed
    the browser: its last two commands are the write of the master
    file and [quit], and neither occurs before. *)
Theorem master_file_written_last (fuel : nat) (delay_ms : Z) (limit : option Z)
    (processed : gset string) (w : World) (events : list EventData) :
  outcome_of (run fuel delay_ms limit processed w) = Return events ->
  exists t,
    trace_of (run fuel delay_ms limit processed w) = t ++ [EvSaveMaster; EvQuit] /\
    Forall (fun ev => ev <> EvSaveMaster /\ ev <> EvQuit) t.
Proof.
  intros Hret. unfold outcome_of, trace_of in *.
  destruct (run fuel delay_ms limit processed w) as [[o w'] t] eqn:Hrun.
  simpl in Hret. subst o. unfold run in Hrun.
  apply try_finally_inv in Hrun as (w1 & t1 & t2 & Hbody & Hquit & ->).
  apply bind_inv in Hbody as (urls & w2 & t3 & t4 & Hcollect & Hbody & ->).
  apply bind_inv in Hbody as (st & w3 & t5 & t6 & Hloop & Hbody & ->).
  apply bind_inv in Hbody as ([] & w4 & t7 & t8 & Hmaster & Hdone & ->).
  injection Hdone as _ _ <-. apply command_inv in Hmaster as ->.
  assert (Hq : t2 = [EvQuit]).
  { subst t2. unfold command, trace_of. by destruct (quit w1). }
  subst t2. exists (t3 ++ t5). simpl. rewrite Hq. split.
  { by rewrite <- !app_assoc. }
  apply no_final_is_neither. rewrite count_events_app.
  pose proof (at_most_collect is_final is_final_ignores fuel w) as H3.
  unfold trace_of in H3. rewrite Hcollect in H3. simpl in H3.
  pose proof (at_most_for_each_sum is_final 0 (limit_urls limit urls)
                (process_url fuel delay_ms)
                {| all_data := []; processed_events := processed |}) as H5.
  specialize (H5 (fun st url => at_most_process_url is_final is_final_ignores
                                  fuel delay_ms st url) w2).
  unfold trace_of in H5. rewrite Hloop in H5. simpl in H5.
  cbn in H3. lia.
Qed.

(** X13.  When the URLs cannot be collected the run raises, and
    nothing is written: no event file and no master file. *)
Theorem failed_collection_writes_nothing (fuel : nat) (delay_ms : Z) (limit : option Z)
    (processed : gset string) (w : World) (e : exn) :
  outcome_of (collect_event_urls fuel w) = Throw e ->
  (exists e', outcome_of (run fuel delay_ms limit processed w) = Throw e') /\
  count_events is_write (trace_of (run fuel delay_ms limit processed w)) = 0.
Proof.
  intros Hthrow.
  pose proof (at_most_collect is_write is_write_ignores fuel w) as Hnone.
  unfold run, try_finally, bind, command, outcome_of, trace_of in *.
  destruct (collect_event_urls fuel w) as [[o w1] t1]. simpl in Hthrow. subst o.
  simpl in Hnone. cbn in Hnone.
  destruct (quit w1) as [[[]|e'] w2]; cbn [of_result fst snd];
    (split; [eauto|rewrite count_events_app; cbn; lia]).
Qed.

End run_facts_more.

(** Witness of [processed_event_left_alone]: a resumed run over three
    events, the first of which is already there. *)
Lemma processed_event_left_alone_witness :
  ~ In (EvSave "E00")
       (trace_of (run (D := Toy.driver Toy.flaky_site) 15 500 None
                    ({["E00"]} : gset string) Toy.start)).
Proof.
  exact (proj1
    (processed_event_left_alone (D := Toy.driver Toy.flaky_site) 15 500 None
       ({["E00"]} : gset string) Toy.start "E00"
       (proj2 (elem_of_singleton (C := gset string) "E00" "E00") eq_refl))).
Defined.

(** Witness of [limit_bounds_the_work]: the first two of twenty events. *)
Lemma limit_bounds_the_work_witness :
  count_events is_save
    (trace_of (run (D := Toy.driver Toy.virtual_site) 19 500 (Some 2%Z)
                 (∅ : gset string) Toy.start)) <= Z.to_nat 2.
Proof.
  exact (proj1
    (limit_bounds_the_work (D := Toy.driver Toy.virtual_site) 19 500 2
       (∅ : gset string) Toy.start ltac:(lia))).
Defined.

(** Witness of [master_file_written_last]: three events, one of which
    fails. *)
Lemma master_file_written_last_witness :
  match outcome_of (run (D := Toy.driver Toy.flaky_site) 15 500 None ∅ Toy.start) with
  | Return _ =>
      exists t,
        trace_of (run (D := Toy.driver Toy.flaky_site) 15 500 None ∅ Toy.start)
        = t ++ [EvSaveMaster; EvQuit] /\
        Forall (fun ev => ev <> EvSaveMaster /\ ev <> EvQuit) t
  | _ => False
  end.
Proof.
  destruct (outcome_of (run (D := Toy.driver Toy.flaky_site) 15 500 None ∅ Toy.start))
    as [events|e|] eqn:Hrun.
  - exact (master_file_written_last (D := Toy.driver Toy.flaky_site) 15 500 None
             ∅ Toy.start events Hrun).
  - vm_compute in Hrun. discriminate.
  - vm_compute in Hrun. discriminate.
Defined.

(** Witness of [failed_collection_writes_nothing]: a site without
    events. *)
Lemma failed_collection_writes_nothing_witness :
  count_events is_write
    (trace_of (run (D := Toy.driver Toy.empty_site) 15 500 None (∅ : gset string)
                 Toy.start)) = 0.
Proof.
  exact (proj2
    (failed_collection_writes_nothing (D := Toy.driver Toy.empty_site) 15 500 None
       (∅ : gset string) Toy.start RetryError ltac:(vm_compute; reflexivity))).
Defined.

(** ** The browser is closed *)

Section quit_facts.
Context {World Elem : Type} {D : Driver World Elem}.
Local Abbreviation M := (@M World Elem).

Lemma is_quit_ignores : ignores_page_commands (is_quit (Elem:=Elem)).
Proof. repeat split. Qed.

(** X8.  Unless it runs out of fuel, [run] closes the browser exactly
    once, whether the harvest went through or raised, and sends nothing
    after that: [quit] is the last command of the run. *)
Theorem run_quits_once_at_the_end (fuel : nat) (delay_ms : Z) (limit : option Z)
    (processed : gset string) (w : World) :
  outcome_of (run fuel delay_ms limit processed w) <> Diverge ->
  count_events is_quit (trace_of (run fuel delay_ms limit processed w)) = 1 /\
  last (trace_of (run fuel delay_ms limit processed w)) = Some EvQuit.
Proof.
  unfold run.
  set (body := bind (collect_event_urls fuel) _).
  assert (Hbody : at_most is_quit 0 body).
  { subst body.
    apply (at_most_bind _ 0 0);
      [apply (at_most_collect is_quit is_quit_ignores)|intros urls].
    apply (at_most_bind _ 0 0);
      [apply at_most_for_each; intros;
       apply (at_most_process_url is_quit is_quit_ignores)|intros st].
    apply (at_most_bind _ 0 0);
      [apply at_most_page_command; reflexivity|intros; apply at_most_ret]. }
  specialize (Hbody w). clearbody body.
  unfold try_finally, command, outcome_of, trace_of in *.
  destruct (body w) as [[o w1] t1]. simpl in Hbody.
  destruct (quit w1) as [r w2].
  assert (Hcount : count_events is_quit (t1 ++ [EvQuit (Elem:=Elem)]) = 1).
  { rewrite count_events_app. cbn. lia. }
  destruct o as [a|e|]; [| |done]; destruct r as [[]|e']; cbn [of_result fst snd];
    intros _; (split; [exact Hcount|apply last_snoc]).
Qed.

End quit_facts.

(** Witness of [run_quits_once_at_the_end]: a run over a site with no
    event raises, and still closes the browser as its last command. *)
Lemma run_quits_once_at_the_end_witness :
  outcome_of (run (D := Toy.driver Toy.empty_site) 15 500 None ∅ Toy.start)
    = Throw RetryError /\
  last (trace_of (run (D := Toy.driver Toy.empty_site) 15 500 None ∅ Toy.start))
    = Some EvQuit.
Proof.
  split; [vm_compute; reflexivity|].
  exact (proj2
    (run_quits_once_at_the_end (D := Toy.driver Toy.empty_site) 15 500 None
       (∅ : gset string) Toy.start ltac:(vm_compute; discriminate))).
Defined.

(** ** The pages a run loads *)

Section page_loads.
Context {World Elem : Type} {D : Driver World Elem}.
Local Abbreviation M := (@M World Elem).

(** A loop sends at most the sum of what its turns may send. *)
Lemma at_most_for_each_weighted p {X S} (c : X -> nat) (xs : list X)
    (body : S -> X -> M S) acc :
  (forall acc x, In x xs -> at_most p (c x) (body acc x)) ->
  at_most p (list_sum (map c xs)) (for_each xs body acc).
Proof.
  revert acc. induction xs as [|x xs IH]; intros acc Hbody; simpl.
  - apply at_most_ret.
  - apply at_most_bind; [apply Hbody; by left|intros acc'].
    apply IH. intros acc'' x' Hx'. apply Hbody. by right.
Qed.

Lemma list_sum_zero {X} (xs : list X) : list_sum (map (fun _ => 0) xs) = 0.
Proof. induction xs; simpl; lia. Qed.

Lemma list_sum_one_of (xs : list string) (y : string) (n : nat) :
  NoDup xs -> list_sum (map (fun x => if decide (x = y) then n else 0) xs) <= n.
Proof.
  induction 1 as [|x xs Hx Hxs IH]; simpl; [lia|].
  destruct (decide (x = y)) as [->|Hne]; [|lia].
  assert (Hrest : list_sum (map (fun x => if decide (x = y) then n else 0) xs) = 0);
    [|lia].
  clear IH Hxs. induction xs as [|x xs IH]; [done|]. simpl.
  destruct (decide (x = y)) as [->|_].
  - exfalso. apply Hx. by left.
  - rewrite IH; [done|]. intros Hin. apply Hx. by right.
Qed.

Lemma yields_collect fuel : yields sorted_event_urls (collect_event_urls fuel).
Proof.
  unfold collect_event_urls, retry. apply yields_retry, yields_collect_attempt.
Qed.

Lemma limit_urls_sorted limit urls :
  sorted_event_urls urls ->
  NoDup (limit_urls limit urls) /\ Forall event_url (limit_urls limit urls).
Proof.
  intros (_ & Hnodup & Hall). destruct (limit_urls_prefix limit urls) as [rest Hrest].
  rewrite Hrest in Hnodup, Hall.
  apply NoDup_app in Hnodup as [Hnodup _]. apply Forall_app in Hall as [Hall _]. done.
Qed.

(** What a run sends, from what the collection sends and what the turn
    for each URL it keeps sends. *)
Lemma at_most_run_weighted p fuel delay_ms limit (processed : gset string)
    (c : string -> nat) n k :
  at_most p n (collect_event_urls fuel) ->
  (forall st url, event_url url -> at_most p (c url) (process_url fuel delay_ms st url)) ->
  p EvSaveMaster = false -> p EvQuit = false ->
  (forall urls, NoDup urls -> Forall event_url urls -> list_sum (map c urls) <= k) ->
  at_most p (n + k) (run fuel delay_ms limit processed).
Proof.
  intros Hcollect Hbody Hmaster Hquit Hsum. unfold run.
  replace (n + k) with ((n + (k + 0)) + 0) by lia.
  apply at_most_try_finally; [|by apply at_most_page_command].
  eapply at_most_bind_with; [apply yields_collect|exact Hcollect|].
  intros urls Hurls. destruct (limit_urls_sorted limit urls Hurls) as [Hnodup Hall].
  apply at_most_bind.
  - eapply at_most_weaken; [apply (Hsum _ Hnodup Hall)|].
    apply at_most_for_each_weighted. intros acc url Hin. apply Hbody.
    rewrite Forall_forall in Hall. by apply Hall, list_elem_of_In.
  - intros st. apply (at_most_bind p 0 0); [by apply at_most_page_command|].
    intros; apply at_most_ret.
Qed.

Lemma is_stray_get_ignores : ignores_page_commands (is_stray_get (Elem:=Elem)).
Proof. repeat split. Qed.

Lemma event_url_valid u : event_url u -> valid_url (Some u) = true.
Proof.
  intros [Hbase Hin]. unfold valid_url. rewrite Hin.
  replace (PyStr.truthy u) with true by (by destruct u).
  apply String.eqb_neq in Hbase. by rewrite Hbase.
Qed.

Lemma event_url_not_base u : event_url u -> u <> BASE_URL.
Proof. intros [Hbase _] ->. by apply Hbase. Qed.

(** X16.  A run loads no page but the list page and URLs it has
    collected, which contain [/TriggerEvents/] and are not the list
    page; and it loads no page more than three times, the list page
    included. *)
Theorem run_page_loads (fuel : nat) (delay_ms : Z) (limit : option Z)
    (processed : gset string) (w : World) :
  Forall (fun ev => forall url, ev = EvGet url -> url = BASE_URL \/ event_url url)
         (trace_of (run fuel delay_ms limit processed w)) /\
  forall url,
    count_events (is_get_of url) (trace_of (run fuel delay_ms limit processed w)) <= 3.
Proof.
  split.
  - assert (Hnone : at_most is_stray_get 0 (run fuel delay_ms limit processed)).
    { apply (at_most_run_weighted is_stray_get fuel delay_ms limit processed
               (fun _ => 0) 0 0); try done.
      - apply (at_most_collect is_stray_get is_stray_get_ignores).
      - intros st url Hurl.
        eapply at_most_weaken; [|apply at_most_process_url, is_stray_get_ignores].
        unfold cost, is_stray_get. rewrite (event_url_valid url Hurl), orb_true_r.
        done.
      - intros urls _ _. by rewrite list_sum_zero. }
    specialize (Hnone w). apply count_events_none in Hnone.
    eapply Forall_impl; [exact Hnone|]. intros ev Hev url ->.
    unfold is_stray_get in Hev. apply negb_false_iff, orb_true_iff in Hev as [Hev|Hev].
    + left. by apply String.eqb_eq.
    + right. by apply valid_url_event_url.
  - intros url. destruct (decide (url = BASE_URL)) as [->|Hne].
    + apply (at_most_run_weighted (is_get_of BASE_URL) fuel delay_ms limit processed
               (fun _ => 0) 3 0); try done.
      * eapply at_most_weaken;
          [|apply (at_most_collect (is_get_of BASE_URL) (is_get_of_ignores BASE_URL))].
        unfold cost. case_match; lia.
      * intros st url Hurl.
        eapply at_most_weaken; [|apply at_most_process_url, is_get_of_ignores].
        unfold cost, is_get_of.
        replace (String.eqb url BASE_URL) with false; [done|].
        symmetry. by apply String.eqb_neq, event_url_not_base.
      * intros urls _ _. by rewrite list_sum_zero.
    + apply (at_most_run_weighted (is_get_of url) fuel delay_ms limit processed
               (fun u => if decide (u = url) then 3 else 0) 0 3); try done.
      * eapply at_most_weaken;
          [|apply (at_most_collect (is_get_of url) (is_get_of_ignores url))].
        unfold cost, is_get_of.
        replace (String.eqb BASE_URL url) with false; [done|].
        symmetry. apply String.eqb_neq. congruence.
      * intros st u Hu.
        eapply at_most_weaken; [|apply at_most_process_url, is_get_of_ignores].
        unfold cost, is_get_of. destruct (decide (u = url)) as [->|Hu'].
        -- case_match; lia.
        -- replace (String.eqb u url) with false; [done|].
           symmetry. by apply String.eqb_neq.
      * intros urls Hnodup _. by apply list_sum_one_of.
Qed.

End page_loads.

(* ===================================================================== *)
(** ** The fields of the records *)
(* ===================================================================== *)

Lemma mem_In s l : PyStr.mem s l = true -> In s l.
Proof.
  unfold PyStr.mem. intros (x & Hx & Heq)%existsb_exists.
  apply String.eqb_eq in Heq. by subst.
Qed.

Lemma mem_not_In s l : PyStr.mem s l = false -> ~ In s l.
Proof.
  unfold PyStr.mem. intros Hmem Hin.
  assert (existsb (String.eqb s) l = true); [|congruence].
  apply existsb_exists. exists s. split; [done|apply String.eqb_refl].
Qed.

Lemma truthy_nonempty s : PyStr.truthy s = true -> s <> EmptyString.
Proof. by destruct s. Qed.

Lemma scan_flags_values lines o r o' r' :
  scan_flags lines o r = (o', r') ->
  (o' = o \/ In o' ["R"; "O"; "C"]) /\ (r' = r \/ In r' ["-"; infinity_sign; "*"]).
Proof.
  revert o r. induction lines as [|line rest IH]; intros o r; cbn [scan_flags].
  - intros [= <- <-]. by split; left.
  - destruct (PyStr.mem (PyStr.strip line) ["R"; "O"; "C"]) eqn:Hopt.
    + intros [[->|?] ?]%IH; (split; [|done]); right; [by apply mem_In|done].
    + destruct (PyStr.mem (PyStr.strip line) ["-"; infinity_sign; "*"]) eqn:Hrep.
      * intros [? [->|?]]%IH; (split; [done|]); right; [by apply mem_In|done].
      * apply IH.
Qed.

Lemma cells_loop_fields i cells v v' :
  1 <= i -> cells_loop i cells v = Some v' ->
  cv_code v' = cv_code v /\ cv_desc v' = cv_desc v /\ cv_is_group v' = cv_is_group v /\
  (cv_optionality v' = cv_optionality v \/ In (cv_optionality v') ["R"; "O"; "C"]) /\
  (cv_repeatability v' = cv_repeatability v
   \/ In (cv_repeatability v') ["-"; infinity_sign; "*"]).
Proof.
  revert i v. induction cells as [|cell cells IH]; intros i v Hi Hloop.
  - simpl in Hloop. injection Hloop as <-. repeat split; by left.
  - cbn [cells_loop] in Hloop. destruct cell as [text|e]; [|done].
    destruct i as [|[|[|i]]]; [lia| | |].
    + apply IH in Hloop as (Hc & Hd & Hg & Ho & Hr); [|lia].
      destruct (PyStr.mem (PyStr.strip text) ["R"; "O"; "C"]) eqn:Hmem;
        cbn [cv_code cv_desc cv_is_group cv_optionality cv_repeatability] in *;
        repeat split; try done.
      right. destruct Ho as [->|?]; [by apply mem_In|done].
    + apply IH in Hloop as (Hc & Hd & Hg & Ho & Hr); [|lia].
      destruct (PyStr.mem (PyStr.strip text) ["-"; infinity_sign; "*"]) eqn:Hmem;
        cbn [cv_code cv_desc cv_is_group cv_optionality cv_repeatability] in *;
        repeat split; try done.
      right. destruct Hr as [->|?]; [by apply mem_In|done].
    + apply IH in Hloop; [done|lia].
Qed.

Lemma not_inf r : In r ["-"; infinity_sign; "*"] -> r <> "inf".
Proof. intros [<-|[<-|[<-|[]]]]; done. Qed.

Lemma text_prefixes_cover code :
  PyStr.startswith_any text_leaf_prefixes code = false ->
  PyStr.startswith_any cell_leaf_prefixes code = false.
Proof.
  unfold PyStr.startswith_any, text_leaf_prefixes, cell_leaf_prefixes.
  cbn [existsb]. intros H.
  repeat (apply orb_false_elim in H as [? H]).
  repeat (apply orb_false_intro; try done).
Qed.

(** A record of the text parser. *)
Lemma text_parser_shape row i gs h seg h' :
  snd (_parse_row_text row i gs h) = Some seg -> well_shaped (segment_data h' seg).
Proof.
  intros Hseg. destruct (text_parser_code _ _ _ _ _ Hseg) as (Htruthy & Htoken & _).
  unfold well_shaped.
  cbn [segment_data sd_code sd_desc sd_optionality sd_repeatability sd_is_group].
  split; [by apply truthy_nonempty|]. split; [by apply mem_not_In|].
  revert Hseg. clear Htruthy Htoken. unfold _parse_row_text.
  destruct (row_text row) as [text|e]; [|done].
  destruct (negb (PyStr.truthy (PyStr.strip text))); [done|].
  destruct (_detect_hierarchy_level row gs h) as [[lvl l] h1].
  destruct (_ || _) eqn:Hgroup.
  { destruct (first_group_line _) as [code|] eqn:Hline; [|done].
    destruct (Store.copy l h1). cbn [snd]. intros [= <-].
    cbn [segment_code segment_desc optionality repeatability is_group].
    split; [by left|]. split; [by do 3 right; left|].
    split; [done|]. intros _. by left. }
  destruct (PyStr.mem _ _); [done|].
  destruct (PyStr.split_lines _) as [|line0 more]; [done|].
  destruct (negb (PyStr.truthy (PyStr.strip line0))); [done|].
  destruct (if _ && _ then _ else _) as [seg_code seg_desc].
  destruct (negb (PyStr.truthy seg_code) || (String.length seg_code <? 2)
            || PyStr.mem seg_code ui_tokens); [done|].
  destruct (scan_flags more "R" "-") as [o r] eqn:Hflags.
  destruct (Store.copy l h1). cbn [snd]. intros [= <-].
  cbn [segment_code segment_desc optionality repeatability is_group].
  apply scan_flags_values in Hflags as [Ho Hr].
  assert (Hr' : In r ["-"; infinity_sign; "*"]).
  { destruct Hr as [->|?]; [by left|done]. }
  split; [|split; [|split]].
  - unfold optionality_values. destruct Ho as [->|Ho]; [by left|].
    simpl in Ho |- *. tauto.
  - unfold repeatability_values. simpl in Hr' |- *. tauto.
  - intros ->. by apply not_inf in Hr'.
  - intros Hgroup'. right.
    apply andb_prop in Hgroup' as [[Hupper Hlen]%andb_prop Hprefix].
    split; [done|]. split; [by apply Nat.ltb_lt|].
    apply text_prefixes_cover. by apply negb_true_iff.
Qed.

(** A record of either parser. *)
Lemma parser_shape row i gs h seg h' :
  snd (_extract_segment_from_row row i gs h) = Some seg -> well_shaped (segment_data h' seg).
Proof.
  unfold _extract_segment_from_row.
  destruct (first_nonempty (row_cells row) cell_selectors) as [[|cell cells]|e]; [| |done].
  { apply text_parser_shape. }
  destruct (cells_loop 0 (cell :: cells) _) as [v|] eqn:Hloop; [|done].
  destruct (negb (PyStr.truthy (cv_code v))) eqn:Htruthy; [done|].
  destruct (String.length (cv_code v) <? 2) eqn:Hlen; [done|].
  cbn [orb]. destruct (Store.copy gs h). cbn [snd]. intros [= <-].
  unfold well_shaped.
  cbn [segment_data sd_code sd_desc sd_optionality sd_repeatability sd_is_group
       segment_code segment_desc optionality repeatability is_group].
  apply negb_false_iff in Htruthy.
  cbn [cells_loop] in Hloop. destruct cell as [text|e]; [|done].
  destruct (if PyStr.contains " - " (PyStr.strip text) then _ else _) as [code desc].
  destruct (PyStr.mem code (ui_tokens ++ [EmptyString])) eqn:Hmem; [done|].
  apply cells_loop_fields in Hloop as (Hc & Hd & Hg & Ho & Hr); [|lia].
  cbn [cv_code cv_desc cv_is_group cv_optionality cv_repeatability] in *.
  assert (Hr' : In (cv_repeatability v) ["-"; infinity_sign; "*"]).
  { destruct Hr as [->|?]; [by left|done]. }
  split; [by apply truthy_nonempty|]. split.
  { rewrite Hc. by apply mem_not_In, mem_app_false with [EmptyString]. }
  split; [|split; [|split]].
  - unfold optionality_values. destruct Ho as [->|Ho]; simpl in *; tauto.
  - unfold repeatability_values. simpl in Hr' |- *. tauto.
  - intros Hinf. by apply not_inf in Hr'.
  - rewrite Hg, Hc. intros Hgroup. right.
    apply andb_prop in Hgroup as [[Hupper Hlen']%andb_prop Hprefix].
    split; [done|]. split; [by apply Nat.ltb_lt|]. by apply negb_true_iff.
Qed.

(** What holds of every record the parsers return holds of every
    record of the loop. *)
Lemma flatten_Forall (P : Segment -> Prop) rows :
  (forall row i gs h seg, snd (_extract_segment_from_row row i gs h) = Some seg -> P seg) ->
  Forall P (fs_segments (flatten rows)).
Proof.
  intros HP. induction rows as [|row pre IH] using rev_ind; [constructor|].
  rewrite flatten_snoc.
  destruct (flatten_row_spec (flatten pre) row (wf_flatten pre)) as (_ & _ & _ & Hstep).
  destruct (parsed (flatten pre) row) as [seg|] eqn:Hparsed.
  - destruct Hstep as (-> & _). apply Forall_app. split; [done|].
    apply Forall_singleton. eapply HP. exact Hparsed.
  - destruct Hstep as (-> & _). done.
Qed.

Lemma fallback_lines_shape lines i : Forall well_shaped (fallback_lines lines i).
Proof.
  revert i. induction lines as [|line rest IH]; intros i; [constructor|].
  cbn [fallback_lines]. case_match; [apply IH|].
  destruct (PyStr.mem (PyStr.first_word line) (ui_tokens ++ [EmptyString])) eqn:Hmem;
    [apply IH|].
  constructor; [|apply IH]. unfold well_shaped.
  cbn [sd_code sd_desc sd_optionality sd_repeatability sd_is_group].
  apply mem_not_In in Hmem.
  split; [intros Heq; apply Hmem, in_or_app; right; rewrite Heq; by left|].
  split; [intros Hin; apply Hmem, in_or_app; by left|].
  split; [by do 3 right; left|]. split; [by left|]. split; done.
Qed.

(** X14.  Every record of one pass, from the cells of a row, from its
    text or from the text of the whole table, has a code that is
    neither empty nor a UI token, an optionality among R, O, C and -,
    and a repeatability among -, the infinity sign, * and inf; [inf]
    marks a header read from a row with a chevron, which is a required
    group described as [<code> group]; any other group has a code in
    capitals of more than three characters that does not start with
    MSH, PID or EVN. *)
Theorem records_well_shaped (table_rows : string -> result (list Row))
    (table_text : result string) :
  Forall well_shaped (extract_segments table_rows table_text).
Proof.
  unfold extract_segments.
  destruct (first_nonempty table_rows row_selectors) as [[|row rows]|e]; [| |constructor].
  - unfold _parse_table_text_fallback. destruct table_text as [text|]; [|constructor].
    apply fallback_lines_shape.
  - unfold emitted. apply Forall_map.
    apply (flatten_Forall (fun s => well_shaped (segment_data _ s))).
    intros r i gs h seg. apply parser_shape.
Qed.

(* ===================================================================== *)
(** ** The level read from the style *)
(* ===================================================================== *)

Lemma prefix_app p s : String.prefix p (p +:+ s) = true.
Proof.
  induction p as [|c p IH]; simpl; [by destruct s|].
  destruct (ascii_dec c c); [exact IH|done].
Qed.

Lemma contains_prefix sub s : PyStr.startswith sub s = true -> PyStr.contains sub s = true.
Proof. intros H. destruct s; cbn [PyStr.contains]; by rewrite H. Qed.

Lemma lstrip_by_app p a t :
  PyStr.forallb_str p a = true -> PyStr.lstrip_by p (a +:+ t) = PyStr.lstrip_by p t.
Proof.
  induction a as [|c a IH]; simpl; [done|].
  intros [Hc Ha]%andb_prop. rewrite Hc. by apply IH.
Qed.

Lemma span_app p a c t :
  PyStr.forallb_str p a = true -> p c = false ->
  PyStr.span p (a +:+ String c t) = (a, String c t).
Proof.
  intros Ha Hc. induction a as [|c' a IH]; simpl.
  - by rewrite Hc.
  - simpl in Ha. apply andb_prop in Ha as [Hc' Ha]. rewrite Hc', (IH Ha). done.
Qed.

Lemma digit_not_space c : PyStr.is_digit c = true -> PyStr.is_space c = false.
Proof.
  unfold PyStr.is_digit, PyStr.is_space. cbv zeta.
  intros [H1 H2]%andb_prop. apply Nat.leb_le in H1, H2.
  apply orb_false_intro; apply andb_false_iff; right; apply Nat.leb_gt; lia.
Qed.

Lemma search_padding_here style digits :
  PyStr.startswith "padding-left:" style = true ->
  match_padding_value (PyStr.drop 13 style) = Some digits ->
  search_padding style = Some digits.
Proof.
  intros Hstart Hvalue. destruct style; cbn [search_padding]; by rewrite Hstart, Hvalue.
Qed.

(** The value of a style that starts with [padding-left:], white space,
    digits and [px]: what [int] makes of the digits, divided by 16. *)
Lemma padding_level_value spaces digits rest :
  PyStr.forallb_str PyStr.is_space spaces = true ->
  PyStr.forallb_str PyStr.is_digit digits = true -> digits <> EmptyString ->
  padding_level (Some ("padding-left:" +:+ spaces +:+ digits +:+ "px" +:+ rest))
  = match PyStr.int_of_digits digits with
    | Some padding_pixels => Some (padding_pixels / 16)
    | None => None
    end.
Proof.
  intros Hspaces Hdigits Hne.
  set (value := spaces +:+ digits +:+ "px" +:+ rest).
  assert (Hstart : PyStr.startswith "padding-left:" ("padding-left:" +:+ value) = true)
    by apply prefix_app.
  assert (Hvalue : match_padding_value value = Some digits).
  { unfold match_padding_value, value. rewrite lstrip_by_app by done.
    destruct digits as [|d digits]; [done|].
    simpl in Hdigits. apply andb_prop in Hdigits as [Hd Hdigits].
    change (String d digits +:+ "px" +:+ rest)
      with (String d (digits +:+ "px" +:+ rest)).
    cbn [PyStr.lstrip_by]. rewrite (digit_not_space d Hd).
    change (String d (digits +:+ "px" +:+ rest))
      with (String d digits +:+ String "p" (String "x" rest)).
    rewrite span_app; [|by simpl; rewrite Hd|done].
    unfold PyStr.startswith.
    change (String "p" (String "x" rest)) with ("px" +:+ rest).
    by rewrite prefix_app. }
  unfold padding_level.
  replace (PyStr.truthy ("padding-left:" +:+ value)) with true by reflexivity.
  rewrite (contains_prefix _ _ Hstart). cbn [andb].
  by rewrite (search_padding_here _ digits Hstart Hvalue).
Qed.

(** X15.  For a row whose inline style starts with [padding-left:],
    any white space, digits and [px]: when the digits are at most 4300,
    the level is the number they spell divided by 16, rounded down, and
    the stack returned is the caller's stack cut to that level; when
    they are more, [int] raises and the handler answers with the
    caller's stack and its length.  In both cases the caller's own list
    is left as it was. *)
Theorem hierarchy_level_from_padding (row : Row) (gs : loc) (h : Heap)
    (spaces digits rest : string) :
  gs < length h ->
  row_style row = Ok (Some ("padding-left:" +:+ spaces +:+ digits +:+ "px" +:+ rest)) ->
  PyStr.forallb_str PyStr.is_space spaces = true ->
  PyStr.forallb_str PyStr.is_digit digits = true ->
  digits <> EmptyString ->
  let '(hierarchy_level, current_group_stack, h') := _detect_hierarchy_level row gs h in
  (String.length digits <= PyStr.int_max_str_digits ->
     hierarchy_level = PyStr.int_digits digits / 16 /\
     Store.get h' current_group_stack = take hierarchy_level (Store.get h gs)) /\
  (PyStr.int_max_str_digits < String.length digits ->
     hierarchy_level = length (Store.get h gs) /\ current_group_stack = gs /\ h' = h) /\
  Store.get h' gs = Store.get h gs.
Proof.
  intros Hgs Hstyle Hspaces Hdigits Hne.
  destruct (_detect_hierarchy_level row gs h) as [[lvl l] h'] eqn:Hdetect.
  destruct (detect_spec _ _ _ _ _ _ Hdetect Hgs) as ([extra ->] & _ & Hget & _).
  split; [|split; [|by apply get_app_l]].
  - intros Hlen. split; [|done].
    unfold _detect_hierarchy_level in Hdetect. rewrite Hstyle in Hdetect.
    rewrite (padding_level_value spaces digits rest Hspaces Hdigits Hne) in Hdetect.
    unfold PyStr.int_of_digits in Hdetect.
    replace (PyStr.int_max_str_digits <? String.length digits) with false in Hdetect
      by (symmetry; apply Nat.ltb_ge; exact Hlen).
    destruct (_ <? _); [unfold Store.slice, Store.alloc in Hdetect|];
      by injection Hdetect as <- _ _.
  - intros Hlen.
    unfold _detect_hierarchy_level in Hdetect. rewrite Hstyle in Hdetect.
    rewrite (padding_level_value spaces digits rest Hspaces Hdigits Hne) in Hdetect.
    unfold PyStr.int_of_digits in Hdetect.
    replace (PyStr.int_max_str_digits <? String.length digits) with true in Hdetect
      by (symmetry; apply Nat.ltb_lt; exact Hlen).
    injection Hdetect as <- <- Hh. by rewrite <- Hh.
Qed.

(** Witness of [hierarchy_level_from_padding]: 40 pixels, level 2, under
    a stack of three groups. *)
Lemma hierarchy_level_from_padding_witness :
  let '(hierarchy_level, current_group_stack, h') :=
    _detect_hierarchy_level (Fixtures.text_row "PID" "40") 0 [["A"; "B"; "C"]] in
  hierarchy_level = 2 /\
  Store.get h' current_group_stack = take hierarchy_level ["A"; "B"; "C"].
Proof.
  exact (proj1
    (hierarchy_level_from_padding (Fixtures.text_row "PID" "40") 0 [["A"; "B"; "C"]]
       " " "40" ";" ltac:(simpl; lia) eq_refl eq_refl eq_refl ltac:(discriminate))
    ltac:(vm_compute; lia)).
Defined.

(** A padding of 4301 digits: [int] refuses it, and the level is the
    length of the stack, 2, whatever the digits say. *)
Example padding_beyond_int_limit :
  _detect_hierarchy_level
    (Fixtures.text_row "PID" (Fixtures.nines 4301)) 0 [["A"; "B"]]
  = (2, 0, [["A"; "B"]]).
Proof. vm_compute. reflexivity. Qed.

(* ===================================================================== *)
(** ** The scan loop, turn by turn *)
(* ===================================================================== *)

Section scan_turns.
Context {World Elem : Type} {D : Driver World Elem}.
Local Abbreviation M := (@M World Elem).

Lemma scroll_offsets_app (t1 t2 : list (Event Elem)) :
  scroll_offsets (t1 ++ t2) = scroll_offsets t1 ++ scroll_offsets t2.
Proof. unfold scroll_offsets. apply omap_app. Qed.

Lemma no_scroll_no_offsets (t : list (Event Elem)) :
  count_events is_set_scroll_top t <= 0 -> scroll_offsets t = [].
Proof.
  intros Hnone. apply count_events_none in Hnone.
  induction Hnone as [|ev t Hev _ IH]; [done|].
  cbn [scroll_offsets omap list_omap]. fold (scroll_offsets t). rewrite IH.
  destruct ev as [|[]| | | | | |]; done.
Qed.

Lemma still_offsets {A} (m : M A) w : still m -> scroll_offsets (trace_of (m w)) = [].
Proof. intros Hm. apply no_scroll_no_offsets, Hm. Qed.

Lemma offsets_bind_l {A B} (m : M A) (k : A -> M B) w :
  still m ->
  scroll_offsets (trace_of (bind m k w)) = [] \/
  exists a w1, scroll_offsets (trace_of (bind m k w)) = scroll_offsets (trace_of (k a w1)).
Proof.
  intros Hm. pose proof (still_offsets m w Hm) as Hnone.
  unfold bind, trace_of in *. destruct (m w) as [[[a|e|] w1] t1]; simpl in *; [|by left..].
  right. exists a, w1. destruct (k a w1) as [[o w2] t2]. simpl.
  by rewrite scroll_offsets_app, Hnone.
Qed.

Lemma offsets_bind_r {A B} (m : M A) (k : A -> M B) w :
  (forall a, still (k a)) ->
  scroll_offsets (trace_of (bind m k w)) = scroll_offsets (trace_of (m w)).
Proof.
  intros Hk. unfold bind, trace_of. destruct (m w) as [[[a|e|] w1] t1]; simpl; [|done..].
  pose proof (still_offsets (k a) w1 (Hk a)) as Hnone. unfold trace_of in Hnone.
  destruct (k a w1) as [[o w2] t2]. simpl in *.
  by rewrite scroll_offsets_app, Hnone, app_nil_r.
Qed.

Lemma still_sleep ms : still (do_sleep ms).
Proof. by apply at_most_page_command. Qed.

Lemma still_visible_urls : still visible_urls.
Proof. apply at_most_visible_urls. Qed.

Lemma still_wait_until {A} polls (condition : World -> result (option A)) :
  still (wait_until polls condition).
Proof.
  induction polls as [|polls IH]; [apply at_most_throw|].
  intros w. cbn [wait_until].
  assert (Hnext : count_events is_set_scroll_top
            (trace_of ((do_sleep 500 ;;; wait_until polls condition)%browser w)) <= 0).
  { apply (at_most_bind _ 0 0); [apply still_sleep|intros; apply IH]. }
  destruct (condition w) as [[value|]|[]]; try exact Hnext; done.
Qed.

Lemma still_banner : still close_cookie_banner.
Proof.
  intros w. pose proof (cookie_banner_commands w) as Hall.
  unfold count_events. apply Nat.le_0_r, length_zero_iff_nil.
  induction Hall as [|ev t Hev _ IH]; [done|].
  simpl. destruct ev as [|[]| | | | | |]; done.
Qed.

Lemma still_fallback_scroll fuel last_height scroll_attempts :
  still (fallback_scroll fuel last_height scroll_attempts).
Proof.
  revert last_height scroll_attempts.
  induction fuel as [|fuel IH]; intros last_height scroll_attempts;
    cbn [fallback_scroll]; destruct (scroll_attempts <? 20); try apply at_most_ret.
  - apply at_most_diverge.
  - apply (at_most_bind _ 0 0); [by apply at_most_page_command|intros _].
    apply (at_most_bind _ 0 0); [apply still_sleep|intros _].
    apply (at_most_bind _ 0 0); [apply at_most_read|intros new_height].
    destruct (new_height =? last_height)%Z; [apply at_most_ret|apply IH].
Qed.

Lemma still_fallback fuel : still (_fallback_collect_urls fuel).
Proof.
  unfold _fallback_collect_urls.
  apply (at_most_bind _ 0 0); [apply still_fallback_scroll|intros _].
  apply (at_most_bind _ 0 0); [apply still_visible_urls|intros; apply at_most_ret].
Qed.

(** One turn sets the offset once, to the position of its state,
    however it ends. *)
Lemma scroll_iteration_offsets virtual_scroll step st (w : World) :
  scroll_offsets (trace_of (scroll_iteration virtual_scroll step st w))
  = [scroll_position st].
Proof.
  unfold scroll_iteration.
  set (rest := fun _ : unit => bind (do_sleep 500) _).
  assert (Hrest : forall a, still (rest a)).
  { intros a. unfold rest.
    apply (at_most_bind _ 0 0); [apply still_sleep|intros _].
    apply (at_most_bind _ 0 0); [apply still_visible_urls|intros; apply at_most_ret]. }
  rewrite (offsets_bind_r _ rest w Hrest).
  unfold do_script, command, trace_of.
  by destruct (execute_script _ w) as [r w'].
Qed.

Lemma last_cons {A} (a d : A) l : List.last (a :: l) d = List.last l a.
Proof.
  revert a d. induction l as [|b l IH]; intros a d; [done|].
  change (List.last (a :: b :: l) d) with (List.last (b :: l) d).
  by rewrite (IH b d), (IH b a).
Qed.

(** A scan that returns is a chain of turns, each taken while the
    position was not beyond the last one and the counter below 5; it
    has set the offset once per turn, at the position of the state the
    turn started in; and it ends in the first state that is beyond the
    last position or has the counter at 5. *)
Lemma scroll_loop_turns fuel virtual_scroll step max_position st (w : World) st' :
  outcome_of (scroll_loop fuel virtual_scroll step max_position st w) = Return st' ->
  exists turns,
    scan_of step max_position st turns /\
    st' = List.last turns st /\
    (5 <= no_new_urls_count st' \/ (max_position < scroll_position st')%Z) /\
    scroll_offsets (trace_of (scroll_loop fuel virtual_scroll step max_position st w))
    = map scroll_position (take (length turns) (st :: turns)).
Proof.
  revert st w. induction fuel as [|fuel IH]; intros st w; cbn [scroll_loop];
    destruct (scroll_continues max_position st) eqn:Hcont; try done.
  - intros [= <-]. exists []. split; [done|]. split; [done|]. split; [|done].
    unfold scroll_continues in Hcont. apply andb_false_iff in Hcont as [H|H].
    + right. by apply Z.leb_gt.
    + left. by apply Nat.ltb_ge.
  - intros Hret. unfold outcome_of, trace_of in *.
    destruct (bind _ _ w) as [[o w2] t] eqn:Hbind. simpl in Hret. subst o.
    apply bind_inv in Hbind as (st1 & w1 & t1 & t2 & Hturn & Hloop & ->).
    pose proof (scroll_iteration_spec virtual_scroll step st w st1) as Hspec.
    pose proof (scroll_iteration_offsets virtual_scroll step st w) as Hoff.
    unfold outcome_of, trace_of in Hspec, Hoff. rewrite Hturn in Hspec, Hoff.
    specialize (Hspec eq_refl). simpl in Hoff.
    destruct (IH st1 w1) as (turns & Hscan & Hlast & Hexit & Hoffs).
    { by rewrite Hloop. }
    rewrite Hloop in Hoffs. simpl in Hoffs.
    exists (st1 :: turns). unfold scroll_continues in Hcont.
    apply andb_prop in Hcont as [Hpos Hcount].
    apply Z.leb_le in Hpos. apply Nat.ltb_lt in Hcount.
    split; [done|]. split; [by rewrite last_cons|]. split; [done|].
    cbn [snd]. rewrite scroll_offsets_app, Hoff, Hoffs. done.
  - intros [= <-]. exists []. split; [done|]. split; [done|]. split; [|done].
    unfold scroll_continues in Hcont. apply andb_false_iff in Hcont as [H|H].
    + right. by apply Z.leb_gt.
    + left. by apply Nat.ltb_ge.
Qed.

(** Whatever its outcome, a scan sets the offsets [position],
    [position + step], ... in this order, and none beyond the last
    position. *)
Lemma scroll_loop_offsets fuel virtual_scroll step max_position st (w : World) :
  exists n,
    scroll_offsets (trace_of (scroll_loop fuel virtual_scroll step max_position st w))
    = map (fun i => (scroll_position st + Z.of_nat i * step)%Z) (seq 0 n) /\
    (n = 0 \/ (scroll_position st + Z.of_nat (n - 1) * step <= max_position)%Z).
Proof.
  revert st w. induction fuel as [|fuel IH]; intros st w; cbn [scroll_loop];
    destruct (scroll_continues max_position st) eqn:Hcont;
    try (exists 0; split; [done|by left]).
  unfold scroll_continues in Hcont. apply andb_prop in Hcont as [Hpos _].
  apply Z.leb_le in Hpos.
  pose proof (scroll_iteration_spec virtual_scroll step st w) as Hspec.
  pose proof (scroll_iteration_offsets virtual_scroll step st w) as Hoff.
  unfold bind, outcome_of, trace_of in *.
  destruct (scroll_iteration virtual_scroll step st w) as [[[st1|e|] w1] t1];
    simpl in *.
  - destruct (Hspec st1 eq_refl) as (_ & Hpos1 & _).
    destruct (IH st1 w1) as (n & Hoffs & Hn).
    destruct (scroll_loop fuel virtual_scroll step max_position st1 w1) as [[o w2] t2].
    simpl in *. exists (S n). rewrite scroll_offsets_app, Hoff, Hoffs. split.
    + cbn [seq map app]. f_equal; [lia|].
      rewrite <- seq_shift, map_map. apply map_ext. intros i. rewrite Hpos1. lia.
    + right. destruct Hn as [->|Hn]; [simpl; lia|].
      rewrite Hpos1 in Hn. destruct n as [|n]; [simpl in *; lia|].
      replace (S (S n) - 1) with (S (S n - 1)) by lia.
      rewrite Nat2Z.inj_succ. lia.
  - exists 1. rewrite Hoff. split; [simpl; f_equal; lia|right; simpl; lia].
  - exists 1. rewrite Hoff. split; [simpl; f_equal; lia|right; simpl; lia].
Qed.

Lemma halts_bind_when {A B} (Q : A -> Prop) (m : M A) (k : A -> M B) :
  yields Q m -> halts m -> (forall a, Q a -> halts (k a)) -> halts (bind m k).
Proof.
  intros HQ Hm Hk w. specialize (Hm w). specialize (HQ w).
  unfold bind, outcome_of in *.
  destruct (m w) as [[[a| |] w1] t1]; simpl in *; [|done|done].
  specialize (Hk a (HQ a eq_refl) w1). unfold outcome_of in Hk.
  by destruct (k a w1) as [[o w2] t2].
Qed.

Lemma halts_banner : halts close_cookie_banner.
Proof.
  unfold close_cookie_banner.
  apply halts_bind; [|intros; apply halts_ret].
  apply halts_for_each. intros done_ selector. destruct done_; [apply halts_ret|].
  apply halts_try_except; [|intros; apply halts_ret].
  apply halts_bind; [apply halts_read|intros; apply halts_banner_loop].
Qed.

Lemma offsets_after_still {A B} (m : M A) (k : A -> M B) (w : World) :
  still m ->
  (forall a w1, half_viewport_offsets (scroll_offsets (trace_of (k a w1)))) ->
  half_viewport_offsets (scroll_offsets (trace_of (bind m k w))).
Proof.
  intros Hm Hk. destruct (offsets_bind_l m k w Hm) as [->|(a & w1 & ->)]; [|apply Hk].
  exists 0. split; [lia|done].
Qed.

(** C3.  A scan that returns is a chain of turns: each was taken in a
    state whose position was not beyond the last one and whose counter
    was below 5, each let the set of URLs grow, moved the position by
    one step and put the counter up by one when it added no URL and
    back to zero otherwise, and each set the scroll offset once; the
    scan ended in the first state with the counter at 5 or the position
    beyond the last one.  A state with the counter at 5 ends the scan
    wherever the position is.  With a viewport of 500 in a list of 5000
    the collection sets the offsets 0, 250, 500, ... and at most 19 of
    them, and does not run on. *)
Theorem stagnation_counter_bounds_scan (fuel : nat) (virtual_scroll : Elem) (w : World) :
  20 <= fuel ->
  (forall step max_position st st',
     outcome_of (scroll_loop fuel virtual_scroll step max_position st w) = Return st' ->
     exists turns,
       scan_of step max_position st turns /\
       st' = List.last turns st /\
       (5 <= no_new_urls_count st' \/ (max_position < scroll_position st')%Z) /\
       scroll_offsets (trace_of (scroll_loop fuel virtual_scroll step max_position st w))
       = map scroll_position (take (length turns) (st :: turns))) /\
  (forall step max_position st,
     5 <= no_new_urls_count st ->
     scroll_loop fuel virtual_scroll step max_position st w = (Return st, w, [])) /\
  ((forall v w', measure (ScrollHeightOf v) w' = Ok 5000%Z) ->
   (forall v w', measure (ClientHeightOf v) w' = Ok 500%Z) ->
   outcome_of (collect_event_urls_attempt fuel w) <> Diverge /\
   exists n, n <= 19 /\
     scroll_offsets (trace_of (collect_event_urls_attempt fuel w))
     = map (fun i => (250 * Z.of_nat i)%Z) (seq 0 n)).
Proof.
  intros Hfuel. split; [|split].
  - intros step max_position st st'. apply scroll_loop_turns.
  - intros step max_position st Hcount.
    assert (Hstop : scroll_continues max_position st = false).
    { unfold scroll_continues. apply andb_false_iff. right. apply Nat.ltb_ge. lia. }
    destruct fuel; cbn [scroll_loop]; rewrite Hstop; done.
  - intros Hscroll Hclient. split.
    + revert w. change (halts (collect_event_urls_attempt fuel)).
      unfold collect_event_urls_attempt.
      apply halts_bind; [apply halts_command|intros _].
      apply halts_bind; [apply halts_wait_until|intros _].
      apply halts_bind; [apply halts_banner|intros _].
      apply halts_bind.
      { apply halts_try_except.
        - apply halts_bind; [apply halts_wait_until|intros; apply halts_ret].
        - intros e. destruct (is_timeout e); [apply halts_ret|apply halts_throw]. }
      intros [v|].
      * apply (halts_bind_when (fun a => a = 5000%Z)); [|apply halts_read|intros ? ->].
        { intros w a. unfold read, outcome_of. rewrite Hscroll. by intros [= <-]. }
        apply (halts_bind_when (fun a => a = 500%Z)); [|apply halts_read|intros ? ->].
        { intros w a. unfold read, outcome_of. rewrite Hclient. by intros [= <-]. }
        apply halts_bind.
        { intros w. apply (scroll_loop_bound 19); [|lia].
          cbn [scroll_position]. change (500 / 2)%Z with 250%Z. lia. }
        intros st. apply halts_bind; [apply halts_command|intros _].
        apply halts_bind; [apply halts_command|intros _].
        apply halts_bind; [apply halts_visible_urls|intros; apply halts_ret].
      * unfold _fallback_collect_urls.
        apply halts_bind; [apply halts_fallback_scroll; lia|intros _].
        apply halts_bind; [apply halts_visible_urls|intros; apply halts_ret].
    + change (half_viewport_offsets
                (scroll_offsets (trace_of (collect_event_urls_attempt fuel w)))).
      unfold collect_event_urls_attempt.
      apply offsets_after_still; [by apply at_most_page_command|intros _ w1].
      apply offsets_after_still; [apply still_wait_until|intros _ w2].
      apply offsets_after_still; [apply still_banner|intros _ w3].
      apply offsets_after_still.
      { apply (at_most_try_except _ 0 0).
        - apply (at_most_bind _ 0 0); [apply still_wait_until|intros; apply at_most_ret].
        - intros e. destruct (is_timeout e); [apply at_most_ret|apply at_most_throw]. }
      intros [v|] w4.
      * erewrite bind_pure; [|unfold read; by rewrite Hscroll].
        erewrite bind_pure; [|unfold read; by rewrite Hclient].
        rewrite offsets_bind_r.
        -- destruct (scroll_loop_offsets fuel v (500 / 2) (5000 - 500)
                       {| all_urls := ∅; scroll_position := 0; no_new_urls_count := 0 |} w4)
             as (n & -> & Hn).
           cbn [scroll_position] in *. change (500 / 2)%Z with 250%Z in *.
           exists n. split; [destruct Hn as [->|Hn]; lia|].
           apply map_ext. intros i. lia.
        -- intros st.
           apply (at_most_bind _ 0 0); [by apply at_most_page_command|intros _].
           apply (at_most_bind _ 0 0); [apply still_sleep|intros _].
           apply (at_most_bind _ 0 0); [apply still_visible_urls|intros; apply at_most_ret].
      * rewrite (still_offsets _ w4 (still_fallback fuel)). exists 0. split; [lia|done].
Qed.

End scan_turns.

(** Witness of [stagnation_counter_bounds_scan]: the list of twenty
    events behind a viewport of 500 in a list of 5000; the collection
    sets all of the 19 offsets and returns the twenty URLs. *)
Lemma stagnation_counter_bounds_scan_witness :
  (exists n, n <= 19 /\
     scroll_offsets
       (trace_of (collect_event_urls_attempt (D := Toy.driver Toy.virtual_site) 20 Toy.start))
     = map (fun i => (250 * Z.of_nat i)%Z) (seq 0 n)) /\
  scroll_offsets
    (trace_of (collect_event_urls_attempt (D := Toy.driver Toy.virtual_site) 20 Toy.start))
  = map (fun i => (250 * Z.of_nat i)%Z) (seq 0 19) /\
  outcome_of (collect_event_urls_attempt (D := Toy.driver Toy.virtual_site) 20 Toy.start)
  = Return (map Toy.item_url (seq 0 20)).
Proof.
  split.
  - exact (proj2 (proj2 (proj2
      (stagnation_counter_bounds_scan (D := Toy.driver Toy.virtual_site) 20 Toy.TViewport
         Toy.start (le_n 20)))
      (fun _ _ => eq_refl) (fun _ _ => eq_refl))).
  - split; vm_compute; reflexivity.
Defined.
